(** * GCal2Discord: the reconciliation engine of [main.py]

    A shallow embedding of the calendar-to-Discord synchroniser and the
    properties of its filter, fingerprint, mapping store, retry loop and
    poll cycle.

    Conventions of the embedding:
    - a Python [str] is a [string]; case mapping and white space are those of
      the ASCII range;
    - a Python dict with a fixed set of keys read by the code is a record
      whose fields are [option]s ([None] when the key is absent); the filter
      configuration, whose keys are looked up by name, is a [gmap];
    - the wait hint of a rate-limited answer and the lengths of the sleeps
      are rationals;
    - the global [synced_events] and the effects of a cycle (requests, sleeps,
      saves) are threaded explicitly through a state; the log file is not
      part of it;
    - the answers of the platform are a sequence indexed by the number of
      requests made so far; the events fetched from the calendar are an
      argument of the cycle;
    - an exception is a value of [exn]; a computation that may raise returns a
      [result]. *)

From Stdlib Require Import Ascii String QArith.
From stdpp Require Import gmap strings list.

Open Scope string_scope.

(** ** Python string primitives *)

Module PyStr.

Definition is_upper (c : ascii) : bool :=
  let n := nat_of_ascii c in (65 <=? n)%nat && (n <=? 90)%nat.

Definition lower_char (c : ascii) : ascii :=
  if is_upper c then ascii_of_nat (nat_of_ascii c + 32) else c.

(** [s.lower()] *)
Fixpoint lower (s : string) : string :=
  match s with
  | EmptyString => EmptyString
  | String c t => String (lower_char c) (lower t)
  end.

(** [s.startswith(p)] *)
Fixpoint startswith (s p : string) : bool :=
  match p, s with
  | EmptyString, _ => true
  | String _ _, EmptyString => false
  | String b p', String a s' => Ascii.eqb a b && startswith s' p'
  end.

(** [s.endswith(p)] *)
Fixpoint endswith (s p : string) : bool :=
  String.eqb s p ||
  match s with
  | EmptyString => false
  | String _ t => endswith t p
  end.

(** [k in s] for two strings *)
Fixpoint contains (k s : string) : bool :=
  startswith s k ||
  match s with
  | EmptyString => false
  | String _ t => contains k t
  end.

(** [x in l] for a list of strings *)
Definition mem (x : string) (l : list string) : bool :=
  existsb (String.eqb x) l.

(** [d.get(k, '')] on an optional field *)
Definition get_str (o : option string) : string := default "" o.

End PyStr.

(** ** Source events as delivered by the calendar API *)

Record person := { email : option string }.

(** The [start] and [end] objects: [dateTime] for timed events, [date] for
    whole-day events. *)
Record event_time := {
  dateTime : option string;
  date : option string
}.

Record event := {
  event_id : option string;
  summary : option string;
  description : option string;
  location : option string;
  start : option event_time;
  end_ : option event_time;
  creator : option person;
  attendees : option (list person)
}.

(** ** The eligibility filter *)

Module Filter.
Import PyStr.

(** [var.EVENT_FILTERS]: [None] when the attribute is not defined. *)
Definition filters := option (gmap string (list string)).

(** [if key in filters: for x in filters[key]: if test(x): ...] *)
Definition clause (f : gmap string (list string)) (key : string)
    (test : string -> bool) : bool :=
  match f !! key with
  | Some xs => existsb test xs
  | None => false
  end.

Definition creator_email (e : event) : string :=
  lower (get_str (email (default {| email := None |} (creator e)))).

Definition attendee_emails (e : event) : list string :=
  map (fun a => lower (get_str (email a))) (default [] (attendees e)).

Section Clauses.
Variable f : gmap string (list string).
Variable e : event.

Let event_title := lower (get_str (summary e)).
Let event_description := lower (get_str (description e)).
Let event_location := lower (get_str (location e)).

(** The seven inclusion clauses, in the order of the source. *)
Definition title_contains : bool :=
  clause f "title_contains" (fun k => contains (lower k) event_title).
Definition title_starts_with : bool :=
  clause f "title_starts_with" (fun p => startswith event_title (lower p)).
Definition title_ends_with : bool :=
  clause f "title_ends_with" (fun s => endswith event_title (lower s)).
Definition description_contains : bool :=
  clause f "description_contains"
    (fun k => contains (lower k) event_description).
Definition location_contains : bool :=
  clause f "location_contains" (fun k => contains (lower k) event_location).
Definition creator_email_is : bool :=
  clause f "creator_email" (fun m => String.eqb (lower m) (creator_email e)).
Definition attendee_email_in : bool :=
  clause f "attendee_email" (fun m => mem (lower m) (attendee_emails e)).

(** The two exclusion clauses. *)
Definition exclude_title_contains : bool :=
  clause f "exclude_title_contains"
    (fun k => contains (lower k) event_title).
Definition exclude_description_contains : bool :=
  clause f "exclude_description_contains"
    (fun k => contains (lower k) event_description).

Definition matches_inclusion : bool :=
  title_contains || title_starts_with || title_ends_with
  || description_contains || location_contains
  || creator_email_is || attendee_email_in.

Definition matches_exclusion : bool :=
  exclude_title_contains || exclude_description_contains.

(** The body of [should_sync_event] once filters are known to be
    configured: each inclusion clause returns [True] as soon as it
    matches; the exclusion clauses come after them and return [False];
    so does the end of the function. *)
Definition filtered_decision : bool :=
  if title_contains then true
  else if title_starts_with then true
  else if title_ends_with then true
  else if description_contains then true
  else if location_contains then true
  else if creator_email_is then true
  else if attendee_email_in then true
  else if exclude_title_contains then false
  else if exclude_description_contains then false
  else false.
End Clauses.

Definition should_sync_event (fs : filters) (e : event) : bool :=
  match fs with
  | None => true
  | Some f =>
      if bool_decide (f = ∅) then true else filtered_decision f e
  end.

(** What the specification asks for: inclusion by OR, then exclusion. *)
Definition eligible_spec (fs : filters) (e : event) : bool :=
  match fs with
  | None => true
  | Some f =>
      if bool_decide (f = ∅) then true
      else matches_inclusion f e && negb (matches_exclusion f e)
  end.

End Filter.


(** ** Hyperlink normalisation of descriptions *)

Module Html.
Import PyStr.

(** The double quote character. *)
Definition dquote : ascii := "034"%char.

(** Writes a text that contains double quotes with apostrophes in their
    place. *)
Fixpoint q (s : string) : string :=
  match s with
  | EmptyString => EmptyString
  | String c t => String (if Ascii.eqb c "'"%char then dquote else c) (q t)
  end.

(** [\s] on the ASCII range: tab to carriage return, the four separators
    FS, GS, RS, US, and the space. *)
Definition is_space (c : ascii) : bool :=
  let n := nat_of_ascii c in
  ((9 <=? n)%nat && (n <=? 13)%nat) || ((28 <=? n)%nat && (n <=? 32)%nat).

(** The longest prefix of characters satisfying [p], and what follows. *)
Fixpoint span (p : ascii -> bool) (s : string) : string * string :=
  match s with
  | EmptyString => (EmptyString, EmptyString)
  | String c t =>
      if p c then let '(a, b) := span p t in (String c a, b)
      else (EmptyString, s)
  end.

(** A literal of the pattern under [re.IGNORECASE]: [lit] is given in lower
    case; returns what follows it. *)
Fixpoint literal_i (lit s : string) : option string :=
  match lit, s with
  | EmptyString, _ => Some s
  | String _ _, EmptyString => None
  | String a lit', String c s' =>
      if Ascii.eqb (lower_char c) a then literal_i lit' s' else None
  end.

Definition nonempty (s : string) : bool :=
  match s with EmptyString => false | _ => true end.

Definition not_char (x : ascii) (c : ascii) : bool := negb (Ascii.eqb c x).

(** One match of the pattern
    [<a\s+href=Q([^Q]+)Q[^>]*>([^<]+)</a>] (Q the double quote)
    anchored at the head of [s]: the two groups and the rest of the subject.
    Every repetition of the pattern is followed by a character outside its
    class, so the longest run is the only one the backtracking matcher can
    accept. *)
Definition match_link (s : string) : option (string * string * string) :=
  s1 ← literal_i "<a" s;
  let '(ws, s2) := span is_space s1 in
  if negb (nonempty ws) then None else
  s3 ← literal_i (q "href='") s2;
  let '(url, s4) := span (not_char dquote) s3 in
  if negb (nonempty url) then None else
  s5 ← literal_i (q "'") s4;
  let '(_, s6) := span (not_char ">") s5 in
  s7 ← literal_i ">" s6;
  let '(link_text, s8) := span (not_char "<") s7 in
  if negb (nonempty link_text) then None else
  rest ← literal_i "</a>" s8;
  Some (url, link_text, rest).

(** [replace_link]: the f-string [{url} ({link_text})] *)
Definition replace_link (url link_text : string) : string :=
  url ++ " (" ++ link_text ++ ")".

(** [re.sub]: scan from the left; at a match emit the replacement and go on
    after it, otherwise copy one character. [fuel] bounds the number of
    steps; the length of the subject is enough. *)
Fixpoint sub (fuel : nat) (s : string) : string :=
  match fuel with
  | O => s
  | S n =>
      match s with
      | EmptyString => EmptyString
      | String c t =>
          match match_link s with
          | Some (url, link_text, rest) =>
              replace_link url link_text ++ sub n rest
          | None => String c (sub n t)
          end
      end
  end.

Definition parse_html_links (text : string) : string :=
  if negb (nonempty text) then text
  else sub (String.length text) text.

End Html.

(** ** What hyperlink normalisation is meant to do *)

Module HtmlSpec.
Import PyStr Html.

Fixpoint all (p : ascii -> bool) (s : string) : bool :=
  match s with
  | EmptyString => true
  | String c t => p c && all p t
  end.

(** The pieces of one anchor as the pattern reads it. *)
Record anchor := {
  tag : string;      (* the opening of the tag, in any case *)
  space : string;    (* the white space before the attribute *)
  href : string;     (* the attribute name with its equals sign and quote *)
  url : string;
  attrs : string;    (* what follows the closing quote inside the tag *)
  text : string;
  close : string     (* the closing tag, in any case *)
}.

Definition well_formed (a : anchor) : bool :=
  String.eqb (lower (tag a)) "<a"
  && nonempty (space a) && all is_space (space a)
  && String.eqb (lower (href a)) (q "href='")
  && nonempty (url a) && all (not_char dquote) (url a)
  && all (not_char ">") (attrs a)
  && nonempty (text a) && all (not_char "<") (text a)
  && String.eqb (lower (close a)) "</a>".

Definition markup (a : anchor) : string :=
  tag a ++ space a ++ href a ++ url a ++ q "'" ++ attrs a ++ ">"
  ++ text a ++ close a.

(** The rewriting of a description, from the left: an anchor becomes its
    URL followed by its text in parentheses; a character at which no
    anchor starts is copied. *)
Inductive normalises : string -> string -> Prop :=
| norm_end : normalises "" ""
| norm_link a rest out :
    well_formed a = true →
    normalises rest out →
    normalises (markup a ++ rest)
      (url a ++ " (" ++ text a ++ ")" ++ out)
| norm_char c s out :
    (∀ a rest, well_formed a = true → String c s ≠ markup a ++ rest) →
    normalises s out →
    normalises (String c s) (String c out).

(** The exact shape of the specification: the opening of the tag with one
    space and the attribute, the URL, the closing quote and angle bracket,
    the text, the closing tag; the tag and attribute names in any case. *)
Definition exact_shape (s u t : string) : Prop :=
  ∃ a b, lower a = q "<a href='" ∧ lower b = "</a>"
         ∧ s = a ++ u ++ q "'>" ++ t ++ b.

End HtmlSpec.

(** ** Dates, zones and [convert_utc_to_timezone] *)

Module DateTime.
Import PyStr.
Open Scope Z_scope.

(** A naive [datetime.datetime] (no microseconds are ever parsed here). *)
Record datetime := {
  year : Z; month : Z; day : Z;
  hour : Z; minute : Z; second : Z
}.

(** A [tzinfo]: the offset from UTC, in seconds, of a wall-clock time
    (what [utcoffset] answers for [fold=0]). *)
Definition tzinfo := datetime -> Z.

(** [datetime.timezone.utc] *)
Definition utc : tzinfo := fun _ => 0.

(** The zone database behind [ZoneInfo(key)]; [None] when the constructor
    raises. *)
Definition zone_db := string -> option tzinfo.

Definition is_leap (y : Z) : bool :=
  ((y mod 4 =? 0) && negb (y mod 100 =? 0)) || (y mod 400 =? 0).

Definition days_in_month (y m : Z) : Z :=
  if m =? 2 then (if is_leap y then 29 else 28)
  else if (m =? 4) || (m =? 6) || (m =? 9) || (m =? 11) then 30
  else 31.

Definition digit (c : ascii) : option Z :=
  let n := Z.of_nat (nat_of_ascii c) in
  if (48 <=? n) && (n <=? 57) then Some (n - 48) else None.

(** A run of decimal digits read as a number; [None] on any other
    character or on the empty string. *)
Fixpoint digits_acc (acc : Z) (s : string) : option Z :=
  match s with
  | EmptyString => Some acc
  | String c t => d ← digit c; digits_acc (10 * acc + d) t
  end.

Definition digits (s : string) : option Z :=
  match s with
  | EmptyString => None
  | _ => digits_acc 0 s
  end.

Definition char_at (s : string) (n : nat) (c : ascii) : bool :=
  match String.get n s with
  | Some x => Ascii.eqb x c
  | None => false
  end.

(** [datetime.fromisoformat] on the one layout that reaches it from the
    fingerprint of a whole-day event: [YYYY-MM-DD], one separator
    character, [HH:MM:SS]. Any other text is taken not to parse. *)
Definition fromisoformat (s : string) : option datetime :=
  if negb (String.length s =? 19)%nat then None else
  if negb (char_at s 4 "-" && char_at s 7 "-"
           && char_at s 13 ":" && char_at s 16 ":") then None else
  y ← digits (substring 0 4 s);
  m ← digits (substring 5 2 s);
  d ← digits (substring 8 2 s);
  hh ← digits (substring 11 2 s);
  mm ← digits (substring 14 2 s);
  ss ← digits (substring 17 2 s);
  if (1 <=? y) && (1 <=? m) && (m <=? 12)
     && (1 <=? d) && (d <=? days_in_month y m)
     && (hh <=? 23) && (mm <=? 59) && (ss <=? 59)
  then Some {| year := y; month := m; day := d;
               hour := hh; minute := mm; second := ss |}
  else None.

Definition digit_char (n : Z) : ascii :=
  ascii_of_nat (Z.to_nat (48 + n mod 10)).

(** [%02d] and [%04d] for a number that fits. *)
Definition pad2 (n : Z) : string :=
  String (digit_char (n / 10)) (String (digit_char n) EmptyString).
Definition pad4 (n : Z) : string :=
  String (digit_char (n / 1000)) (String (digit_char (n / 100))
    (String (digit_char (n / 10)) (String (digit_char n) EmptyString))).

(** The [+HH:MM] suffix of [isoformat], with [:SS] when the offset is not
    a whole number of minutes. *)
Definition format_offset (off : Z) : string :=
  let a := Z.abs off in
  (if off <? 0 then "-" else "+")
  ++ pad2 (a / 3600) ++ ":" ++ pad2 (a / 60 mod 60)
  ++ (if a mod 60 =? 0 then "" else ":" ++ pad2 (a mod 60)).

(** The text [YYYY-MM-DD] of a date. *)
Definition iso_date (y m d : Z) : string :=
  pad4 y ++ "-" ++ pad2 m ++ "-" ++ pad2 d.

Definition format_naive (dt : datetime) : string :=
  iso_date (year dt) (month dt) (day dt)
  ++ "T" ++ pad2 (hour dt) ++ ":" ++ pad2 (minute dt) ++ ":"
  ++ pad2 (second dt).

(** [dt.replace(tzinfo=tz).isoformat()] *)
Definition isoformat (dt : datetime) (tz : tzinfo) : string :=
  format_naive dt ++ format_offset (tz dt).

(** [s[-n:]] *)
Definition last_chars (n : nat) (s : string) : string :=
  substring (String.length s - n) n s.

Definition has_timezone_info (s : string) : bool :=
  endswith s "Z" || endswith s "+00:00"
  || contains "+" (last_chars 6 s) || contains "-" (last_chars 6 s).

Section Convert.
(** The zone database of the host. *)
Variable zones : zone_db.
(** The branch for texts that carry an offset (parse, move to UTC, then
    to the target zone); the fingerprint of a whole-day event never
    takes it, see [has_timezone_info_suffix]. *)
Variable convert_aware : string -> tzinfo -> string.

Definition convert_utc_to_timezone
    (utc_iso_string target_timezone_str : string) : string :=
  let target_tz :=
    match zones target_timezone_str with
    | Some z => z
    | None => utc
    end in
  if has_timezone_info utc_iso_string
  then convert_aware utc_iso_string target_tz
  else
    match fromisoformat utc_iso_string with
    | Some naive_dt => isoformat naive_dt target_tz
    | None => utc_iso_string
    end.
End Convert.

(** *** The rules of America/New_York since 2007 *)

(** Day of the week of a date, 0 for Sunday (Sakamoto). *)
Definition weekday (y m d : Z) : Z :=
  let t := nth (Z.to_nat (m - 1)) [0; 3; 2; 5; 0; 3; 5; 1; 4; 6; 2; 4] 0 in
  let y' := if m <? 3 then y - 1 else y in
  (y' + y' / 4 - y' / 100 + y' / 400 + t + d) mod 7.

(** Day of the month of the [n]-th Sunday of a month. *)
Definition nth_sunday (y m n : Z) : Z :=
  1 + (7 - weekday y m 1) mod 7 + 7 * (n - 1).

Definition wall_seconds (dt : datetime) : Z :=
  ((month dt * 32 + day dt) * 24 + hour dt) * 3600
  + minute dt * 60 + second dt.

(** Daylight time runs from 02:00 on the second Sunday of March to 02:00
    on the first Sunday of November; a wall-clock time skipped in March
    keeps the standard offset and one repeated in November the daylight
    one. *)
Definition new_york : tzinfo := fun dt =>
  let y := year dt in
  let from := ((3 * 32 + nth_sunday y 3 2) * 24 + 3) * 3600 in
  let to := ((11 * 32 + nth_sunday y 11 1) * 24 + 2) * 3600 in
  if (from <=? wall_seconds dt) && (wall_seconds dt <? to)
  then -4 * 3600 else -5 * 3600.

Definition iana : zone_db := fun key =>
  if String.eqb key "America/New_York" then Some new_york
  else if String.eqb key "UTC" then Some utc
  else None.

End DateTime.

(** ** Exceptions *)

Inductive exn :=
| KeyError (key : string)
| JSONDecodeError
| AttributeError
| TypeError
| ValueError.

Inductive result (A : Type) :=
| Ok (a : A)
| Raise (e : exn).
Arguments Ok {A} a.
Arguments Raise {A} e.

(** [d[key]] on an optional field *)
Definition subscript {A} (key : string) (o : option A) : result A :=
  match o with
  | Some a => Ok a
  | None => Raise (KeyError key)
  end.

(** ** The fingerprint of an event *)

Module Sig.
Record signature := {
  title : string;
  description : string;
  start_time : option string;
  end_time : option string;
  location : string;
  is_discord_event : bool
}.

#[global] Instance signature_eq_dec : EqDecision signature.
Proof. solve_decision. Defined.
End Sig.

(** The configuration module [var]. *)
Record config := {
  TIMEZONE : string;
  DISCORD_CHANNEL_ID : string;
  EVENT_FILTERS : Filter.filters
}.

Module Fingerprint.
Import PyStr.

Section WithZones.
Variable zones : DateTime.zone_db.
Variable convert_aware : string -> DateTime.tzinfo -> string.
Variable var : config.

Definition convert (s : string) : string :=
  DateTime.convert_utc_to_timezone zones convert_aware s (TIMEZONE var).

(** [t.get('dateTime', t.get('date'))] *)
Definition time_of (t : event_time) : option string :=
  match dateTime t with
  | Some x => Some x
  | None => date t
  end.

(** The start and end times of an event with whole-day events
    normalised; the same lines open [get_event_signature] and the
    payload construction of [create_or_update_discord_event]. *)
Definition event_times (e : event)
    : result (option string * option string) :=
  match subscript "start" (start e) with
  | Raise x => Raise x
  | Ok st =>
      match subscript "end" (end_ e) with
      | Raise x => Raise x
      | Ok en =>
          match date st with
          | Some d =>
              let start_time := default d (dateTime st) in
              Ok (Some (convert (start_time ++ "T00:00:00")),
                  Some (convert (start_time ++ "T23:59:59")))
          | None => Ok (time_of st, time_of en)
          end
      end
  end.

Definition is_discord (e : event) : bool :=
  contains "discord" (lower (get_str (location e))).

Definition get_event_signature (e : event) : result Sig.signature :=
  match event_times e with
  | Raise x => Raise x
  | Ok (start_time, end_time) =>
      Ok {| Sig.title := get_str (summary e);
            Sig.description :=
              Html.parse_html_links (get_str (description e));
            Sig.start_time := start_time;
            Sig.end_time := end_time;
            Sig.location := get_str (location e);
            Sig.is_discord_event := is_discord e |}
  end.

(** A stored signature is [None] when the link has none (the empty dict
    of the source, which is falsy); a stored one has all six keys, so the
    loop over the keys is the comparison of the two records. *)
Definition events_are_different (current_event : event)
    (stored_signature : option Sig.signature) : result bool :=
  match stored_signature with
  | None => Ok true
  | Some stored =>
      match get_event_signature current_event with
      | Raise x => Raise x
      | Ok current_signature =>
          Ok (negb (bool_decide (current_signature = stored)))
      end
  end.
End WithZones.
End Fingerprint.

(** ** The mapping store *)

Module Link.
(** One entry of [synced_events["events"]]. The cached fields are [None]
    when the key is absent (entries written by older versions). *)
Record synced_event := {
  google_event_id : string;
  discord_event_id : string;
  date : option string;
  title : option string;
  channel : option string;
  notes : option string;
  signature : option Sig.signature
}.

#[global] Instance synced_event_eq_dec : EqDecision synced_event.
Proof. solve_decision. Defined.
End Link.

Abbreviation store := (list Link.synced_event).

(** ** The target platform seen from the client *)

Inductive http_method := GET | POST | PATCH | DELETE.

#[global] Instance http_method_eq_dec : EqDecision http_method.
Proof. solve_decision. Defined.

(** The JSON sent with a create or an update. *)
Record payload := {
  name : string;
  payload_description : string;
  scheduled_start_time : option string;
  scheduled_end_time : option string;
  privacy_level : Z;
  entity_type : Z;
  channel_id : option string;
  entity_metadata : option string
}.

(** A request: the method, the event id at the end of the URL if any, and
    the JSON sent. *)
Record request := {
  method : http_method;
  url_event_id : option string;
  json : option payload
}.

(** What [response.json()] gives: an exception when the body is not JSON, an
    object (of which the code reads [retry_after] and [id]), or the list of
    scheduled events (of which the code reads each [id]). *)
Inductive body :=
| NotJson
| JsonObject (retry_after : option Q) (id : option string)
| JsonList (events : list (option string)).

Record response := {
  status_code : Z;
  content : body
}.

(** The four actions of a cycle. *)
Inductive action :=
| Create (e : event)
| Recreate (e : event)
| Update (e : event) (target : string)
| Delete (target source : string).

(** What a cycle does, in order: requests, sleeps and saves, and three
    marks. [Planned] marks the branch a cycle takes for an event or a link,
    [Unchanged] the branch that skips an event, [Outcome] whether the action
    went through: for a create or an update the test [if discord_event_id:]
    of the caller, for a delete the line that [delete_discord_event] logs. *)
Inductive item :=
| Sent (r : request)
| Slept (seconds : Q)
| Saved (doc : store)
| Planned (a : action)
| Unchanged (e : event)
| Outcome (ok : bool)
| Failed (e : exn).

(** The global [synced_events], the number of requests made so far and the
    history. *)
Record state := {
  synced_events : store;
  calls : nat;
  trace : list item
}.

(** A computation on the state that may raise; the state reached at the
    time of the exception is kept, as for a mutated global. *)
Definition M (A : Type) : Type := state -> result A * state.

#[global] Instance M_ret : MRet M := fun A a st => (Ok a, st).
#[global] Instance M_bind : MBind M := fun A B f m st =>
  match m st with
  | (Ok a, st') => f a st'
  | (Raise e, st') => (Raise e, st')
  end.

Definition raise {A} (e : exn) : M A := fun st => (Raise e, st).

Definition lift {A} (r : result A) : M A := fun st => (r, st).

Definition tell (i : item) : M unit := fun st =>
  (Ok tt, {| synced_events := synced_events st; calls := calls st;
             trace := trace st ++ [i] |}).

Definition get_store : M store := fun st => (Ok (synced_events st), st).

Definition put_store (s : store) : M unit := fun st =>
  (Ok tt, {| synced_events := s; calls := calls st; trace := trace st |}).

(** [save_synced_events(synced_events)] *)
Definition save_synced_events : M unit :=
  s ← get_store; tell (Saved s).

(** [time.sleep]: a negative length raises. *)
Definition sleep (seconds : Q) : M unit :=
  if Qle_bool 0 seconds then tell (Slept seconds) else raise ValueError.

(** [for x in l: f(x)] *)
Fixpoint for_each {A} (l : list A) (f : A -> M unit) : M unit :=
  match l with
  | [] => mret tt
  | x :: l' => _ ← f x; for_each l' f
  end.

(** [if x:] on a value that is a string or [None] *)
Definition truthy (o : option string) : bool :=
  match o with
  | Some s => Html.nonempty s
  | None => false
  end.

(** The marks of a history, and its requests and sleeps. *)
Definition planned (t : list item) : list action :=
  omap (fun i => match i with Planned a => Some a | _ => None end) t.

Definition outcomes (t : list item) : list bool :=
  omap (fun i => match i with Outcome b => Some b | _ => None end) t.

Definition unchanged (t : list item) : list event :=
  omap (fun i => match i with Unchanged e => Some e | _ => None end) t.

Definition requests (t : list item) : list request :=
  omap (fun i => match i with Sent r => Some r | _ => None end) t.

Definition sleeps (t : list item) : list Q :=
  omap (fun i => match i with Slept d => Some d | _ => None end) t.

(** The number of requests made with a method. *)
Definition attempts (m : http_method) (t : list item) : nat :=
  length (filter (fun r => method r = m) (requests t)).

(** ** The action executor and the cycle *)

Module Sync.
Import PyStr.

Definition max_retries : nat := 3.

Section WithWorld.
Variable zones : DateTime.zone_db.
Variable convert_aware : string -> DateTime.tzinfo -> string.
Variable var : config.
(** The answers of the target platform, in the order of the requests. *)
Variable net : nat -> response.

Definition send (r : request) : M response := fun st =>
  (Ok (net (calls st)),
   {| synced_events := synced_events st; calls := S (calls st);
      trace := trace st ++ [Sent r] |}).

(** The retry loop shared by [create_or_update_discord_event] and
    [delete_discord_event] (the two copies differ in the text they log);
    [remaining] is [max_retries - retry_count]. *)
Fixpoint retry (r : request) (remaining : nat) (resp : response)
    : M response :=
  match remaining with
  | O => mret resp
  | S n =>
      if (status_code resp =? 429)%Z then
        match content resp with
        | JsonObject hint _ =>
            _ ← sleep (default (5 # 1) hint + (1 # 2));
            resp' ← send r;
            retry r n resp'
        | NotJson =>
            _ ← sleep (5 # 1);
            resp' ← send r;
            retry r n resp'
        | JsonList _ => raise AttributeError
        end
      else mret resp
  end.

Definition build_payload (e : event) : result payload :=
  match Fingerprint.event_times zones convert_aware var e with
  | Raise x => Raise x
  | Ok (start_time, end_time) =>
      let is_discord_event := Fingerprint.is_discord e in
      match subscript "summary" (summary e) with
      | Raise x => Raise x
      | Ok title =>
          Ok {| name := title;
                payload_description :=
                  Html.parse_html_links (get_str (description e));
                scheduled_start_time := start_time;
                scheduled_end_time := end_time;
                privacy_level := 2;
                entity_type := if is_discord_event then 2 else 3;
                channel_id :=
                  if is_discord_event
                  then Some (DISCORD_CHANNEL_ID var) else None;
                entity_metadata :=
                  if is_discord_event then None
                  else Some (default "External Event" (location e)) |}
      end
  end.

Definition create_or_update_discord_event (e : event)
    (discord_event_id : option string) : M (option string) :=
  data ← lift (build_payload e);
  let r := {| method := match discord_event_id with
                        | None => POST
                        | Some _ => PATCH
                        end;
              url_event_id := discord_event_id;
              json := Some data |} in
  resp ← send r;
  resp ← retry r max_retries resp;
  _ ← sleep (2 # 1);
  if (status_code resp =? 200)%Z || (status_code resp =? 201)%Z then
    match content resp with
    | JsonObject _ id => mret id
    | NotJson => raise JSONDecodeError
    | JsonList _ => raise AttributeError
    end
  else mret None.

Definition delete_discord_event (event_id : string) : M unit :=
  let r := {| method := DELETE; url_event_id := Some event_id;
              json := None |} in
  resp ← send r;
  resp ← retry r max_retries resp;
  _ ← sleep (2 # 1);
  tell (Outcome (status_code resp =? 204)%Z).

(** The decoded list of scheduled events, each given by its [id] if it has
    one; the empty list when the status is not 200. *)
Definition get_discord_events : M (list (option string)) :=
  resp ← send {| method := GET; url_event_id := None; json := None |};
  if (status_code resp =? 200)%Z then
    match content resp with
    | JsonList l => mret l
    | NotJson => raise JSONDecodeError
    | JsonObject _ _ => raise TypeError
    end
  else mret [].

(** [{event['id'] for event in l}] *)
Fixpoint id_set (l : list (option string)) : result (gset string) :=
  match l with
  | [] => Ok ∅
  | o :: l' =>
      match subscript "id" o with
      | Raise x => Raise x
      | Ok i =>
          match id_set l' with
          | Raise x => Raise x
          | Ok s => Ok ({[ i ]} ∪ s)
          end
      end
  end.

(** [synced_event.update(event_data)]: the five keys of [event_data]
    are overwritten, the two ids are kept. *)
Definition update (l : Link.synced_event) (e : event)
    (sig : Sig.signature) (t : string) : Link.synced_event :=
  {| Link.google_event_id := Link.google_event_id l;
     Link.discord_event_id := Link.discord_event_id l;
     Link.date := from_option Fingerprint.time_of None (start e);
     Link.title := Some t;
     Link.channel := Some (DISCORD_CHANNEL_ID var);
     Link.notes := Some (get_str (description e));
     Link.signature := Some sig |}.

(** [synced_event["discord_event_id"] = discord_event_id] *)
Definition set_discord_event_id (l : Link.synced_event) (did : string)
    : Link.synced_event :=
  {| Link.google_event_id := Link.google_event_id l;
     Link.discord_event_id := did;
     Link.date := Link.date l;
     Link.title := Link.title l;
     Link.channel := Link.channel l;
     Link.notes := Link.notes l;
     Link.signature := Link.signature l |}.

(** The entry appended for a new event: the two ids and [event_data]. *)
Definition new_link (gid did : string) (e : event)
    (sig : Sig.signature) (t : string) : Link.synced_event :=
  update {| Link.google_event_id := gid; Link.discord_event_id := did;
            Link.date := None; Link.title := None; Link.channel := None;
            Link.notes := None; Link.signature := None |} e sig t.

(** The first entry of the store for a source id, with its position. *)
Definition find_link (gid : string) (s : store)
    : option (nat * Link.synced_event) :=
  list_find (fun l => Link.google_event_id l = gid) s.

(** The body of the loop over the filtered events. *)
Definition process_event (discord_event_ids : gset string) (e : event)
    : M unit :=
  gid ← lift (subscript "id" (event_id e));
  current_signature ←
    lift (Fingerprint.get_event_signature zones convert_aware var e);
  t ← lift (subscript "summary" (summary e));
  s ← get_store;
  match find_link gid s with
  | Some (i, synced_event) =>
      let discord_event_id := Link.discord_event_id synced_event in
      let stored_signature := Link.signature synced_event in
      if negb (bool_decide (discord_event_id ∈ discord_event_ids)) then
        _ ← tell (Planned (Recreate e));
        new_id ← create_or_update_discord_event e None;
        _ ← tell (Outcome (truthy new_id));
        _ ← (if truthy new_id then
               _ ← put_store
                 (<[i := update
                          (set_discord_event_id synced_event
                             (default "" new_id))
                          e current_signature t]> s);
               save_synced_events
             else mret tt);
        sleep (3 # 1)
      else
        changed ← lift (Fingerprint.events_are_different zones
                          convert_aware var e stored_signature);
        if (changed : bool) then
          _ ← tell (Planned (Update e discord_event_id));
          new_id ←
            create_or_update_discord_event e (Some discord_event_id);
          _ ← tell (Outcome (truthy new_id));
          _ ← (if truthy new_id then
                 _ ← put_store
                   (<[i := update synced_event e current_signature t]> s);
                 save_synced_events
               else mret tt);
          sleep (3 # 1)
        else tell (Unchanged e)
  | None =>
      _ ← tell (Planned (Create e));
      new_id ← create_or_update_discord_event e None;
      _ ← tell (Outcome (truthy new_id));
      if truthy new_id then
        _ ← put_store
          (s ++ [new_link gid (default "" new_id) e current_signature t]);
        save_synced_events
      else mret tt
  end.

(** [l.remove(x)]: drops the first element equal to [x]; raises when
    there is none. *)
Fixpoint remove_first (x : Link.synced_event) (l : store)
    : option store :=
  match l with
  | [] => None
  | y :: l' =>
      if bool_decide (y = x) then Some l'
      else l'' ← remove_first x l'; Some (y :: l'')
  end.

(** The body of the loop over a copy of the store. *)
Definition retire_link (google_event_ids : gset string)
    (synced_event : Link.synced_event) : M unit :=
  if negb (bool_decide
             (Link.google_event_id synced_event ∈ google_event_ids))
  then
    _ ← tell (Planned (Delete (Link.discord_event_id synced_event)
                         (Link.google_event_id synced_event)));
    _ ← delete_discord_event (Link.discord_event_id synced_event);
    s ← get_store;
    match remove_first synced_event s with
    | None => raise ValueError
    | Some s' =>
        _ ← put_store s';
        _ ← save_synced_events;
        sleep (3 # 1)
    end
  else mret tt.

Definition filtered (events : list event) : list event :=
  filter (fun e => Filter.should_sync_event (EVENT_FILTERS var) e = true)
    events.

(** The [try] block of [sync_events_loop], given the events fetched
    from the calendar. *)
Definition sync_events_body (events : list event) : M unit :=
  discord_events ← get_discord_events;
  let filtered_events := filtered events in
  discord_event_ids ← lift (id_set discord_events);
  _ ← for_each filtered_events (process_event discord_event_ids);
  google_event_ids ← lift (id_set (event_id <$> filtered_events));
  s ← get_store;
  for_each s (retire_link google_event_ids).

(** One cycle: an exception ends it and is logged. *)
Definition sync_events_loop (events : list event) (st : state) : state :=
  match sync_events_body events st with
  | (Ok _, st') => st'
  | (Raise x, st') => snd (tell (Failed x) st')
  end.
End WithWorld.
End Sync.

(** ** The persisted mapping document *)

Module Json.

(** A decoded document. Numbers and strings keep the text they were
    written with (escapes are checked, not replaced); an object keeps its
    members in the order of the text. *)
#[warnings="-register-all"]
Inductive value :=
| Null
| Bool (b : bool)
| Number (text : string)
| Str (text : string)
| Array (items : list value)
| Object (members : list (string * value)).

Inductive token :=
| TLBrace | TRBrace | TLBracket | TRBracket | TColon | TComma
| TStr (text : string)
| TAtom (text : string).

Definition code (c : ascii) : nat := nat_of_ascii c.

Definition is_ws (c : ascii) : bool :=
  let n := code c in
  (n =? 32)%nat || (n =? 9)%nat || (n =? 10)%nat || (n =? 13)%nat.

Definition is_digit (c : ascii) : bool :=
  ((48 <=? code c) && (code c <=? 57))%nat.

Definition is_hex (c : ascii) : bool :=
  is_digit c
  || ((65 <=? code c) && (code c <=? 70))%nat
  || ((97 <=? code c) && (code c <=? 102))%nat.

Definition is_letter (c : ascii) : bool :=
  ((65 <=? code c) && (code c <=? 90))%nat
  || ((97 <=? code c) && (code c <=? 122))%nat.

(** Characters of numbers and of the literal names. *)
Definition is_atom_char (c : ascii) : bool :=
  is_digit c || is_letter c
  || Ascii.eqb c "+" || Ascii.eqb c "-" || Ascii.eqb c ".".

(** The characters that may follow a backslash, [u] apart. *)
Definition is_escape (c : ascii) : bool :=
  Ascii.eqb c Html.dquote || Ascii.eqb c "\" || Ascii.eqb c "/"
  || Ascii.eqb c "b" || Ascii.eqb c "f" || Ascii.eqb c "n"
  || Ascii.eqb c "r" || Ascii.eqb c "t".

(** Where the scanner is: between tokens, inside a number or a name,
    inside a string, after a backslash, or inside the four hexadecimal
    digits of a [\u] escape. *)
Inductive mode :=
| Idle
| InAtom (acc : string)
| InStr (acc : string)
| InEsc (acc : string)
| InHex (acc : string) (left : nat).

Definition snoc (s : string) (c : ascii) : string :=
  s ++ String c EmptyString.

Definition punct (c : ascii) : option token :=
  if Ascii.eqb c "{" then Some TLBrace
  else if Ascii.eqb c "}" then Some TRBrace
  else if Ascii.eqb c "[" then Some TLBracket
  else if Ascii.eqb c "]" then Some TRBracket
  else if Ascii.eqb c ":" then Some TColon
  else if Ascii.eqb c "," then Some TComma
  else None.

(** One character read between tokens. *)
Definition idle_step (c : ascii) : option (mode * list token) :=
  if is_ws c then Some (Idle, [])
  else if Ascii.eqb c Html.dquote then Some (InStr EmptyString, [])
  else if is_atom_char c then Some (InAtom (String c EmptyString), [])
  else match punct c with
       | Some t => Some (Idle, [t])
       | None => None
       end.

(** The tokens of a text; [None] when a character cannot start a token,
    a string is not closed or holds a control character or a bad escape. *)
Fixpoint scan (m : mode) (s : string) : option (list token) :=
  match s with
  | EmptyString =>
      match m with
      | Idle => Some []
      | InAtom acc => Some [TAtom acc]
      | _ => None
      end
  | String c t =>
      match m with
      | Idle =>
          '(m', out) ← idle_step c; ts ← scan m' t; Some (out ++ ts)%list
      | InAtom acc =>
          if is_atom_char c then scan (InAtom (snoc acc c)) t
          else '(m', out) ← idle_step c; ts ← scan m' t;
               Some (TAtom acc :: out ++ ts)%list
      | InStr acc =>
          if Ascii.eqb c Html.dquote then ts ← scan Idle t; Some (TStr acc :: ts)
          else if Ascii.eqb c "\" then scan (InEsc (snoc acc c)) t
          else if (code c <? 32)%nat then None
          else scan (InStr (snoc acc c)) t
      | InEsc acc =>
          if is_escape c then scan (InStr (snoc acc c)) t
          else if Ascii.eqb c "u" then scan (InHex (snoc acc c) 4) t
          else None
      | InHex acc n =>
          if is_hex c then
            match n with
            | 0%nat | 1%nat => scan (InStr (snoc acc c)) t
            | S n' => scan (InHex (snoc acc c) n') t
            end
          else None
      end
  end.

(** *** Numbers: an optional minus sign; a zero, or a digit from 1 to 9
    and digits; optionally a point and digits; optionally [e] or [E], a
    sign and digits. *)

Fixpoint all_digits (s : string) : bool :=
  match s with
  | EmptyString => true
  | String c t => is_digit c && all_digits t
  end.

Definition digits1 (s : string) : bool :=
  Html.nonempty s && all_digits s.

Definition is_exponent (s : string) : bool :=
  match s with
  | EmptyString => true
  | String e t =>
      (Ascii.eqb e "e" || Ascii.eqb e "E")
      && match t with
         | String sg t' =>
             if Ascii.eqb sg "+" || Ascii.eqb sg "-" then digits1 t'
             else digits1 t
         | EmptyString => false
         end
  end.

Definition is_fraction_exponent (s : string) : bool :=
  match s with
  | String "." t =>
      let '(ds, rest) := Html.span is_digit t in
      Html.nonempty ds && is_exponent rest
  | _ => is_exponent s
  end.

Definition is_number (s : string) : bool :=
  let s' := match s with String "-" t => t | _ => s end in
  match s' with
  | String "0" t => is_fraction_exponent t
  | String c t =>
      is_digit c
      && let '(_, rest) := Html.span is_digit t in is_fraction_exponent rest
  | EmptyString => false
  end.

Definition atom (s : string) : option value :=
  if String.eqb s "null" then Some Null
  else if String.eqb s "true" then Some (Bool true)
  else if String.eqb s "false" then Some (Bool false)
  else if String.eqb s "NaN" || String.eqb s "Infinity"
          || String.eqb s "-Infinity" then Some (Number s)
  else if is_number s then Some (Number s)
  else None.

(** *** The grammar, over the tokens *)

(** An array or an object under construction. *)
Inductive frame :=
| FArray (items : list value)
| FObject (members : list (string * value)) (key : string).

(** What may come next. *)
Inductive expect :=
| EValue              (* a value *)
| EValueOrClose       (* just after an opening bracket *)
| EKeyOrClose (members : list (string * value))  (* after an opening brace *)
| EKey (members : list (string * value))         (* after a comma *)
| EColon (members : list (string * value)) (key : string)
| ENext               (* a comma or the closing of the frame on top *)
| EEnd (v : value).   (* the document is complete *)

(** A complete value [v] goes into the frame on top of the stack. *)
Definition put (v : value) (stack : list frame) : list frame * expect :=
  match stack with
  | [] => ([], EEnd v)
  | FArray items :: st => (FArray (items ++ [v]) :: st, ENext)
  | FObject ms k :: st => (FObject (ms ++ [(k, v)]) k :: st, ENext)
  end.

Definition open_or_atom (t : token) (stack : list frame)
    : option (list frame * expect) :=
  match t with
  | TLBracket => Some (FArray [] :: stack, EValueOrClose)
  | TLBrace => Some (stack, EKeyOrClose [])
  | TStr s => Some (put (Str s) stack)
  | TAtom a => v ← atom a; Some (put v stack)
  | _ => None
  end.

Definition step (st : list frame * expect) (t : token)
    : option (list frame * expect) :=
  let '(stack, e) := st in
  match e with
  | EValue => open_or_atom t stack
  | EValueOrClose =>
      match t, stack with
      | TRBracket, FArray items :: st' => Some (put (Array items) st')
      | _, _ => open_or_atom t stack
      end
  | EKeyOrClose ms =>
      match t with
      | TRBrace => Some (put (Object ms) stack)
      | TStr k => Some (stack, EColon ms k)
      | _ => None
      end
  | EKey ms =>
      match t with
      | TStr k => Some (stack, EColon ms k)
      | _ => None
      end
  | EColon ms k =>
      match t with
      | TColon => Some (FObject ms k :: stack, EValue)
      | _ => None
      end
  | ENext =>
      match t, stack with
      | TComma, FArray _ :: _ => Some (stack, EValue)
      | TRBracket, FArray items :: st' => Some (put (Array items) st')
      | TComma, FObject ms _ :: st' => Some (st', EKey ms)
      | TRBrace, FObject ms _ :: st' => Some (put (Object ms) st')
      | _, _ => None
      end
  | EEnd _ => None
  end.

Fixpoint parse (st : list frame * expect) (ts : list token)
    : option value :=
  match ts with
  | [] => match st with
          | ([], EEnd v) => Some v
          | _ => None
          end
  | t :: ts' => st' ← step st t; parse st' ts'
  end.

(** [json.loads]: [None] stands for [JSONDecodeError]. *)
Definition loads (s : string) : option value :=
  ts ← scan Idle s; parse ([], EValue) ts.

End Json.

Module Storage.

(** The text of the file [synced_events.json]: [None] when the file does
    not exist. *)
Definition file := option string.

(** The dictionary with an empty list of events. *)
Definition empty_state : Json.value :=
  Json.Object [("events", Json.Array [])].

Definition load_synced_events (f : file) : result Json.value :=
  match f with
  | Some text =>
      match Json.loads text with
      | Some v => Ok v
      | None => Raise JSONDecodeError
      end
  | None => Ok empty_state
  end.

End Storage.

(** ** How a cycle may change the store *)

Module StoreSpec.

(** The only changes the loop over the events makes for a source id: the
    first entry for the id is replaced by one for the same id, or an entry
    is appended when there is none for the id. *)
Inductive store_step (gid : string) (s : store) : store -> Prop :=
| step_update i l l' :
    Sync.find_link gid s = Some (i, l) →
    Link.google_event_id l' = gid →
    store_step gid s (<[i := l']> s)
| step_append l' :
    Sync.find_link gid s = None →
    Link.google_event_id l' = gid →
    store_step gid s (s ++ [l']).

(** At most one entry per source id. *)
Definition one_link_per_source (s : store) : Prop :=
  NoDup (Link.google_event_id <$> s).

(** The action the loop takes for an event with source id [gid] and
    fingerprint [sig], when it takes one. *)
Definition branch (ids : gset string) (e : event) (gid : string)
    (sig : Sig.signature) (s : store) (a : action) : Prop :=
  match Sync.find_link gid s with
  | None => a = Create e
  | Some (i, l) =>
      if bool_decide (Link.discord_event_id l ∈ ids)
      then a = Update e (Link.discord_event_id l)
           ∧ Link.signature l ≠ Some sig
      else a = Recreate e
  end.

(** The store after an action for [gid] went through: the entry for
    [gid] now carries the fingerprint [sig]. *)
Definition written (gid : string) (sig : Sig.signature) (s s' : store)
    : Prop :=
  ∃ l', Link.google_event_id l' = gid ∧ Link.signature l' = Some sig
        ∧ s' = match Sync.find_link gid s with
               | Some (i, _) => <[i := l']> s
               | None => (s ++ [l'])%list
               end.

(** A piece of history with no mark in it. *)
Definition silent (new : list item) : Prop :=
  planned new = [] ∧ outcomes new = [] ∧ unchanged new = [].

(** From [st] to [st'] the store is kept and the history grows by
    [new]. *)
Definition steps (st st' : state) (new : list item) : Prop :=
  synced_events st' = synced_events st
  ∧ trace st' = (trace st ++ new)%list.

(** The first entry of the store for the source id of [e] carries the
    fingerprint that [e] has now: nothing is to be sent for [e]. *)
Definition settled (zones : DateTime.zone_db)
    (convert_aware : string -> DateTime.tzinfo -> string) (var : config)
    (s : store) (e : event) : Prop :=
  ∃ gid sig t l,
    event_id e = Some gid
    ∧ Fingerprint.get_event_signature zones convert_aware var e = Ok sig
    ∧ summary e = Some t
    ∧ snd <$> Sync.find_link gid s = Some l
    ∧ Link.signature l = Some sig.

(** The listing that the platform gives at the next request shows the
    target id of every entry of the store. *)
Definition listing_shows (net : nat -> response) (st : state) : Prop :=
  ∃ listed ids,
    net (calls st) = {| status_code := 200; content := JsonList listed |}
    ∧ Sync.id_set listed = Ok ids
    ∧ ∀ l, l ∈ synced_events st → Link.discord_event_id l ∈ ids.

(** The time the retry loop sleeps after a rate-limited answer: the hint
    of the platform (five seconds when the answer has none) plus half a
    second, or five seconds when the answer is not JSON. *)
Definition backoff (resp : response) : option Q :=
  match content resp with
  | JsonObject hint _ => Some (default (5 # 1) hint + (1 # 2))%Q
  | NotJson => Some (5 # 1)
  | JsonList _ => None
  end.

(** The history of [st'] continues that of [st]. *)
Definition extends (st st' : state) : Prop :=
  ∃ new, trace st' = (trace st ++ new)%list.

(** A computation that keeps the store and sets no mark. *)
Definition quietly {A} (m : M A) : Prop :=
  ∀ st, ∃ new, steps st (m st).2 new ∧ silent new.

End StoreSpec.

(** ** The keys of the filter configuration *)

Module FilterKeys.
Import PyStr Filter.

(** The keys that [should_sync_event] reads before it can return [True]. *)
Definition inclusion_keys : list string :=
  ["title_contains"; "title_starts_with"; "title_ends_with";
   "description_contains"; "location_contains";
   "creator_email"; "attendee_email"].

(** The keys whose keywords are searched in, or at one end of, a text. *)
Definition text_keys : list string :=
  ["title_contains"; "title_starts_with"; "title_ends_with";
   "description_contains"; "location_contains"].

(** An event with its title, description, location and addresses in lower
    case, and a configuration with its keywords in lower case. *)
Definition lower_person (p : person) : person :=
  {| email := lower <$> email p |}.

Definition lower_event (e : event) : event :=
  {| event_id := event_id e;
     summary := lower <$> summary e;
     description := lower <$> description e;
     location := lower <$> location e;
     start := start e; end_ := end_ e;
     creator := lower_person <$> creator e;
     attendees := map lower_person <$> attendees e |}.

Definition lower_filters (fs : filters) : filters :=
  (fun f : gmap string (list string) => map lower <$> f) <$> fs.

End FilterKeys.

(** ** Histories of the executor and of the cycle *)

Module CycleSpec.

(** What the retry loop adds to the history after the first request: each
    wait is followed by the same request. *)
Definition retries (r : request) (ws : list Q) : list item :=
  ws ≫= (fun w => [Slept w; Sent r]).

(** The request of a create (no target id) or of an update. *)
Definition upsert (d : option string) (data : payload) : request :=
  {| method := match d with None => POST | Some _ => PATCH end;
     url_event_id := d; json := Some data |}.

(** An answer 429 whose wait is [w]. *)
Definition rate_limits (resp : response) (w : Q) : Prop :=
  status_code resp = 429%Z ∧ StoreSpec.backoff resp = Some w
  ∧ Qle_bool 0 w = true.

(** The document in the file after a history, [s0] being the one before:
    the last one saved. *)
Definition on_disk (s0 : store) (t : list item) : store :=
  fold_left (fun d i => match i with Saved s => s | _ => d end) t s0.

(** The file holds the store of the state. *)
Definition in_step (s0 : store) (st : state) : Prop :=
  on_disk s0 (trace st) = synced_events st.

(** A computation that leaves the file in step with the store when it
    finds it so. *)
Definition keeps {A} (s0 : store) (m : M A) : Prop :=
  ∀ st, in_step s0 st → in_step s0 (m st).2.

(** The deletions planned in a history, each with the source id of its
    link. *)
Definition deleted_sources (t : list item) : list string :=
  omap (fun a => match a with
                 | Delete _ source => Some source
                 | _ => None
                 end) (planned t).

End CycleSpec.

(** ** Fetching the events of the calendar *)

Module Calendar.

(** The part of [var] read by [get_upcoming_events]. [DAYS_IN_FUTURE]
    enters through the end of the window, see [get_upcoming_events]. *)
Record source := {
  GOOGLE_CALENDAR_ID : string;
  GOOGLE_FREETEXT_QUERY_STRING : string
}.

(** The keyword arguments of [service.events().list]; [pageToken] is
    [None] when the key is not set. *)
Record request_params := {
  calendarId : string;
  timeMin : string;
  timeMax : string;
  q : string;
  maxResults : Z;
  singleEvents : bool;
  orderBy : string;
  pageToken : option string
}.

(** What [execute()] returns: [items] and [nextPageToken], each [None]
    when the answer has no such key. *)
Record page := {
  items : option (list event);
  nextPageToken : option string
}.

(** How a call ends: with a value, with an exception of the client
    library, or not within the turns allowed. *)
Inductive run (A : Type) :=
| Returned (a : A)
| Raised
| Unfinished.
Arguments Returned {A} a.
Arguments Raised {A}.
Arguments Unfinished {A}.

(** [strftime('%Y-%m-%dT%H:%M:%S') + 'Z'] *)
Definition stamp (dt : DateTime.datetime) : string :=
  DateTime.format_naive dt ++ "Z".

Section WithService.
Variable var : source.
(** The answers of the calendar, in the order of the requests; [None]
    when [execute()] raises. *)
Variable service : nat -> option page.

(** The [while True] loop; [asked] holds the requests made so far and
    [turns] bounds the number of pages fetched. *)
Fixpoint fetch_pages (turns : nat) (time_min time_max : string)
    (all_events : list event) (page_token : option string)
    (asked : list request_params)
    : run (list event) * list request_params :=
  match turns with
  | O => (Unfinished, asked)
  | S n =>
      let request_params :=
        {| calendarId := GOOGLE_CALENDAR_ID var;
           timeMin := time_min; timeMax := time_max;
           q := GOOGLE_FREETEXT_QUERY_STRING var;
           maxResults := 250; singleEvents := true;
           orderBy := "startTime";
           pageToken := if truthy page_token then page_token else None |} in
      match service (length asked) with
      | None => (Raised, (asked ++ [request_params])%list)
      | Some events_result =>
          let page_events := default [] (items events_result) in
          let all_events := (all_events ++ page_events)%list in
          let page_token := nextPageToken events_result in
          if truthy page_token
          then fetch_pages n time_min time_max all_events page_token
                 (asked ++ [request_params])%list
          else (Returned all_events, (asked ++ [request_params])%list)
      end
  end.

(** [now] is the reading of [utcnow()] and [horizon] is
    [now + timedelta(days=var.DAYS_IN_FUTURE)]. *)
Definition get_upcoming_events (turns : nat)
    (now horizon : DateTime.datetime) (asked : list request_params)
    : run (list event) * list request_params :=
  fetch_pages turns (stamp now) (stamp horizon) [] None asked.

End WithService.

(** The request for the page after the one that carried [token]. *)
Definition page_request (var : source) (now horizon : DateTime.datetime)
    (token : option string) : request_params :=
  {| calendarId := GOOGLE_CALENDAR_ID var;
     timeMin := stamp now; timeMax := stamp horizon;
     q := GOOGLE_FREETEXT_QUERY_STRING var;
     maxResults := 250; singleEvents := true; orderBy := "startTime";
     pageToken := token |}.

(** The events of a run of pages. *)
Definition events_of (ps : list page) : list event :=
  ps ≫= (fun p => default [] (items p)).

End Calendar.

(** ** The event log and its rotation *)

Module Log.
Import DateTime.

(** 200 MB *)
Definition LOG_SIZE_LIMIT : N := 200 * 1024 * 1024.

(** The working directory as the logger sees it: the text of [event.log]
    ([None] when the file does not exist), the compressed archives by file
    name, each with the text of the log it holds, and the number of times
    the clock has been read. *)
Record files := {
  event_log : option string;
  archives : gmap string string;
  readings : nat
}.

(** [strftime('%Y-%m-%d %H:%M:%S')] *)
Definition log_stamp (dt : datetime) : string :=
  iso_date (year dt) (month dt) (day dt) ++ " " ++ pad2 (hour dt) ++ ":"
  ++ pad2 (minute dt) ++ ":" ++ pad2 (second dt).

(** [strftime('%Y%m%d%H%M%S')] *)
Definition file_stamp (dt : datetime) : string :=
  pad4 (year dt) ++ pad2 (month dt) ++ pad2 (day dt) ++ pad2 (hour dt)
  ++ pad2 (minute dt) ++ pad2 (second dt).

Definition newline : string := String "010"%char EmptyString.

(** [os.path.getsize]: the number of bytes. *)
Definition getsize (text : string) : N := N.of_nat (String.length text).

Section WithClock.
(** The readings of [datetime.datetime.now()], in order. *)
Variable clock : nat -> datetime.

(** [check_log_size], given the function it calls once the log is
    compressed and removed. *)
Definition check_log_size (log_event : string -> files -> option files)
    (fs : files) : option files :=
  match event_log fs with
  | Some text =>
      if (LOG_SIZE_LIMIT <? getsize text)%N then
        let timestamp := file_stamp (clock (readings fs)) in
        let tar_filename := timestamp ++ ".tar.gz" in
        log_event
          ("Log file compressed to " ++ tar_filename ++ " and reset.")
          {| event_log := None;
             archives := <[tar_filename := text]> (archives fs);
             readings := S (readings fs) |}
      else Some fs
  | None => Some fs
  end.

(** [log_event]; [turns] bounds the depth of the calls between the two
    functions, [None] standing for a call that has not returned within
    it. *)
Fixpoint log_event (turns : nat) (message : string) (fs : files)
    : option files :=
  match turns with
  | O => None
  | S n =>
      let timestamp := log_stamp (clock (readings fs)) in
      let log_message := timestamp ++ " " ++ message ++ newline in
      check_log_size (log_event n)
        {| event_log := Some (default "" (event_log fs) ++ log_message);
           archives := archives fs;
           readings := S (readings fs) |}
  end.

End WithClock.

(** The line written for a message at a reading of the clock. *)
Definition line (dt : datetime) (message : string) : string :=
  log_stamp dt ++ " " ++ message ++ newline.

(** The name of the archive made at a reading of the clock, and the
    message logged after it. *)
Definition archive_name (dt : datetime) : string :=
  file_stamp dt ++ ".tar.gz".

Definition notice (dt : datetime) : string :=
  "Log file compressed to " ++ archive_name dt ++ " and reset.".

End Log.

(** ** Writing the mapping document and reading it back *)

Module Document.
Import Json.

(** What the program saves and reads back: [None], booleans, numbers,
    strings, lists and dicts with string keys. A number is given by the
    text that [repr] writes for it, a dict by its items in insertion
    order. *)
#[warnings="-register-all"]
Inductive document :=
| DNone
| DBool (b : bool)
| DNumber (repr : string)
| DStr (s : string)
| DList (items : list document)
| DDict (members : list (string * document)).

(** The text of a number: a number or one of the three names that the
    reader takes for one, made of characters that the reader keeps in one
    piece. *)
Definition is_number_text (t : string) : bool :=
  HtmlSpec.all is_atom_char t
  && match atom t with
     | Some (Number t') => String.eqb t' t
     | _ => false
     end.

(** A document that a Python object can be: the keys of every dict are
    distinct and every number has the text of a number. *)
Fixpoint is_object (v : document) : bool :=
  match v with
  | DNumber t => is_number_text t
  | DList l => forallb is_object l
  | DDict ms =>
      bool_decide (NoDup (map fst ms))
      && forallb (fun kv => let '(_, x) := kv in is_object x) ms
  | _ => true
  end.

(** *** [json.dump(obj, f, indent=4, ensure_ascii=False)] *)

Definition hex_digit (n : nat) : ascii :=
  if (n <? 10)%nat then ascii_of_nat (48 + n) else ascii_of_nat (87 + n).

(** The replacement of one character inside a string: the quote, the
    backslash and the control characters are escaped, the others are
    written as they are. *)
Definition escape_char (c : ascii) : string :=
  let n := code c in
  if Ascii.eqb c Html.dquote then String "\" (String Html.dquote "")
  else if Ascii.eqb c "\" then "\\"
  else if (n =? 8)%nat then "\b"
  else if (n =? 12)%nat then "\f"
  else if (n =? 10)%nat then "\n"
  else if (n =? 13)%nat then "\r"
  else if (n =? 9)%nat then "\t"
  else if (n <? 32)%nat then
    "\u00" ++ String (hex_digit (n / 16)) (String (hex_digit (n mod 16)) "")
  else String c "".

Fixpoint escape (s : string) : string :=
  match s with
  | EmptyString => EmptyString
  | String c t => escape_char c ++ escape t
  end.

Definition encode_basestring (s : string) : string :=
  String Html.dquote (escape s ++ String Html.dquote "").

Fixpoint spaces (n : nat) : string :=
  match n with
  | O => EmptyString
  | S n' => String " " (spaces n')
  end.

(** A line feed and the indentation of a nesting level. *)
Definition newline_indent (level : nat) : string :=
  String "010"%char (spaces (4 * level)).

(** The separator between two items at a nesting level. *)
Definition item_separator (level : nat) : string :=
  "," ++ newline_indent level.

Fixpoint join (sep : string) (parts : list string) : string :=
  match parts with
  | [] => EmptyString
  | [p] => p
  | p :: ps => p ++ sep ++ join sep ps
  end.

Fixpoint dumps (level : nat) (v : document) : string :=
  match v with
  | DNone => "null"
  | DBool true => "true"
  | DBool false => "false"
  | DNumber t => t
  | DStr s => encode_basestring s
  | DList [] => "[]"
  | DList l =>
      "[" ++ newline_indent (S level)
      ++ join (item_separator (S level)) (map (dumps (S level)) l)
      ++ newline_indent level ++ "]"
  | DDict [] => "{}"
  | DDict ms =>
      "{" ++ newline_indent (S level)
      ++ join (item_separator (S level))
           (map (fun kv => let '(k, x) := kv in
                           encode_basestring k ++ ": " ++ dumps (S level) x)
              ms)
      ++ newline_indent level ++ "}"
  end.

(** The text that [save_synced_events] writes to the file; in the cycle
    the call is recorded by the item [Saved]. *)
Definition save_synced_events (synced_events : document) : string :=
  dumps 0 synced_events.

(** *** From the decoded text to the object *)

Definition hex_value (c : ascii) : option N :=
  let n := N.of_nat (code c) in
  if is_digit c then Some (n - 48)%N
  else if ((97 <=? n) && (n <=? 102))%N then Some (n - 87)%N
  else if ((65 <=? n) && (n <=? 70))%N then Some (n - 55)%N
  else None.

Definition byte (n : N) : ascii := ascii_of_N n.

(** The bytes of a code point in UTF-8. *)
Definition utf8 (cp : N) : string :=
  (if cp <? 128 then String (byte cp) ""
   else if cp <? 2048 then
     String (byte (192 + cp / 64)) (String (byte (128 + cp mod 64)) "")
   else if cp <? 65536 then
     String (byte (224 + cp / 4096))
       (String (byte (128 + cp / 64 mod 64))
          (String (byte (128 + cp mod 64)) ""))
   else
     String (byte (240 + cp / 262144))
       (String (byte (128 + cp / 4096 mod 64))
          (String (byte (128 + cp / 64 mod 64))
             (String (byte (128 + cp mod 64)) ""))))%N.

Definition is_high_surrogate (cp : N) : bool :=
  ((55296 <=? cp) && (cp <=? 56319))%N.
Definition is_low_surrogate (cp : N) : bool :=
  ((56320 <=? cp) && (cp <=? 57343))%N.

(** The character that a letter after a backslash stands for. *)
Definition simple_escape (c : ascii) : option ascii :=
  if Ascii.eqb c Html.dquote then Some Html.dquote
  else if Ascii.eqb c "\" then Some "\"%char
  else if Ascii.eqb c "/" then Some "/"%char
  else if Ascii.eqb c "b" then Some "008"%char
  else if Ascii.eqb c "f" then Some "012"%char
  else if Ascii.eqb c "n" then Some "010"%char
  else if Ascii.eqb c "r" then Some "013"%char
  else if Ascii.eqb c "t" then Some "009"%char
  else None.

(** Where the replacement of the escapes is: in plain text, after a
    backslash, inside the four digits of an escaped code point (the high
    surrogate read just before, if any), or after a high surrogate, where
    the escape of the low one has to follow. *)
Inductive unescape_mode :=
| UPlain
| UEsc
| UHex (acc : N) (more : nat) (high : option N)
| ULow (high : N)
| ULowEsc (high : N).

(** The text that the inside of a string stands for; [None] when an
    escape is not one of the language or when the text holds a surrogate
    on its own, which no text in UTF-8 has. *)
Fixpoint unescape_from (m : unescape_mode) (s : string) : option string :=
  match s with
  | EmptyString =>
      match m with
      | UPlain => Some EmptyString
      | _ => None
      end
  | String c t =>
      match m with
      | UPlain =>
          if Ascii.eqb c "\" then unescape_from UEsc t
          else String c <$> unescape_from UPlain t
      | UEsc =>
          if Ascii.eqb c "u" then unescape_from (UHex 0 4 None) t
          else d ← simple_escape c; String d <$> unescape_from UPlain t
      | UHex acc more high =>
          h ← hex_value c;
          let cp := (16 * acc + h)%N in
          match more with
          | 0%nat | 1%nat =>
              match high with
              | None =>
                  if is_high_surrogate cp then unescape_from (ULow cp) t
                  else if is_low_surrogate cp then None
                  else String.append (utf8 cp) <$> unescape_from UPlain t
              | Some hi =>
                  if is_low_surrogate cp then
                    String.append
                      (utf8 (65536 + (hi - 55296) * 1024 + (cp - 56320))%N)
                      <$> unescape_from UPlain t
                  else None
              end
          | S more' => unescape_from (UHex cp more' high) t
          end
      | ULow hi =>
          if Ascii.eqb c "\" then unescape_from (ULowEsc hi) t else None
      | ULowEsc hi =>
          if Ascii.eqb c "u" then unescape_from (UHex 0 4 (Some hi)) t
          else None
      end
  end.

Definition unescape (s : string) : option string := unescape_from UPlain s.

(** [dict(pairs)]: a key met again keeps its place and takes the new
    value. *)
Fixpoint set_item {A} (k : string) (x : A) (d : list (string * A))
    : list (string * A) :=
  match d with
  | [] => [(k, x)]
  | (k', y) :: d' =>
      if String.eqb k' k then (k', x) :: d' else (k', y) :: set_item k x d'
  end.

Definition dict_of {A} (pairs : list (string * A)) : list (string * A) :=
  fold_left (fun d kv => set_item kv.1 kv.2 d) pairs [].

(** The object that [json.load] builds from the decoded text. *)
Fixpoint decode (v : value) : option document :=
  match v with
  | Null => Some DNone
  | Bool b => Some (DBool b)
  | Number t => Some (DNumber t)
  | Str t => DStr <$> unescape t
  | Array l =>
      DList <$>
        (fix go (l : list value) : option (list document) :=
           match l with
           | [] => Some []
           | x :: l' => y ← decode x; ys ← go l'; Some (y :: ys)
           end) l
  | Object ms =>
      (fun pairs => DDict (dict_of pairs)) <$>
        (fix go (ms : list (string * value))
           : option (list (string * document)) :=
           match ms with
           | [] => Some []
           | (k, x) :: ms' =>
               k' ← unescape k; y ← decode x; ys ← go ms';
               Some ((k', y) :: ys)
           end) ms
  end.

(** [json.load] on the text of the file. *)
Definition load (text : string) : option document :=
  Json.loads text ≫= decode.

(** *** The text of a document, piece by piece *)

(** The decoded text of a document, strings with their escapes. *)
Fixpoint quoted (v : document) : value :=
  match v with
  | DNone => Null
  | DBool b => Bool b
  | DNumber t => Number t
  | DStr s => Str (escape s)
  | DList l => Array (map quoted l)
  | DDict ms =>
      Object (map (fun kv => let '(k, x) := kv in (escape k, quoted x)) ms)
  end.

(** The tokens of pieces joined by commas. *)
Definition separated (tss : list (list token)) : list token :=
  match tss with
  | [] => []
  | ts :: tss' => (ts ++ concat (map (cons TComma) tss'))%list
  end.

(** The tokens of the text of a document. *)
Fixpoint tokens (v : document) : list token :=
  match v with
  | DNone => [TAtom "null"]
  | DBool true => [TAtom "true"]
  | DBool false => [TAtom "false"]
  | DNumber t => [TAtom t]
  | DStr s => [TStr (escape s)]
  | DList l => TLBracket :: separated (map tokens l) ++ [TRBracket]
  | DDict ms =>
      TLBrace
      :: separated
           (map (fun kv => let '(k, x) := kv in
                           TStr (escape k) :: TColon :: tokens x) ms)
      ++ [TRBrace]
  end%list.

(** What follows a number or a name ends it. *)
Definition ends_atom (rest : string) : Prop :=
  match rest with
  | EmptyString => True
  | String c _ => is_atom_char c = false
  end.

(** A piece of text with the tokens that the scanner makes of it, whatever
    follows. *)
Definition scans (piece : string * list token) : Prop :=
  ∀ rest, ends_atom rest →
    scan Idle (piece.1 ++ rest) = app piece.2 <$> scan Idle rest.

(** The places where the grammar takes a value. *)
Definition starts_value (e : expect) : Prop :=
  e = EValue ∨ e = EValueOrClose.

End Document.


(** ** Inputs used in the examples *)

Module Examples.

Definition team_filters : gmap string (list string) :=
  {[ "title_contains" := ["meeting"];
     "exclude_title_contains" := ["private"] ]}.

Definition bare_event : event :=
  {| event_id := None; summary := None; description := None;
     location := None; start := None; end_ := None;
     creator := None; attendees := None |}.

Definition private_meeting : event :=
  {| event_id := Some "g1"; summary := Some "Private meeting";
     description := None; location := None; start := None; end_ := None;
     creator := None; attendees := None |}.

Definition whole_day (d : string) : event_time :=
  {| dateTime := None; date := Some d |}.

Definition timed (t : string) : event_time :=
  {| dateTime := Some t; date := None |}.

(** A whole-day event as the calendar delivers it: the end date is the
    day after. *)
Definition holiday : event :=
  {| event_id := Some "g2"; summary := Some "Holiday"; description := None;
     location := None; start := Some (whole_day "2026-07-15");
     end_ := Some (whole_day "2026-07-16");
     creator := None; attendees := None |}.

Definition standup : event :=
  {| event_id := Some "g3"; summary := Some "Stand-up";
     description := Some "notes"; location := Some "Discord voice";
     start := Some (timed "2026-07-15T09:00:00-04:00");
     end_ := Some (timed "2026-07-15T09:15:00-04:00");
     creator := None; attendees := None |}.

Definition new_york_config : config :=
  {| TIMEZONE := "America/New_York"; DISCORD_CHANNEL_ID := "c1";
     EVENT_FILTERS := None |}.

(** The branch of [convert_utc_to_timezone] for texts with an offset is
    not exercised by the examples. *)
Definition no_aware : string -> DateTime.tzinfo -> string := fun s _ => s.

Definition fresh : state :=
  {| synced_events := []; calls := 0; trace := [] |}.

(** A link whose source event is no longer delivered. *)
Definition stale_link : Link.synced_event :=
  {| Link.google_event_id := "g9"; Link.discord_event_id := "d9";
     Link.date := Some "2026-07-01T10:00:00Z"; Link.title := Some "Old";
     Link.channel := Some "c1"; Link.notes := Some "";
     Link.signature := None |}.

(** A link for [holiday], written by a version that stored no
    signature. *)
Definition holiday_link : Link.synced_event :=
  {| Link.google_event_id := "g2"; Link.discord_event_id := "d2";
     Link.date := Some "2026-07-15"; Link.title := Some "Holiday";
     Link.channel := Some "c1"; Link.notes := Some "";
     Link.signature := None |}.

Definition with_store (s : store) : state :=
  {| synced_events := s; calls := 0; trace := [] |}.

Definition rate_limited : response :=
  {| status_code := 429; content := JsonObject (Some (1 # 1)) None |}.

(** The platform lists the given ids, then answers every request with
    429 and a hint of one second. *)
Definition throttled (listed : list string) (n : nat) : response :=
  match n with
  | O => {| status_code := 200; content := JsonList (map Some listed) |}
  | _ => rate_limited
  end.

(** The platform refuses the listing, then creates what it is asked. *)
Definition listing_down (n : nat) : response :=
  match n with
  | O => {| status_code := 500; content := NotJson |}
  | _ => {| status_code := 201; content := JsonObject None (Some "d7") |}
  end.

(** The platform lists nothing, creates two events, then lists them. *)
Definition two_creations (n : nat) : response :=
  match n with
  | 0 => {| status_code := 200; content := JsonList [] |}
  | 1 => {| status_code := 201; content := JsonObject None (Some "d7") |}
  | 2 => {| status_code := 201; content := JsonObject None (Some "d8") |}
  | _ => {| status_code := 200;
            content := JsonList [Some "d7"; Some "d8"] |}
  end.

(** One cycle in New York. *)
Definition cycle (net : nat -> response) : list event -> state -> state :=
  Sync.sync_events_loop DateTime.iana no_aware new_york_config net.

(** The platform lists the given ids and accepts every request, giving
    the id [d7] to what it creates. *)
Definition obliging (listed : list string) (n : nat) : response :=
  match n with
  | O => {| status_code := 200; content := JsonList (map Some listed) |}
  | _ => {| status_code := 201; content := JsonObject None (Some "d7") |}
  end.

(** An event entered without a title: the calendar delivers no
    [summary]. *)
Definition untitled : event :=
  {| event_id := Some "g4"; summary := None; description := None;
     location := None; start := Some (timed "2026-07-16T10:00:00Z");
     end_ := Some (timed "2026-07-16T11:00:00Z");
     creator := None; attendees := None |}.

(** What is sent for [holiday] in New York. *)
Definition holiday_payload : payload :=
  {| name := "Holiday"; payload_description := "";
     scheduled_start_time := Some "2026-07-15T00:00:00-04:00";
     scheduled_end_time := Some "2026-07-15T23:59:59-04:00";
     privacy_level := 2; entity_type := 3; channel_id := None;
     entity_metadata := Some "External Event" |}.

(** The platform answers two requests with 429 and the third with
    [final]. *)
Definition recovering (final : response) (n : nat) : response :=
  match n with
  | 0 | 1 => rate_limited
  | _ => final
  end.

Definition created : response :=
  {| status_code := 201; content := JsonObject None (Some "d7") |}.

Definition deleted : response :=
  {| status_code := 204; content := NotJson |}.

(** A link for [holiday] with the fingerprint of an older title. *)
Definition outdated_link : Link.synced_event :=
  {| Link.google_event_id := "g2"; Link.discord_event_id := "d2";
     Link.date := Some "2026-07-15"; Link.title := Some "Bank holiday";
     Link.channel := Some "c1"; Link.notes := Some "";
     Link.signature :=
       Some {| Sig.title := "Bank holiday"; Sig.description := "";
               Sig.start_time := Some "2026-07-15T00:00:00-04:00";
               Sig.end_time := Some "2026-07-15T23:59:59-04:00";
               Sig.location := ""; Sig.is_discord_event := false |} |}.

(** A whole-day event on a day that no calendar has. *)
Definition impossible_day : event :=
  {| event_id := Some "g5"; summary := Some "Never"; description := None;
     location := None; start := Some (whole_day "2026-02-30");
     end_ := Some (whole_day "2026-02-31");
     creator := None; attendees := None |}.

(** The calendar delivers two pages, then an empty last one. *)
Definition team_calendar : Calendar.source :=
  {| Calendar.GOOGLE_CALENDAR_ID := "team@example.org";
     Calendar.GOOGLE_FREETEXT_QUERY_STRING := "" |}.

Definition two_pages (n : nat) : option Calendar.page :=
  match n with
  | 0 => Some {| Calendar.items := Some [holiday];
                 Calendar.nextPageToken := Some "p2" |}
  | 1 => Some {| Calendar.items := Some [standup];
                 Calendar.nextPageToken := Some "p3" |}
  | _ => Some {| Calendar.items := None; Calendar.nextPageToken := None |}
  end.

(** A calendar whose every page announces another one. *)
Definition endless (n : nat) : option Calendar.page :=
  Some {| Calendar.items := Some [standup];
          Calendar.nextPageToken := Some "more" |}.

Definition noon : DateTime.datetime :=
  {| DateTime.year := 2026; DateTime.month := 7; DateTime.day := 15;
     DateTime.hour := 12; DateTime.minute := 0; DateTime.second := 0 |}.

Definition a_week_later : DateTime.datetime :=
  {| DateTime.year := 2026; DateTime.month := 7; DateTime.day := 22;
     DateTime.hour := 12; DateTime.minute := 0; DateTime.second := 0 |}.

(** A directory with no log yet. *)
Definition no_log : Log.files :=
  {| Log.event_log := None; Log.archives := ∅; Log.readings := 0 |}.

(** The mapping document with one link. *)
Definition one_link : Document.document :=
  Document.DDict
    [("events",
      Document.DList
        [Document.DDict
           [("google_event_id", Document.DStr "g2");
            ("discord_event_id", Document.DStr "d2");
            ("date", Document.DStr "2026-07-15");
            ("title", Document.DStr (Html.q "The 'big' day"));
            ("channel", Document.DNumber "1234567890");
            ("notes", Document.DStr Log.newline);
            ("signature",
             Document.DDict
               [("title", Document.DStr (Html.q "The 'big' day"));
                ("description", Document.DStr "");
                ("start_time", Document.DStr "2026-07-15T00:00:00-04:00");
                ("end_time", Document.DStr "2026-07-15T23:59:59-04:00");
                ("location", Document.DStr "");
                ("is_discord_event", Document.DBool false)])]])].

Definition holiday_signature : Sig.signature :=
  {| Sig.title := "Holiday"; Sig.description := "";
     Sig.start_time := Some "2026-07-15T00:00:00-04:00";
     Sig.end_time := Some "2026-07-15T23:59:59-04:00";
     Sig.location := ""; Sig.is_discord_event := false |}.

(** The link of [holiday] once created with the id [d7], and the link
    [outdated_link] once updated. *)
Definition holiday_created : Link.synced_event :=
  {| Link.google_event_id := "g2"; Link.discord_event_id := "d7";
     Link.date := Some "2026-07-15"; Link.title := Some "Holiday";
     Link.channel := Some "c1"; Link.notes := Some "";
     Link.signature := Some holiday_signature |}.

Definition holiday_updated : Link.synced_event :=
  {| Link.google_event_id := "g2"; Link.discord_event_id := "d2";
     Link.date := Some "2026-07-15"; Link.title := Some "Holiday";
     Link.channel := Some "c1"; Link.notes := Some "";
     Link.signature := Some holiday_signature |}.

End Examples.

(** * Properties *)

(** ** Strings *)

Module StrFacts.
Import PyStr.

Lemma app_cons c s t : String c s ++ t = String c (s ++ t).
Proof. reflexivity. Qed.

Lemma app_empty_l t : "" ++ t = t.
Proof. reflexivity. Qed.

Lemma app_empty_r s : s ++ "" = s.
Proof. induction s as [|c s IH]; [done|]. by rewrite app_cons, IH. Qed.

Lemma app_assoc (s t u : string) : (s ++ t) ++ u = s ++ t ++ u.
Proof. induction s as [|c s IH]; [done|]. by rewrite !app_cons, IH. Qed.

Lemma length_app s t :
  String.length (s ++ t) = (String.length s + String.length t)%nat.
Proof. induction s as [|c s IH]; [done|]. rewrite app_cons. simpl. by rewrite IH. Qed.

Lemma eqb_length s t :
  String.eqb s t = true → String.length s = String.length t.
Proof. intros H. apply String.eqb_eq in H. by subst. Qed.

Lemma length_lower s : String.length (lower s) = String.length s.
Proof. induction s as [|c s IH]; simpl; congruence. Qed.

Lemma endswith_cons c s p :
  endswith (String c s) p = String.eqb (String c s) p || endswith s p.
Proof. reflexivity. Qed.

(** A suffix test only looks at the end of the text. *)
Lemma endswith_app s t p :
  (String.length p <= String.length t)%nat →
  endswith (s ++ t) p = endswith t p.
Proof.
  intros Hp. induction s as [|c s IH]; [done|].
  rewrite app_cons, endswith_cons, IH.
  destruct (String.eqb (String c (s ++ t)) p) eqn:E; [|reflexivity].
  apply eqb_length in E. simpl in E. rewrite length_app in E. lia.
Qed.

Lemma last_chars_app n s t :
  (n <= String.length t)%nat →
  DateTime.last_chars n (s ++ t) = DateTime.last_chars n t.
Proof.
  intros Hn. unfold DateTime.last_chars.
  induction s as [|c s IH]; [done|].
  rewrite app_cons.
  replace (String.length (String c (s ++ t)) - n)%nat
    with (S (String.length (s ++ t) - n)).
  - simpl. exact IH.
  - simpl. rewrite length_app. lia.
Qed.

End StrFacts.

(** ** The eligibility filter *)

Module FilterFacts.
Import Filter Examples.

(** With filters configured the answer of [should_sync_event] is the
    disjunction of the inclusion clauses: the exclusion clauses are only
    reached when the answer is already [False]. *)
Lemma should_sync_event_inclusion_only (f : gmap string (list string)) e :
  f ≠ ∅ → should_sync_event (Some f) e = matches_inclusion f e.
Proof.
  intros Hne. unfold should_sync_event.
  rewrite bool_decide_eq_false_2 by done.
  unfold filtered_decision, matches_inclusion.
  repeat match goal with |- context [if ?b then _ else _] => destruct b end;
    reflexivity.
Qed.

Lemma should_sync_event_no_filters e :
  should_sync_event None e = true ∧ should_sync_event (Some ∅) e = true.
Proof. split; reflexivity. Qed.

Lemma should_sync_event_no_inclusion (f : gmap string (list string)) e :
  f ≠ ∅ → matches_inclusion f e = false → should_sync_event (Some f) e = false.
Proof. intros Hne Hi. by rewrite should_sync_event_inclusion_only. Qed.

(** C2. An event whose title matches both an inclusion clause and an
    exclusion clause: the specification excludes it, [should_sync_event]
    answers [True]. *)
Theorem excluded_event_is_synced :
  matches_inclusion team_filters private_meeting = true
  ∧ matches_exclusion team_filters private_meeting = true
  ∧ eligible_spec (Some team_filters) private_meeting = false
  ∧ should_sync_event (Some team_filters) private_meeting = true.
Proof. repeat split; vm_compute; reflexivity. Qed.

End FilterFacts.

(** ** Loading the mapping document *)

Module StorageFacts.
Import Storage.




End StorageFacts.

(** ** The fingerprint *)

Module FingerprintFacts.
Import Fingerprint Examples.

Section WithZones.
Variable zones : DateTime.zone_db.
Variable convert_aware : string -> DateTime.tzinfo -> string.
Variable var : config.

Lemma event_times_ok e st en :
  start e = Some st → end_ e = Some en →
  ∃ times, event_times zones convert_aware var e = Ok times.
Proof.
  intros Hs He. unfold event_times. rewrite Hs, He. simpl.
  destruct (date st); eauto.
Qed.

End WithZones.




End FingerprintFacts.

(** ** Whole-day events *)

Module DateTimeFacts.
Import DateTime StrFacts.
Open Scope Z_scope.

Lemma has_timezone_info_suffix s :
  has_timezone_info (s ++ "T00:00:00") = false
  ∧ has_timezone_info (s ++ "T23:59:59") = false.
Proof.
  unfold has_timezone_info.
  rewrite !endswith_app, !last_chars_app by (simpl; lia).
  split; reflexivity.
Qed.

Lemma digit_digit_char n : digit (digit_char n) = Some (n mod 10).
Proof.
  unfold digit, digit_char.
  assert (0 <= n mod 10 < 10) by (apply Z.mod_pos_bound; lia).
  rewrite nat_ascii_embedding by lia.
  rewrite Z2Nat.id by lia.
  destruct (48 <=? 48 + n mod 10) eqn:E1; [|lia].
  destruct (48 + n mod 10 <=? 57) eqn:E2; [|lia].
  simpl. f_equal. lia.
Qed.

Lemma digits_pad2 n : 0 <= n < 100 → digits (pad2 n) = Some n.
Proof.
  intros Hn. unfold digits, pad2. simpl.
  rewrite !digit_digit_char. simpl. f_equal.
  pose proof (Z.div_mod n 10). 
  assert ((n / 10) mod 10 = n / 10) as ->.
  { apply Z.mod_small. split; [apply Z.div_pos; lia|].
    apply Z.div_lt_upper_bound; lia. }
  lia.
Qed.

Lemma digits_pad4 n : 0 <= n < 10000 → digits (pad4 n) = Some n.
Proof.
  intros Hn. unfold digits, pad4. simpl.
  rewrite !digit_digit_char. simpl. f_equal.
  Z.to_euclidean_division_equations. lia.
Qed.

Definition valid (dt : datetime) : Prop :=
  1 <= year dt <= 9999 ∧ 1 <= month dt <= 12
  ∧ 1 <= day dt <= days_in_month (year dt) (month dt)
  ∧ 0 <= hour dt <= 23 ∧ 0 <= minute dt <= 59 ∧ 0 <= second dt <= 59.

(** Reading back the text of a date and time gives the date and time. *)
Lemma fromisoformat_format_naive dt :
  valid dt → fromisoformat (format_naive dt) = Some dt.
Proof.
  destruct dt as [y m d hh mm ss]. unfold valid. simpl.
  intros (Hy & Hm & Hd & Hh & Hmi & Hs).
  assert (days_in_month y m <= 31).
  { unfold days_in_month. repeat case_match; lia. }
  unfold format_naive, iso_date, pad4, pad2. simpl.
  repeat (rewrite app_cons || rewrite app_empty_l).
  unfold fromisoformat.
  cbn -[digits digit_char days_in_month Z.leb].
  change (String (digit_char (y / 1000)) _) with (pad4 y).
  change (String (digit_char (m / 10)) _) with (pad2 m).
  change (String (digit_char (d / 10)) _) with (pad2 d).
  change (String (digit_char (hh / 10)) _) with (pad2 hh).
  change (String (digit_char (mm / 10)) _) with (pad2 mm).
  change (String (digit_char (ss / 10)) _) with (pad2 ss).
  rewrite digits_pad4, !digits_pad2 by lia.
  cbn -[days_in_month Z.leb].
  rewrite !(proj2 (Z.leb_le _ _)) by lia. reflexivity.
Qed.
Section Convert.
Variable zones : zone_db.
Variable convert_aware : string -> tzinfo -> string.
Variables (name : string) (tz : tzinfo).
Hypothesis known : zones name = Some tz.
Variables y m d : Z.
Hypothesis date_ok :
  1 <= y <= 9999 ∧ 1 <= m <= 12 ∧ 1 <= d <= days_in_month y m.

Let midnight :=
  {| year := y; month := m; day := d;
     hour := 0; minute := 0; second := 0 |}.
Let last_second :=
  {| year := y; month := m; day := d;
     hour := 23; minute := 59; second := 59 |}.

Lemma convert_midnight :
  convert_utc_to_timezone zones convert_aware
    (iso_date y m d ++ "T00:00:00") name
  = iso_date y m d ++ "T00:00:00" ++ format_offset (tz midnight).
Proof.
  unfold convert_utc_to_timezone.
  rewrite known, (proj1 (has_timezone_info_suffix _)).
  change (iso_date y m d ++ "T00:00:00") with (format_naive midnight).
  rewrite fromisoformat_format_naive
    by (unfold valid; simpl; intuition lia).
  unfold isoformat, format_naive. by rewrite app_assoc.
Qed.

Lemma convert_last_second :
  convert_utc_to_timezone zones convert_aware
    (iso_date y m d ++ "T23:59:59") name
  = iso_date y m d ++ "T23:59:59" ++ format_offset (tz last_second).
Proof.
  unfold convert_utc_to_timezone.
  rewrite known, (proj2 (has_timezone_info_suffix _)).
  change (iso_date y m d ++ "T23:59:59") with (format_naive last_second).
  rewrite fromisoformat_format_naive
    by (unfold valid; simpl; intuition lia).
  unfold isoformat, format_naive. by rewrite app_assoc.
Qed.
End Convert.

(** C4. The fingerprint of a whole-day event: its start is the date at
    00:00:00 and its end the same date at 23:59:59, each followed by the
    offset that the configured zone has at that wall-clock time; on
    2026-07-15 in New York both carry -04:00. *)
Theorem whole_day_fingerprint :
  (∀ zones convert_aware var tz e st en y m d,
     zones (TIMEZONE var) = Some tz →
     start e = Some st → end_ e = Some en →
     dateTime st = None → date st = Some (iso_date y m d) →
     1 <= y <= 9999 → 1 <= m <= 12 → 1 <= d <= days_in_month y m →
     ∃ sig,
       Fingerprint.get_event_signature zones convert_aware var e = Ok sig
       ∧ Sig.start_time sig
         = Some (iso_date y m d ++ "T00:00:00"
                 ++ format_offset
                      (tz {| year := y; month := m; day := d;
                             hour := 0; minute := 0; second := 0 |}))
       ∧ Sig.end_time sig
         = Some (iso_date y m d ++ "T23:59:59"
                 ++ format_offset
                      (tz {| year := y; month := m; day := d;
                             hour := 23; minute := 59; second := 59 |})))
  ∧ (∀ convert_aware,
     ∃ sig,
       Fingerprint.get_event_signature iana convert_aware
         Examples.new_york_config Examples.holiday = Ok sig
       ∧ Sig.start_time sig = Some "2026-07-15T00:00:00-04:00"
       ∧ Sig.end_time sig = Some "2026-07-15T23:59:59-04:00").
Proof.
  split.
  - intros zones convert_aware var tz e st en y m d Hz Hs He Hdt Hd Hy Hm Hdd.
    unfold Fingerprint.get_event_signature, Fingerprint.event_times.
    rewrite Hs, He. simpl. rewrite Hd, Hdt. simpl.
    eexists. split; [reflexivity|]. simpl. unfold Fingerprint.convert.
    rewrite (convert_midnight zones convert_aware _ tz Hz y m d) by done.
    rewrite (convert_last_second zones convert_aware _ tz Hz y m d) by done.
    done.
  - intros convert_aware. eexists. split; [reflexivity|].
    split; vm_compute; reflexivity.
Qed.

Lemma whole_day_fingerprint_witness :
  ∃ sig,
    Fingerprint.get_event_signature iana Examples.no_aware
      Examples.new_york_config Examples.holiday = Ok sig
    ∧ Sig.start_time sig
      = Some (iso_date 2026 7 15 ++ "T00:00:00"
              ++ format_offset
                   (new_york {| year := 2026; month := 7; day := 15;
                                hour := 0; minute := 0; second := 0 |}))
    ∧ Sig.end_time sig
      = Some (iso_date 2026 7 15 ++ "T23:59:59"
              ++ format_offset
                   (new_york {| year := 2026; month := 7; day := 15;
                                hour := 23; minute := 59; second := 59 |})).
Proof.
  apply (proj1 whole_day_fingerprint iana Examples.no_aware
           Examples.new_york_config new_york Examples.holiday
           (Examples.whole_day "2026-07-15")
           (Examples.whole_day "2026-07-16") 2026 7 15);
    first [reflexivity | vm_compute; intuition discriminate].
Defined.

End DateTimeFacts.

(** ** Hyperlink normalisation *)

Module HtmlFacts.
Import PyStr Html HtmlSpec StrFacts.

Lemma span_spec p s a b :
  span p s = (a, b) →
  s = a ++ b ∧ all p a = true
  ∧ match b with EmptyString => True | String c _ => p c = false end.
Proof.
  revert a b. induction s as [|c s IH]; intros a b; simpl.
  - intros [= <- <-]. done.
  - destruct (p c) eqn:Hc.
    + destruct (span p s) as [a' b'] eqn:E. intros [= <- <-].
      destruct (IH _ _ eq_refl) as (-> & Ha & Hb).
      rewrite app_cons. simpl. rewrite Hc, Ha. done.
    + intros [= <- <-]. rewrite app_empty_l. simpl. done.
Qed.

Lemma span_app p a b :
  all p a = true →
  match b with EmptyString => True | String c _ => p c = false end →
  span p (a ++ b) = (a, b).
Proof.
  intros Ha Hb. induction a as [|c a IH].
  - rewrite app_empty_l. destruct b as [|c b]; simpl; [done|].
    by rewrite Hb.
  - simpl in Ha. apply andb_true_iff in Ha as [Hc Ha].
    rewrite app_cons. simpl. rewrite Hc, IH by done. done.
Qed.

Lemma literal_i_sound lit s r :
  literal_i lit s = Some r → ∃ x, s = x ++ r ∧ lower x = lit.
Proof.
  revert s. induction lit as [|a lit IH]; intros s; simpl.
  - intros [= <-]. by exists "".
  - destruct s as [|c s]; [done|].
    destruct (Ascii.eqb (lower_char c) a) eqn:E; [|done].
    apply Ascii.eqb_eq in E. intros H.
    destruct (IH _ H) as (x & -> & <-).
    exists (String c x). rewrite app_cons. simpl. by rewrite E.
Qed.

Lemma literal_i_app x r : literal_i (lower x) (x ++ r) = Some r.
Proof.
  induction x as [|c x IH]; [by destruct r|].
  rewrite app_cons. simpl. by rewrite Ascii.eqb_refl.
Qed.

Lemma literal_i_same lit r : lower lit = lit → literal_i lit (lit ++ r) = Some r.
Proof. intros H. rewrite <- H at 1. apply literal_i_app. Qed.

(** Lower-casing maps no other character to a quote or an angle
    bracket. *)
Lemma lower_char_punct c x :
  x = dquote ∨ x = ">"%char ∨ x = "<"%char →
  lower_char c = x → c = x.
Proof.
  intros [->|[->| ->]];
    destruct c as [[] [] [] [] [] [] [] []]; vm_compute; congruence.
Qed.

Lemma lower_single x c :
  c = dquote ∨ c = ">"%char ∨ c = "<"%char →
  lower x = String c "" → x = String c "".
Proof.
  intros Hc. destruct x as [|c' [|]]; simpl; try done.
  intros [= H]. by rewrite (lower_char_punct _ _ Hc H).
Qed.

Lemma lower_char_h c : lower_char c = "h"%char → is_space c = false.
Proof.
  destruct c as [[] [] [] [] [] [] [] []]; vm_compute; congruence.
Qed.

#[local] Arguments literal_i : simpl never.
#[local] Arguments span : simpl never.
#[local] Arguments q : simpl never.

Ltac split_wf H :=
  unfold well_formed in H;
  repeat (let H' := fresh "W" in apply andb_prop in H as [H H']);
  repeat match goal with
    | E : String.eqb _ _ = true |- _ => apply String.eqb_eq in E
    end.

(** Every match of the pattern is the markup of a well-formed anchor. *)
Lemma match_link_sound s u t rest :
  match_link s = Some (u, t, rest) →
  ∃ a, well_formed a = true ∧ url a = u ∧ text a = t
       ∧ s = markup a ++ rest.
Proof.
  unfold match_link. intros H.
  destruct (literal_i "<a" s) as [s1|] eqn:E1; simpl in H; [|done].
  destruct (span is_space s1) as [ws s2] eqn:E2.
  destruct (nonempty ws) eqn:N1; simpl in H; [|done].
  destruct (literal_i (q "href='") s2) as [s3|] eqn:E3; simpl in H; [|done].
  destruct (span (not_char dquote) s3) as [u' s4] eqn:E4.
  destruct (nonempty u') eqn:N2; simpl in H; [|done].
  destruct (literal_i (q "'") s4) as [s5|] eqn:E5; simpl in H; [|done].
  destruct (span (not_char ">") s5) as [at' s6] eqn:E6.
  destruct (literal_i ">" s6) as [s7|] eqn:E7; simpl in H; [|done].
  destruct (span (not_char "<") s7) as [t' s8] eqn:E8.
  destruct (nonempty t') eqn:N3; simpl in H; [|done].
  destruct (literal_i "</a>" s8) as [r'|] eqn:E9; simpl in H; [|done].
  injection H as -> -> ->.
  apply literal_i_sound in E1 as (x1 & -> & L1).
  apply span_spec in E2 as (-> & A2 & _).
  apply literal_i_sound in E3 as (x3 & -> & L3).
  apply span_spec in E4 as (-> & A4 & _).
  apply literal_i_sound in E5 as (x5 & -> & L5).
  apply span_spec in E6 as (-> & A6 & _).
  apply literal_i_sound in E7 as (x7 & -> & L7).
  apply span_spec in E8 as (-> & A8 & _).
  apply literal_i_sound in E9 as (x9 & -> & L9).
  apply lower_single in L5; [|by left]. subst x5.
  apply lower_single in L7; [|by right; left]. subst x7.
  exists {| tag := x1; space := ws; href := x3; url := u; attrs := at';
            text := t; close := x9 |}.
  split; [|split; [done|split; [done|]]].
  - unfold well_formed. simpl.
    rewrite L1, L3, L9, N1, N2, N3, A2, A4, A6, A8. reflexivity.
  - unfold markup. simpl. by rewrite !app_assoc.
Qed.

(** The markup of a well-formed anchor is matched, with its URL and its
    text, whatever follows. *)
Lemma match_link_complete a rest :
  well_formed a = true →
  match_link (markup a ++ rest) = Some (url a, text a, rest).
Proof.
  intros H. split_wf H.
  destruct a as [x1 ws x3 u at' t x9]. simpl in *.
  unfold markup. simpl. rewrite !app_assoc.
  unfold match_link. change (q "'") with (String dquote "").
  rewrite <- H, literal_i_app. simpl.
  assert (∃ c h, x3 = String c h ∧ lower_char c = "h"%char) as (c & h & -> & Hc).
  { destruct x3 as [|c h]; [done|]. injection W5 as ? ?. eauto. }
  rewrite span_app; [|done|rewrite app_cons; by apply lower_char_h].
  rewrite W7. simpl.
  rewrite <- W5, literal_i_app. simpl.
  rewrite span_app; [|done|done].
  rewrite W4. simpl. rewrite ?app_empty_l.
  rewrite span_app; [|done|done].
  rewrite literal_i_same by reflexivity. simpl.
  assert (∃ z, x9 = String "<" z) as (z & ->).
  { destruct x9 as [|c' z]; [done|]. injection W as Hc' _.
    apply lower_char_punct in Hc'; [|by right; right]. subst. eauto. }
  rewrite span_app; [|done|done].
  rewrite W1. simpl.
  rewrite <- W, literal_i_app. reflexivity.
Qed.

Lemma markup_nonempty a :
  well_formed a = true → (1 <= String.length (markup a))%nat.
Proof.
  intros H. split_wf H. unfold markup. rewrite length_app.
  rewrite <- (length_lower (tag a)), H. simpl. lia.
Qed.

Lemma match_link_shorter s u t rest :
  match_link s = Some (u, t, rest) →
  (String.length rest < String.length s)%nat.
Proof.
  intros H. apply match_link_sound in H as (a & Ha & _ & _ & ->).
  rewrite length_app. pose proof (markup_nonempty a Ha). lia.
Qed.

(** The length of the subject is enough fuel: more changes nothing. *)
Lemma sub_fuel n m s :
  (String.length s <= n)%nat → (String.length s <= m)%nat →
  sub n s = sub m s.
Proof.
  revert m s. induction n as [|n IH]; intros m s Hn Hm.
  - destruct s; [|simpl in Hn; lia]. by destruct m.
  - destruct m as [|m]; [destruct s; [done|simpl in Hm; lia]|].
    destruct s as [|c s]; [done|]. simpl in Hn, Hm.
    change (sub (S n) (String c s)) with
      (match match_link (String c s) with
       | Some (u, t, rest) => replace_link u t ++ sub n rest
       | None => String c (sub n s)
       end).
    change (sub (S m) (String c s)) with
      (match match_link (String c s) with
       | Some (u, t, rest) => replace_link u t ++ sub m rest
       | None => String c (sub m s)
       end).
    destruct (match_link (String c s)) as [[[u t] rest]|] eqn:E.
    + apply match_link_shorter in E. simpl in E.
      f_equal. apply IH; lia.
    + f_equal. apply IH; lia.
Qed.

Lemma parse_html_links_sub s :
  parse_html_links s = sub (String.length s) s.
Proof. by destruct s. Qed.

Lemma parse_html_links_link c s u t rest :
  match_link (String c s) = Some (u, t, rest) →
  parse_html_links (String c s)
  = u ++ " (" ++ t ++ ")" ++ parse_html_links rest.
Proof.
  intros E. rewrite !parse_html_links_sub.
  change (sub (String.length (String c s)) (String c s)) with
    (match match_link (String c s) with
     | Some (u, t, rest) =>
         replace_link u t ++ sub (String.length s) rest
     | None => String c (sub (String.length s) s)
     end).
  rewrite E. unfold replace_link. rewrite !app_assoc.
  do 4 f_equal. apply match_link_shorter in E. simpl in E.
  apply sub_fuel; lia.
Qed.

Lemma parse_html_links_char c s :
  match_link (String c s) = None →
  parse_html_links (String c s) = String c (parse_html_links s).
Proof.
  intros E. rewrite !parse_html_links_sub.
  change (sub (String.length (String c s)) (String c s)) with
    (match match_link (String c s) with
     | Some (u, t, rest) =>
         replace_link u t ++ sub (String.length s) rest
     | None => String c (sub (String.length s) s)
     end).
  by rewrite E.
Qed.

Lemma normalises_parse s : normalises s (parse_html_links s).
Proof.
  remember (String.length s) as n eqn:Hn.
  revert s Hn. induction (lt_wf n) as [n _ IH]. intros s ->.
  destruct s as [|c s]; [constructor|].
  destruct (match_link (String c s)) as [[[u t] rest]|] eqn:E.
  - rewrite (parse_html_links_link _ _ _ _ _ E).
    pose proof (match_link_shorter _ _ _ _ E) as Hlt.
    apply match_link_sound in E as (a & Ha & <- & <- & Hs).
    rewrite Hs. constructor; [done|]. by eapply IH.
  - rewrite (parse_html_links_char _ _ E).
    constructor; [|eapply IH; [|reflexivity]; simpl; lia].
    intros a rest Ha Hs. rewrite Hs, match_link_complete in E; done.
Qed.

Lemma normalises_unique s out :
  normalises s out → out = parse_html_links s.
Proof.
  induction 1 as [|a rest out Ha _ IH|c s out Hno _ IH].
  - reflexivity.
  - pose proof (match_link_complete a rest Ha) as E.
    pose proof (markup_nonempty a Ha) as Hlen.
    destruct (markup a ++ rest) as [|c s] eqn:Hs.
    { apply (f_equal String.length) in Hs. rewrite length_app in Hs.
      simpl in Hs. lia. }
    rewrite (parse_html_links_link _ _ _ _ _ E). by rewrite IH.
  - destruct (match_link (String c s)) as [[[u t] rest]|] eqn:E.
    + apply match_link_sound in E as (a & Ha & _ & _ & Hs).
      by destruct (Hno a rest Ha).
    + rewrite (parse_html_links_char _ _ E). by rewrite IH.
Qed.




End HtmlFacts.

(** ** The executor and the cycle *)

Module SyncFacts.
Import Sync Examples StoreSpec.
#[local] Open Scope list_scope.

(** *** Runs on concrete inputs *)

(** C1. The source event of a link is gone and the platform answers the
    delete with 429 four times: one delete is planned, it is logged as
    failed after three retries, and the link is removed all the same, so
    that no later cycle retries it. *)
Theorem failed_delete_removes_link :
  let st := cycle (throttled []) [] (with_store [stale_link]) in
  planned (trace st) = [Delete "d9" "g9"]
  ∧ outcomes (trace st) = [false]
  ∧ synced_events st = []
  ∧ planned (trace (cycle (throttled []) [] st)) = [Delete "d9" "g9"].
Proof. repeat split; vm_compute; reflexivity. Qed.

(** C3. Four answers 429 in a row. An update makes three retries, each
    after a wait of the hint plus half a second, is reported as failed, and
    leaves its link as it was. A delete makes the same retries and is
    reported as failed too, and its link is removed. *)
Theorem rate_limited_four_times :
  (let st := cycle (throttled ["d2"]) [holiday] (with_store [holiday_link]) in
   planned (trace st) = [Update holiday "d2"]
   ∧ attempts PATCH (trace st) = 4
   ∧ sleeps (trace st) = [3 # 2; 3 # 2; 3 # 2; 2 # 1; 3 # 1]
   ∧ outcomes (trace st) = [false]
   ∧ synced_events st = [holiday_link])
  ∧ (let st := cycle (throttled []) [] (with_store [stale_link]) in
     planned (trace st) = [Delete "d9" "g9"]
     ∧ attempts DELETE (trace st) = 4
     ∧ sleeps (trace st) = [3 # 2; 3 # 2; 3 # 2; 2 # 1; 3 # 1]
     ∧ outcomes (trace st) = [false]
     ∧ synced_events st = []).
Proof. repeat split; vm_compute; reflexivity. Qed.

(** *** The retry loop *)

Section WithWorld.
Variable zones : DateTime.zone_db.
Variable convert_aware : string -> DateTime.tzinfo -> string.
Variable var : config.
Variable net : nat -> response.

Lemma bind_run {A B} (m : M A) (f : A → M B) st :
  (m ≫= f) st
  = match m st with
    | (Ok a, st') => f a st'
    | (Raise x, st') => (Raise x, st')
    end.
Proof. reflexivity. Qed.

(** At most [remaining] requests are made by the loop. *)
Lemma retry_calls r remaining resp st :
  (calls (retry net r remaining resp st).2 ≤ calls st + remaining)%nat.
Proof.
  revert resp st. induction remaining as [|n IH]; intros resp st; simpl.
  - lia.
  - destruct (status_code resp =? 429)%Z; [|simpl; lia].
    destruct (content resp) as [|hint i|l]; simpl; [| |lia].
    + rewrite !bind_run. unfold sleep. simpl.
      rewrite bind_run. simpl. etrans; [apply IH|]. simpl. lia.
    + rewrite !bind_run. unfold sleep.
      destruct (Qle_bool 0 _); simpl; [|lia].
      rewrite bind_run. simpl. etrans; [apply IH|]. simpl. lia.
Qed.

(** *** Computations that leave the store alone and set no mark *)

Lemma silent_app a b : silent a → silent b → silent (a ++ b).
Proof.
  unfold silent, planned, outcomes, unchanged.
  intros (A1 & A2 & A3) (B1 & B2 & B3).
  by rewrite !omap_app, A1, A2, A3, B1, B2, B3.
Qed.

Lemma quietly_ret {A} (a : A) : quietly (mret a).
Proof. intros st. exists []. repeat split. simpl. by rewrite app_nil_r. Qed.

Lemma quietly_raise {A} x : quietly (@raise A x).
Proof. intros st. exists []. repeat split. simpl. by rewrite app_nil_r. Qed.

Lemma quietly_lift {A} (r : result A) : quietly (lift r).
Proof. intros st. exists []. repeat split. simpl. by rewrite app_nil_r. Qed.

Lemma quietly_bind {A B} (m : M A) (f : A → M B) :
  quietly m → (∀ a, quietly (f a)) → quietly (m ≫= f).
Proof.
  intros Hm Hf st. rewrite bind_run.
  destruct (Hm st) as (new1 & [Hs1 Ht1] & S1).
  destruct (m st) as [[a|x] st1]; simpl in *;
    [|exists new1; split; [by split|done]].
  destruct (Hf a st1) as (new2 & [Hs2 Ht2] & S2).
  exists (new1 ++ new2). split; [split|by apply silent_app].
  - congruence.
  - by rewrite Ht2, Ht1, app_assoc.
Qed.

Lemma quietly_send r : quietly (send net r).
Proof. intros st. exists [Sent r]. by repeat split. Qed.

Lemma quietly_sleep d : quietly (sleep d).
Proof.
  intros st. unfold sleep. destruct (Qle_bool 0 d).
  - exists [Slept d]. by repeat split.
  - apply quietly_raise.
Qed.

Lemma quietly_retry r remaining resp : quietly (retry net r remaining resp).
Proof.
  revert resp. induction remaining as [|n IH]; intros resp; simpl.
  - apply quietly_ret.
  - destruct (status_code resp =? 429)%Z; [|apply quietly_ret].
    destruct (content resp);
      repeat first [apply quietly_bind; [|intros ?] | apply quietly_sleep
                   | apply quietly_send | apply quietly_raise | apply IH].
Qed.

Lemma quietly_create_or_update e d :
  quietly (create_or_update_discord_event zones convert_aware var net e d).
Proof.
  unfold create_or_update_discord_event.
  repeat first [apply quietly_bind; [|intros ?] | apply quietly_sleep
               | apply quietly_send | apply quietly_lift
               | apply quietly_retry].
  destruct (_ || _); [|apply quietly_ret].
  destruct (content _); first [apply quietly_ret | apply quietly_raise].
Qed.


(** One turn of the loop: the wait, then the same request again. *)
Lemma retry_again r n resp w st :
  status_code resp = 429%Z → backoff resp = Some w → Qle_bool 0 w = true →
  retry net r (S n) resp st
  = retry net r n (net (calls st))
      {| synced_events := synced_events st; calls := S (calls st);
         trace := trace st ++ [Slept w; Sent r] |}.
Proof.
  intros Hs Hw Hpos. simpl. rewrite Hs. simpl.
  unfold backoff in Hw. destruct (content resp) as [|hint i|l];
    [|injection Hw as <-|done].
  - injection Hw as <-. unfold sleep. simpl.
    rewrite bind_run. simpl. rewrite bind_run. unfold send. simpl.
    by rewrite <- app_assoc.
  - unfold sleep. rewrite bind_run, Hpos. simpl.
    rewrite bind_run. unfold send. simpl. by rewrite <- app_assoc.
Qed.

(** Four answers 429 in a row to a create or an update: the request is
    sent four times, with the three waits in between, and the result is
    [None]; the store is not touched. *)
Lemma create_or_update_gives_up e d data w0 w1 w2 st :
  build_payload zones convert_aware var e = Ok data →
  (∀ k, (k < 4)%nat → status_code (net (calls st + k)) = 429%Z) →
  backoff (net (calls st)) = Some w0 →
  backoff (net (calls st + 1)) = Some w1 →
  backoff (net (calls st + 2)) = Some w2 →
  Qle_bool 0 w0 = true → Qle_bool 0 w1 = true → Qle_bool 0 w2 = true →
  let r := {| method := match d with None => POST | Some _ => PATCH end;
              url_event_id := d; json := Some data |} in
  create_or_update_discord_event zones convert_aware var net e d st
  = (Ok None,
     {| synced_events := synced_events st; calls := calls st + 4;
        trace := trace st
          ++ [Sent r; Slept w0; Sent r; Slept w1; Sent r; Slept w2; Sent r;
              Slept (2 # 1)] |}).
Proof.
  intros Hdata H429 H0 H1 H2 P0 P1 P2 r.
  unfold create_or_update_discord_event.
  rewrite bind_run. unfold lift at 1. rewrite Hdata. cbv beta iota zeta.
  fold r. rewrite bind_run. unfold send at 1. cbv beta iota.
  rewrite bind_run. unfold max_retries.
  pose proof (H429 0%nat ltac:(lia)) as S0. rewrite Nat.add_0_r in S0.
  rewrite (retry_again r 2 _ w0 _ S0 H0 P0). simpl calls.
  replace (S (calls st)) with (calls st + 1)%nat by lia.
  rewrite (retry_again r 1 _ w1 _ (H429 1%nat ltac:(lia)) H1 P1). simpl calls.
  replace (S (calls st + 1)) with (calls st + 2)%nat by lia.
  rewrite (retry_again r 0 _ w2 _ (H429 2%nat ltac:(lia)) H2 P2). simpl calls.
  replace (S (calls st + 2)) with (calls st + 3)%nat by lia.
  simpl retry. unfold mret, M_ret. cbv beta iota.
  rewrite bind_run. unfold sleep. simpl.
  rewrite (H429 3%nat ltac:(lia)). simpl.
  rewrite <- !app_assoc. simpl.
  by replace (S (calls st + 3)) with (calls st + 4)%nat by lia.
Qed.

(** *** What the body of the first loop does *)

Ltac run_action Hq :=
  match goal with
  | |- context [create_or_update_discord_event ?z ?c ?v ?n ?e ?d ?st] =>
      let new := fresh "new" in
      let Hs := fresh "Hs" in
      let Htr := fresh "Htr" in
      let new_id := fresh "new_id" in
      let st1 := fresh "st1" in
      destruct (quietly_create_or_update e d st) as (new & [Hs Htr] & Hq);
      destruct (create_or_update_discord_event z c v n e d st)
        as [[new_id|?] st1];
      simpl in Hs, Htr;
      [destruct (truthy new_id) eqn:?|];
      cbv beta iota; unfold sleep, tell; simpl;
      intros [= <- <-]; simpl
  end.

(** The marks of a piece of history that starts with a silent part. *)
Lemma marks_after new tail :
  silent new →
  planned (new ++ tail) = planned tail
  ∧ outcomes (new ++ tail) = outcomes tail
  ∧ unchanged (new ++ tail) = unchanged tail.
Proof.
  intros (Q1 & Q2 & Q3). unfold planned, outcomes, unchanged in *.
  by rewrite !omap_app, Q1, Q2, Q3.
Qed.

Ltac leaf Hq Htr Hb tail :=
  match type of Hq with
  | silent ?new =>
      exists (new ++ tail);
      destruct (marks_after new tail Hq) as (-> & -> & ->);
      split; [rewrite Htr, <- ?app_assoc, ?app_nil_r; reflexivity|];
      split; [exact Hb|];
      split; [reflexivity|];
      split; [reflexivity|]
  end.

Lemma process_event_run ids e st r st' :
  process_event zones convert_aware var net ids e st = (r, st') →
  (st' = st ∧ r ≠ Ok tt)
  ∨ ∃ gid sig t,
      event_id e = Some gid
      ∧ Fingerprint.get_event_signature zones convert_aware var e = Ok sig
      ∧ summary e = Some t
      ∧ ((trace st' = trace st ++ [Unchanged e] ∧ r = Ok tt
          ∧ synced_events st' = synced_events st
          ∧ ∃ i l, find_link gid (synced_events st) = Some (i, l)
                   ∧ Link.discord_event_id l ∈ ids
                   ∧ Link.signature l = Some sig)
         ∨ ∃ a rest,
             trace st' = trace st ++ Planned a :: rest
             ∧ branch ids e gid sig (synced_events st) a
             ∧ planned rest = [] ∧ unchanged rest = []
             ∧ ((outcomes rest = [true] ∧ r = Ok tt
                 ∧ written gid sig (synced_events st) (synced_events st'))
                ∨ (outcomes rest = [false] ∧ r = Ok tt
                   ∧ synced_events st' = synced_events st)
                ∨ (outcomes rest = [] ∧ r ≠ Ok tt
                   ∧ synced_events st' = synced_events st))).
Proof.
  unfold process_event.
  cbv [mbind M_bind get_store lift tell put_store save_synced_events
       mret M_ret].
  destruct (event_id e) as [gid|] eqn:Hid; simpl;
    [|intros [= <- <-]; by left].
  destruct (Fingerprint.get_event_signature zones convert_aware var e)
    as [sig|x] eqn:Hsig; cbv iota beta; [|intros [= <- <-]; by left].
  destruct (summary e) as [t|] eqn:Ht; simpl; [|intros [= <- <-]; by left].
  intros H. right. exists gid, sig, t. do 3 (split; [done|]).
  destruct (find_link gid (synced_events st)) as [[i l]|] eqn:F.
  - assert (Link.google_event_id l = gid) as Hgid.
    { by apply list_find_Some in F as (_ & ? & _). }
    destruct (bool_decide (Link.discord_event_id l ∈ ids)) eqn:Hin;
      cbn [negb] in H; cbv beta iota in H.
    + unfold Fingerprint.events_are_different in H.
      assert (Link.signature l ≠ Some sig →
              branch ids e gid sig (synced_events st)
                (Update e (Link.discord_event_id l))) as Hb.
      { intros Hne. unfold branch. by rewrite F, Hin. }
      destruct (Link.signature l) as [stored|] eqn:Hst.
      * rewrite Hsig in H.
        destruct (bool_decide (sig = stored)) eqn:Hsame;
          cbn [negb] in H; cbv beta iota in H.
        -- injection H as <- <-. simpl. left.
           apply bool_decide_eq_true in Hsame, Hin. subst stored.
           repeat split; eauto.
        -- right. exists (Update e (Link.discord_event_id l)).
           apply bool_decide_eq_false in Hsame.
           assert (Some stored ≠ Some sig) as Hne by congruence.
           specialize (Hb Hne).
           revert H. run_action Hq.
           ++ leaf Hq Htr Hb
                [Outcome true;
                 Saved (<[i:=update var l e sig t]> (synced_events st));
                 Slept (3 # 1)].
              left. repeat split. exists (update var l e sig t).
              rewrite F. done.
           ++ leaf Hq Htr Hb [Outcome false; Slept (3 # 1)].
              right; left. done.
           ++ leaf Hq Htr Hb (@nil item). right; right. done.
      * right. exists (Update e (Link.discord_event_id l)).
        specialize (Hb ltac:(done)).
        revert H. cbv beta iota. run_action Hq.
        -- leaf Hq Htr Hb
             [Outcome true;
              Saved (<[i:=update var l e sig t]> (synced_events st));
              Slept (3 # 1)].
           left. repeat split. exists (update var l e sig t).
           rewrite F. done.
        -- leaf Hq Htr Hb [Outcome false; Slept (3 # 1)].
           right; left. done.
        -- leaf Hq Htr Hb (@nil item). right; right. done.
    + right. exists (Recreate e).
      assert (branch ids e gid sig (synced_events st) (Recreate e)) as Hb.
      { unfold branch. by rewrite F, Hin. }
      revert H. run_action Hq.
      * leaf Hq Htr Hb
          [Outcome true;
           Saved (<[i:=update var
                         (set_discord_event_id l (default "" new_id))
                         e sig t]> (synced_events st));
           Slept (3 # 1)].
        left. repeat split.
        exists (update var (set_discord_event_id l (default "" new_id))
                  e sig t).
        rewrite F. done.
      * leaf Hq Htr Hb [Outcome false; Slept (3 # 1)].
        right; left. done.
      * leaf Hq Htr Hb (@nil item). right; right. done.
  - right. exists (Create e).
    assert (branch ids e gid sig (synced_events st) (Create e)) as Hb.
    { unfold branch. by rewrite F. }
    revert H. run_action Hq.
    + leaf Hq Htr Hb
        [Outcome true;
         Saved (synced_events st
                ++ [new_link var gid (default "" new_id) e sig t])].
      left. repeat split.
      exists (new_link var gid (default "" new_id) e sig t).
      rewrite F. done.
    + leaf Hq Htr Hb [Outcome false]. right; left. done.
    + leaf Hq Htr Hb (@nil item). right; right. done.
Qed.


(** *** What the body of the second loop does *)

Lemma delete_discord_event_run did st :
  let out := delete_discord_event net did st in
  synced_events out.2 = synced_events st
  ∧ ∃ new, silent new
      ∧ ((∃ b, out.1 = Ok tt ∧ trace out.2 = trace st ++ new ++ [Outcome b])
         ∨ (out.1 ≠ Ok tt ∧ trace out.2 = trace st ++ new)).
Proof.
  unfold delete_discord_event. cbv [mbind M_bind send]. cbv beta iota zeta.
  match goal with
  | |- context [retry net ?r ?n ?resp ?st0] =>
      destruct (quietly_retry r n resp st0) as (new & [Hs Htr] & Hq);
      destruct (retry net r n resp st0) as [[resp'|x] st1]
  end; unfold sleep, tell; simpl in *.
  - split; [done|].
    exists ([Sent {| method := DELETE; url_event_id := Some did;
                     json := None |}] ++ new ++ [Slept (2 # 1)]).
    split.
    + apply silent_app; [done|]. apply silent_app; [done|done].
    + left. eexists. split; [done|].
      rewrite Htr, <- !app_assoc. done.
  - split; [done|].
    exists ([Sent {| method := DELETE; url_event_id := Some did;
                     json := None |}] ++ new).
    split; [by apply silent_app|].
    right. split; [done|]. by rewrite Htr, <- !app_assoc.
Qed.

Lemma retire_link_run gids l st r st' :
  retire_link net gids l st = (r, st') →
  (Link.google_event_id l ∈ gids ∧ st' = st ∧ r = Ok tt)
  ∨ ((Link.google_event_id l ∉ gids)
     ∧ ∃ rest,
         trace st' = trace st
           ++ (Planned (Delete (Link.discord_event_id l)
                          (Link.google_event_id l)) :: rest)
         ∧ planned rest = [] ∧ unchanged rest = []
         ∧ ((remove_first l (synced_events st) = Some (synced_events st')
             ∧ r = Ok tt ∧ ∃ b, outcomes rest = [b])
            ∨ (synced_events st' = synced_events st ∧ r ≠ Ok tt))).
Proof.
  unfold retire_link.
  destruct (bool_decide (Link.google_event_id l ∈ gids)) eqn:Hin;
    cbn [negb]; cbv beta iota.
  { intros [= <- <-]. left. by apply bool_decide_eq_true in Hin. }
  apply bool_decide_eq_false in Hin. intros H. right. split; [done|].
  revert H.
  cbv [mbind M_bind get_store tell put_store save_synced_events]. simpl.
  match goal with
  | |- context [delete_discord_event net ?d ?st0] =>
      destruct (delete_discord_event_run d st0)
        as (Hs & new & Hq & [(b & Hr & Htr)|(Hr & Htr)]);
      destruct (delete_discord_event net d st0) as [[[]|x] st1]
  end; simpl in *; try done.
  - destruct (remove_first l (synced_events st1)) as [s'|] eqn:R.
    + unfold sleep, tell. simpl. intros [= <- <-]. simpl.
      destruct (marks_after new [Outcome b; Saved s'; Slept (3 # 1)] Hq)
        as (P1 & P2 & P3).
      exists (new ++ [Outcome b; Saved s'; Slept (3 # 1)]).
      split; [by rewrite Htr, <- !app_assoc|].
      split; [done|]. split; [done|]. left.
      rewrite <- Hs, R. repeat split. exists b. done.
    + intros [= <- <-].
      destruct (marks_after new [Outcome b] Hq) as (P1 & P2 & P3).
      exists (new ++ [Outcome b]).
      split; [by rewrite Htr, <- !app_assoc|].
      split; [done|]. split; [done|]. right. done.
  - intros [= <- <-]. exists new. destruct Hq as (Q1 & Q2 & Q3).
    split; [by rewrite Htr, <- !app_assoc|].
    split; [done|]. split; [done|]. right. done.
Qed.


(** *** At most one link per source id *)

Lemma find_link_gid gid s i l :
  find_link gid s = Some (i, l) →
  s !! i = Some l ∧ Link.google_event_id l = gid.
Proof. intros (? & ? & _)%list_find_Some. done. Qed.

Lemma find_link_none gid s :
  find_link gid s = None → gid ∉ Link.google_event_id <$> s.
Proof.
  intros H%list_find_None (l & -> & Hl)%list_elem_of_fmap.
  by apply (proj1 (Forall_forall _ _) H l).
Qed.

Lemma store_step_one_link gid s s' :
  store_step gid s s' → one_link_per_source s → one_link_per_source s'.
Proof.
  unfold one_link_per_source.
  intros [i l l' F Hg|l' F Hg] Hs.
  - apply find_link_gid in F as [Hi Hl].
    rewrite list_fmap_insert, list_insert_id; [done|].
    rewrite list_lookup_fmap, Hi. simpl. congruence.
  - rewrite fmap_app. apply NoDup_app. split; [done|]. split.
    + intros x Hx [->|[]%elem_of_nil]%elem_of_cons. subst.
      by apply find_link_none in F.
    + apply NoDup_singleton.
Qed.

Lemma written_store_step gid sig s s' :
  written gid sig s s' → store_step gid s s'.
Proof.
  intros (l' & Hg & _ & ->).
  destruct (find_link gid s) as [[i l]|] eqn:F; econstructor; eauto.
Qed.

Lemma remove_first_sublist x s s' :
  remove_first x s = Some s' → s' `sublist_of` s.
Proof.
  revert s'. induction s as [|y s IH]; intros s'; simpl; [done|].
  destruct (bool_decide (y = x)).
  - intros [= <-]. by apply sublist_cons.
  - destruct (remove_first x s) as [s''|]; simpl; [|done].
    intros [= <-]. apply sublist_skip. by apply IH.
Qed.

Lemma remove_first_one_link x s s' :
  remove_first x s = Some s' →
  one_link_per_source s → one_link_per_source s'.
Proof.
  unfold one_link_per_source. intros H%remove_first_sublist Hs.
  eapply sublist_NoDup; [done|]. by apply fmap_sublist.
Qed.

(** An invariant of the states is kept by sequencing and by loops. *)
Lemma inv_bind (I : state → Prop) {A B} (m : M A) (f : A → M B) :
  (∀ st, I st → I (m st).2) →
  (∀ a st, I st → I (f a st).2) →
  ∀ st, I st → I ((m ≫= f) st).2.
Proof.
  intros Hm Hf st Hst. rewrite bind_run. specialize (Hm st Hst).
  destruct (m st) as [[a|x] st1]; simpl in *; [|done]. by apply Hf.
Qed.

Lemma inv_for_each (I : state → Prop) {A} (f : A → M unit) l :
  (∀ x st, I st → I (f x st).2) →
  ∀ st, I st → I (for_each l f st).2.
Proof.
  intros Hf. induction l as [|x l IH]; intros st Hst; simpl; [done|].
  apply inv_bind; auto.
Qed.

Lemma inv_quietly (I : store → Prop) {A} (m : M A) :
  quietly m → ∀ st, I (synced_events st) → I (synced_events (m st).2).
Proof. intros Hm st Hst. destruct (Hm st) as (? & [-> _] & _). done. Qed.

Lemma process_event_one_link ids e st :
  one_link_per_source (synced_events st) →
  one_link_per_source
    (synced_events (process_event zones convert_aware var net ids e st).2).
Proof.
  intros Hst.
  destruct (process_event zones convert_aware var net ids e st)
    as [r st'] eqn:E. simpl.
  apply process_event_run in E
    as [[-> _]|(gid & sig & t & _ & _ & _ & [(_ & _ & -> & _)|
          (a & rest & _ & _ & _ & _ & [(_ & _ & W)|[(_ & _ & ->)|
            (_ & _ & ->)]])])]; simpl; try done.
  eapply store_step_one_link; [|done]. by eapply written_store_step.
Qed.

Lemma retire_link_one_link gids l st :
  one_link_per_source (synced_events st) →
  one_link_per_source (synced_events (retire_link net gids l st).2).
Proof.
  intros Hst. destruct (retire_link net gids l st) as [r st'] eqn:E.
  simpl. apply retire_link_run in E
    as [(_ & -> & _)|(_ & rest & _ & _ & _ & [(R & _)|[-> _]])];
    simpl; try done.
  by eapply remove_first_one_link.
Qed.

Lemma get_discord_events_quietly : quietly (get_discord_events net).
Proof.
  unfold get_discord_events.
  apply quietly_bind; [apply quietly_send|]. intros resp.
  destruct (status_code resp =? 200)%Z; [|apply quietly_ret].
  destruct (content resp); first [apply quietly_ret | apply quietly_raise].
Qed.

Lemma sync_events_body_one_link events st :
  one_link_per_source (synced_events st) →
  one_link_per_source
    (synced_events
       (sync_events_body zones convert_aware var net events st).2).
Proof.
  revert st. unfold sync_events_body.
  set (I := fun st => one_link_per_source (synced_events st)).
  apply (inv_bind I).
  { intros st. apply (inv_quietly _ _ get_discord_events_quietly). }
  intros discord_events. apply (inv_bind I); [done|].
  intros ids. apply (inv_bind I).
  { apply inv_for_each. intros e st. apply process_event_one_link. }
  intros _. apply (inv_bind I); [done|].
  intros gids. apply (inv_bind I); [done|].
  intros s. apply inv_for_each. intros l st. apply retire_link_one_link.
Qed.

(** *** When the listing fails *)

Lemma extends_refl st : extends st st.
Proof. exists []. by rewrite app_nil_r. Qed.

Lemma extends_trans st1 st2 st3 :
  extends st1 st2 → extends st2 st3 → extends st1 st3.
Proof.
  intros [n1 H1] [n2 H2]. exists (n1 ++ n2). by rewrite H2, H1, app_assoc.
Qed.

Lemma process_event_extends ids e st r st' :
  process_event zones convert_aware var net ids e st = (r, st') →
  extends st st'.
Proof.
  intros [[-> _]|(gid & sig & t & _ & _ & _ & [(H & _)|(a & rest & H & _)])]
    %process_event_run.
  - apply extends_refl.
  - by eexists.
  - by eexists.
Qed.

Lemma retire_link_extends gids l st r st' :
  retire_link net gids l st = (r, st') → extends st st'.
Proof.
  intros [(_ & -> & _)|(_ & rest & H & _)]%retire_link_run.
  - apply extends_refl.
  - by eexists.
Qed.

Lemma for_each_extends {A} (f : A → M unit) l :
  (∀ x st r st', f x st = (r, st') → extends st st') →
  ∀ st r st', for_each l f st = (r, st') → extends st st'.
Proof.
  intros Hf. induction l as [|x l IH]; intros st r st'; simpl.
  - intros [= <- <-]. apply extends_refl.
  - rewrite bind_run. destruct (f x st) as [[[]|y] st1] eqn:E.
    + intros H. eapply extends_trans; [by eapply Hf|by eapply IH].
    + intros [= <- <-]. by eapply Hf.
Qed.

(** The source ids of the store are kept by the first loop. *)
Lemma process_event_keeps_sources ids e st r st' gid :
  process_event zones convert_aware var net ids e st = (r, st') →
  gid ∈ Link.google_event_id <$> synced_events st →
  gid ∈ Link.google_event_id <$> synced_events st'.
Proof.
  intros [[-> _]|(g & sig & t & _ & _ & _ & [(_ & _ & -> & _)|
            (a & rest & _ & _ & _ & _ & [(_ & _ & W)|[(_ & _ & ->)|
               (_ & _ & ->)]])])]%process_event_run; try done.
  destruct W as (l' & Hg & _ & ->).
  destruct (find_link g (synced_events st)) as [[i l]|] eqn:F.
  - apply find_link_gid in F as [Hi Hl].
    rewrite list_fmap_insert, list_insert_id; [done|].
    rewrite list_lookup_fmap, Hi. simpl. congruence.
  - intros H. rewrite fmap_app. apply elem_of_app. by left.
Qed.

Lemma find_link_some gid s :
  gid ∈ Link.google_event_id <$> s → ∃ i l, find_link gid s = Some (i, l).
Proof.
  intros (l & -> & Hl)%list_elem_of_fmap.
  destruct (list_find_elem_of (λ x, Link.google_event_id x
                                     = Link.google_event_id l) s l Hl eq_refl)
    as [[i l'] H].
  by exists i, l'.
Qed.

(** With no target id visible, every event of the loop that has a link is
    planned for re-creation. *)
Lemma for_each_recreates l st st' :
  for_each l (process_event zones convert_aware var net ∅) st = (Ok tt, st') →
  ∀ e gid, e ∈ l → event_id e = Some gid →
    gid ∈ Link.google_event_id <$> synced_events st →
    ∃ new, trace st' = trace st ++ new ∧ Planned (Recreate e) ∈ new.
Proof.
  revert st. induction l as [|x l IH]; intros st; simpl.
  { intros _ e gid []%elem_of_nil. }
  rewrite bind_run.
  destruct (process_event zones convert_aware var net ∅ x st)
    as [[[]|y] st1] eqn:E; [|done].
  intros H e gid [->|He]%elem_of_cons Hid Hgid.
  - destruct (for_each_extends _ _ (process_event_extends ∅) _ _ _ H)
      as [n1 H1].
    apply process_event_run in E
      as [[_ ?]|(g & sig & t & Hg & _ & _ & [(_ & _ & _ & i & l0 & _ & Hin & _)|
            (a & rest & Htr & Hb & _)])];
      [done|by apply not_elem_of_empty in Hin|].
    assert (g = gid) as -> by congruence.
    destruct (find_link_some _ _ Hgid) as (i & l0 & F).
    unfold branch in Hb. rewrite F in Hb.
    rewrite bool_decide_eq_false_2 in Hb by apply not_elem_of_empty.
    subst a.
    exists ((Planned (Recreate x) :: rest) ++ n1).
    split; [by rewrite H1, Htr, app_assoc|].
    apply elem_of_app. left. apply elem_of_cons. by left.
  - destruct (process_event_extends _ _ _ _ _ E) as [n0 H0].
    destruct (IH st1 H e gid He Hid) as (n1 & H1 & Hin).
    { by eapply process_event_keeps_sources. }
    exists (n0 ++ n1). split; [by rewrite H1, H0, app_assoc|].
    apply elem_of_app. by right.
Qed.

(** *** A cycle on a store that is up to date *)

Lemma find_link_cons gid y s :
  find_link gid (y :: s)
  = if decide (Link.google_event_id y = gid) then Some (0, y)
    else prod_map S id <$> find_link gid s.
Proof. reflexivity. Qed.

Lemma find_link_insert_other gid g s i l l' :
  find_link g s = Some (i, l) → Link.google_event_id l' = g → gid ≠ g →
  find_link gid (<[i := l']> s) = find_link gid s.
Proof.
  intros F Hl' Hne. revert i F. induction s as [|y s IH]; intros i; [done|].
  rewrite find_link_cons. destruct (decide (Link.google_event_id y = g)).
  - intros [= <- <-]. change (<[0:=l']> (y :: s)) with (l' :: s).
    rewrite !find_link_cons. by rewrite !decide_False by congruence.
  - destruct (find_link g s) as [[j x]|] eqn:F; [|done]. intros [= <- <-].
    change (<[S j:=l']> (y :: s)) with (y :: <[j:=l']> s).
    rewrite !find_link_cons, (IH j); done.
Qed.

Lemma find_link_app_other gid g s l' :
  Link.google_event_id l' = g → gid ≠ g →
  find_link gid (s ++ [l']) = find_link gid s.
Proof.
  intros Hl' Hne. induction s as [|y s IH].
  - change ([] ++ [l']) with [l'].
    rewrite find_link_cons. by rewrite decide_False by congruence.
  - change ((y :: s) ++ [l']) with (y :: (s ++ [l'])).
    by rewrite !find_link_cons, IH.
Qed.

Lemma find_link_insert_same g s i l l' :
  find_link g s = Some (i, l) → Link.google_event_id l' = g →
  find_link g (<[i := l']> s) = Some (i, l').
Proof.
  intros F Hl'. revert i F. induction s as [|y s IH]; intros i; [done|].
  rewrite find_link_cons. destruct (decide (Link.google_event_id y = g)).
  - intros [= <- <-]. change (<[0:=l']> (y :: s)) with (l' :: s).
    rewrite find_link_cons. by rewrite decide_True.
  - destruct (find_link g s) as [[j x]|] eqn:F; [|done]. intros [= <- <-].
    change (<[S j:=l']> (y :: s)) with (y :: <[j:=l']> s).
    rewrite find_link_cons, decide_False, (IH j); done.
Qed.

Lemma find_link_app_same g s l' :
  find_link g s = None → Link.google_event_id l' = g →
  find_link g (s ++ [l']) = Some (length s, l').
Proof.
  intros F Hl'. induction s as [|y s IH].
  - change ([] ++ [l']) with [l'].
    rewrite find_link_cons. by rewrite decide_True.
  - change ((y :: s) ++ [l']) with (y :: (s ++ [l'])).
    rewrite find_link_cons in F |- *.
    destruct (decide (Link.google_event_id y = g)); [done|].
    destruct (find_link g s); [done|]. by rewrite IH.
Qed.

Lemma find_link_remove_first gid x s s' :
  remove_first x s = Some s' → Link.google_event_id x ≠ gid →
  snd <$> find_link gid s' = snd <$> find_link gid s.
Proof.
  intros R Hne. revert s' R. induction s as [|y s IH]; intros s'; [done|].
  cbn [remove_first]. destruct (bool_decide (y = x)) eqn:E.
  - apply bool_decide_eq_true in E as ->. intros [= <-].
    rewrite find_link_cons, decide_False by done.
    by destruct (find_link gid s) as [[]|].
  - destruct (remove_first x s) as [s''|]; [|done]. simpl. intros [= <-].
    rewrite !find_link_cons. destruct (decide _); [done|].
    specialize (IH _ eq_refl).
    by destruct (find_link gid s'') as [[]|], (find_link gid s) as [[]|].
Qed.

Lemma written_settles gid sig s s' :
  written gid sig s s' →
  ∃ l, snd <$> find_link gid s' = Some l ∧ Link.signature l = Some sig.
Proof.
  intros (l' & Hg & Hsig & ->). exists l'. split; [|done].
  destruct (find_link gid s) as [[i l]|] eqn:F.
  - by rewrite (find_link_insert_same _ _ _ _ _ F Hg).
  - by rewrite (find_link_app_same _ _ _ F Hg).
Qed.

Lemma written_other gid g sig s s' :
  written g sig s s' → gid ≠ g → find_link gid s' = find_link gid s.
Proof.
  intros (l' & Hg & _ & ->) Hne.
  destruct (find_link g s) as [[i l]|] eqn:F.
  - by eapply find_link_insert_other.
  - by eapply find_link_app_other.
Qed.

(** Nothing is sent for an event that is settled and whose target is
    visible. *)
Lemma process_event_settled ids e st :
  settled zones convert_aware var (synced_events st) e →
  (∀ l, l ∈ synced_events st → Link.discord_event_id l ∈ ids) →
  process_event zones convert_aware var net ids e st
  = (Ok tt, {| synced_events := synced_events st; calls := calls st;
               trace := trace st ++ [Unchanged e] |}).
Proof.
  intros (gid & sig & t & l & Hid & Hsig & Ht & F & Hl) Hids.
  destruct (find_link gid (synced_events st)) as [[i l0]|] eqn:F0; [|done].
  injection F as ->.
  assert (l ∈ synced_events st) as Hin.
  { apply find_link_gid in F0 as [Hi _]. by eapply list_elem_of_lookup_2. }
  unfold process_event.
  cbv [mbind M_bind get_store lift tell put_store save_synced_events
       mret M_ret].
  rewrite Hid, Hsig, Ht. simpl. rewrite F0.
  rewrite (bool_decide_eq_true_2 _ (Hids l Hin)). simpl.
  unfold Fingerprint.events_are_different. rewrite Hl, Hsig.
  by rewrite bool_decide_eq_true_2.
Qed.

Lemma for_each_settled ids l st :
  (∀ e, e ∈ l → settled zones convert_aware var (synced_events st) e) →
  (∀ x, x ∈ synced_events st → Link.discord_event_id x ∈ ids) →
  for_each l (process_event zones convert_aware var net ids) st
  = (Ok tt, {| synced_events := synced_events st; calls := calls st;
               trace := trace st ++ (Unchanged <$> l) |}).
Proof.
  revert st. induction l as [|e l IH]; intros st Hl Hids; simpl.
  - rewrite app_nil_r. by destruct st.
  - rewrite bind_run, process_event_settled; [|apply Hl; by left|done].
    rewrite IH; simpl; [|intros; apply Hl; by right|done].
    by rewrite <- app_assoc.
Qed.

(** Nothing is retired when every entry belongs to a filtered event. *)
Lemma for_each_retire_none gids l st :
  Forall (λ x, Link.google_event_id x ∈ gids) l →
  for_each l (retire_link net gids) st = (Ok tt, st).
Proof.
  induction 1 as [|x l Hx _ IH]; simpl; [done|].
  rewrite bind_run. unfold retire_link at 1.
  by rewrite (bool_decide_eq_true_2 _ Hx).
Qed.

(** *** A cycle in which every action goes through *)

Lemma bind_ok {A B} (m : M A) (f : A → M B) st b st' :
  (m ≫= f) st = (Ok b, st') →
  ∃ a st1, m st = (Ok a, st1) ∧ f a st1 = (Ok b, st').
Proof.
  rewrite bind_run. destruct (m st) as [[a|x] st1]; [|done]. eauto.
Qed.

Lemma outcomes_app a b : outcomes (a ++ b) = outcomes a ++ outcomes b.
Proof. apply omap_app. Qed.

Lemma process_event_keeps_settled ids e st r st' x :
  process_event zones convert_aware var net ids e st = (r, st') →
  event_id e ≠ event_id x →
  settled zones convert_aware var (synced_events st) x →
  settled zones convert_aware var (synced_events st') x.
Proof.
  intros [[-> _]|(g & sig & t & Hg & _ & _ & [(_ & _ & -> & _)|
            (a & rest & _ & _ & _ & _ & [(_ & _ & W)|[(_ & _ & ->)|
               (_ & _ & ->)]])])]%process_event_run Hne; try done.
  intros (gid & sig' & t' & l & Hid & Hsig & Ht & F & Hl).
  exists gid, sig', t', l. repeat split; try done.
  rewrite (written_other gid g sig _ _ W); [done|]. congruence.
Qed.

Lemma for_each_keeps_settled ids l st r st' x :
  for_each l (process_event zones convert_aware var net ids) st = (r, st') →
  event_id x ∉ event_id <$> l →
  settled zones convert_aware var (synced_events st) x →
  settled zones convert_aware var (synced_events st') x.
Proof.
  revert st. induction l as [|e l IH]; intros st; simpl.
  { by intros [= <- <-]. }
  rewrite bind_run. intros H Hx Hs.
  apply not_elem_of_cons in Hx as [Hne Hx].
  destruct (process_event zones convert_aware var net ids e st)
    as [[[]|y] st1] eqn:E.
  - eapply IH; [done..|]. by eapply process_event_keeps_settled.
  - injection H as <- <-. by eapply process_event_keeps_settled.
Qed.

Lemma process_event_settles ids e st st' new :
  process_event zones convert_aware var net ids e st = (Ok tt, st') →
  trace st' = trace st ++ new →
  Forall (λ ok, ok = true) (outcomes new) →
  settled zones convert_aware var (synced_events st') e.
Proof.
  intros [[_ ?]|(g & sig & t & Hg & Hsig & Ht & [(_ & _ & -> & i & l & F & _ & Hl)|
            (a & rest & Htr & _ & _ & _ & [(_ & _ & W)|[(Ho & _)|
               (_ & ? & _)]])])]%process_event_run Hnew Hall; try done.
  - exists g, sig, t, l. by rewrite F.
  - destruct (written_settles _ _ _ _ W) as (l & F & Hl).
    by exists g, sig, t, l.
  - rewrite Htr in Hnew. apply app_inv_head in Hnew as <-.
    simpl in Hall. rewrite Ho in Hall. by inv Hall.
Qed.

Lemma first_loop_settles ids l st st' new :
  for_each l (process_event zones convert_aware var net ids) st
  = (Ok tt, st') →
  NoDup (event_id <$> l) →
  trace st' = trace st ++ new →
  Forall (λ ok, ok = true) (outcomes new) →
  ∀ e, e ∈ l → settled zones convert_aware var (synced_events st') e.
Proof.
  revert st new. induction l as [|x l IH]; intros st new; simpl.
  { intros _ _ _ _ e []%elem_of_nil. }
  intros (a & st1 & E & H)%bind_ok Hnd Hnew Hall. destruct a.
  apply NoDup_cons in Hnd as [Hx Hnd].
  destruct (process_event_extends _ _ _ _ _ E) as [n0 H0].
  destruct (for_each_extends _ _ (process_event_extends ids) _ _ _ H)
    as [n1 H1].
  assert (new = n0 ++ n1) as ->.
  { rewrite H1, H0, <- app_assoc in Hnew. by apply app_inv_head in Hnew. }
  rewrite outcomes_app in Hall. apply Forall_app in Hall as [Hall0 Hall1].
  intros e [->|He]%elem_of_cons.
  - eapply for_each_keeps_settled; [done..|].
    by eapply process_event_settles.
  - by eapply IH.
Qed.

Lemma id_set_elem listed ids o :
  id_set listed = Ok ids → o ∈ listed → ∃ i, o = Some i ∧ i ∈ ids.
Proof.
  revert ids. induction listed as [|y listed IH]; intros ids; simpl.
  { intros _ []%elem_of_nil. }
  destruct y as [i|]; simpl; [|done].
  destruct (id_set listed) as [ids'|]; [|done]. intros [= <-].
  intros [->|Ho]%elem_of_cons.
  - exists i. split; [done|]. apply elem_of_union. left.
    by apply elem_of_singleton.
  - destruct (IH _ eq_refl Ho) as (j & -> & Hj). exists j.
    split; [done|]. apply elem_of_union. by right.
Qed.

Lemma retire_link_keeps_settled gids l st r st' x :
  retire_link net gids l st = (r, st') →
  (∀ gid, event_id x = Some gid → gid ∈ gids) →
  settled zones convert_aware var (synced_events st) x →
  settled zones convert_aware var (synced_events st') x.
Proof.
  intros [(_ & -> & _)|(Hout & rest & _ & _ & _ & [(R & _)|[-> _]])]
    %retire_link_run Hx; try done.
  intros (gid & sig & t & l0 & Hid & Hsig & Ht & F & Hl).
  exists gid, sig, t, l0. repeat split; try done.
  rewrite (find_link_remove_first gid _ _ _ R); [done|].
  intros Heq. apply Hout. rewrite Heq. by apply Hx.
Qed.

Lemma for_each_retire_keeps_settled gids l st r st' x :
  for_each l (retire_link net gids) st = (r, st') →
  (∀ gid, event_id x = Some gid → gid ∈ gids) →
  settled zones convert_aware var (synced_events st) x →
  settled zones convert_aware var (synced_events st') x.
Proof.
  revert st. induction l as [|y l IH]; intros st; simpl.
  { by intros [= <- <-]. }
  rewrite bind_run. intros H Hx Hs.
  destruct (retire_link net gids y st) as [[[]|z] st1] eqn:E.
  - eapply IH; [done..|]. by eapply retire_link_keeps_settled.
  - injection H as <- <-. by eapply retire_link_keeps_settled.
Qed.

Lemma remove_first_app x kept rest :
  x ∉ kept → remove_first x (kept ++ x :: rest) = Some (kept ++ rest).
Proof.
  intros Hx. induction kept as [|y kept IH]; simpl.
  - by rewrite bool_decide_eq_true_2.
  - apply not_elem_of_cons in Hx as [Hne Hx].
    rewrite bool_decide_eq_false_2 by done. by rewrite IH.
Qed.

(** The second loop, when it runs to its end, leaves only entries of
    filtered events. *)
Lemma for_each_retire_all gids kept rest st st' :
  synced_events st = kept ++ rest →
  Forall (λ x, Link.google_event_id x ∈ gids) kept →
  for_each rest (retire_link net gids) st = (Ok tt, st') →
  Forall (λ x, Link.google_event_id x ∈ gids) (synced_events st').
Proof.
  revert kept st. induction rest as [|y rest IH]; intros kept st Hs Hk; simpl.
  { intros [= <-]. by rewrite Hs, app_nil_r. }
  intros ([] & st1 & E & H)%bind_ok.
  apply retire_link_run in E
    as [(Hy & -> & _)|(Hy & tail & _ & _ & _ & [(R & _)|[_ ?]])]; [| |done].
  - apply (IH (kept ++ [y]) st); [by rewrite <- app_assoc| |done].
    apply Forall_app. split; [done|]. by apply Forall_singleton.
  - rewrite Hs, remove_first_app in R.
    + injection R as R. by apply (IH kept st1).
    + intros Hin. apply Hy.
      by apply (proj1 (Forall_forall _ _) Hk y).
Qed.

End WithWorld.

(** C10. A cycle keeps the store at one link at most per source id,
    however the platform answers and whether or not the cycle ends with an
    exception. *)
Theorem sync_events_loop_one_link zones convert_aware var net events st :
  one_link_per_source (synced_events st) →
  one_link_per_source
    (synced_events (sync_events_loop zones convert_aware var net events st)).
Proof.
  intros Hst. unfold sync_events_loop.
  pose proof (sync_events_body_one_link zones convert_aware var net
                events st Hst) as H.
  by destruct (sync_events_body zones convert_aware var net events st)
    as [[[]|x] st'].
Qed.

Lemma sync_events_loop_one_link_witness :
  one_link_per_source
    (synced_events
       (cycle (obliging ["d9"]) [holiday; standup]
          (with_store [stale_link]))).
Proof.
  apply (sync_events_loop_one_link DateTime.iana no_aware new_york_config
           (obliging ["d9"]) [holiday; standup] (with_store [stale_link])).
  unfold one_link_per_source. simpl. apply NoDup_singleton.
Defined.



Lemma planned_unchanged l : planned (Unchanged <$> l) = [].
Proof. induction l as [|e l IH]; [done|]. by csimpl. Qed.

(** What a cycle that ran to its end with every action going through
    leaves behind: every filtered event is settled, and every entry of the
    store belongs to a filtered event. *)
Lemma successful_cycle_settles zones convert_aware var net events st st' :
  NoDup (event_id <$> filtered var events) →
  sync_events_body zones convert_aware var net events st = (Ok tt, st') →
  (∃ new, trace st' = trace st ++ new
          ∧ Forall (λ ok, ok = true) (outcomes new)) →
  (∀ e, e ∈ filtered var events →
        settled zones convert_aware var (synced_events st') e)
  ∧ ∃ gids, id_set (event_id <$> filtered var events) = Ok gids
            ∧ Forall (λ x, Link.google_event_id x ∈ gids) (synced_events st').
Proof.
  intros Hnd H (new & Hnew & Hall). unfold sync_events_body in H.
  apply bind_ok in H as (listed & sta & Ea & H). cbv beta zeta in H.
  apply bind_ok in H as (ids & sta' & Eids & H).
  injection Eids as Eids <-.
  apply bind_ok in H as ([] & stb & Eb & H).
  apply bind_ok in H as (gids & stb' & Egids & H).
  injection Egids as Egids <-.
  apply bind_ok in H as (s & stb' & Es & H). injection Es as <- <-.
  destruct (get_discord_events_quietly net st) as (na & [_ Ha] & _ & Hoa & _).
  rewrite Ea in Ha. simpl in Ha.
  destruct (for_each_extends _ _
              (process_event_extends zones convert_aware var net ids)
              _ _ _ Eb) as [nb Hb].
  destruct (for_each_extends _ _ (retire_link_extends net gids) _ _ _ H)
    as [nc Hc].
  assert (new = na ++ nb ++ nc) as ->.
  { rewrite Hc, Hb, Ha, <- !app_assoc in Hnew. by apply app_inv_head in Hnew. }
  rewrite !outcomes_app in Hall.
  apply Forall_app in Hall as [_ [Hallb _]%Forall_app].
  split.
  - intros e He. eapply for_each_retire_keeps_settled; [done| |].
    + intros gid Hid.
      destruct (id_set_elem _ _ (Some gid) Egids) as (i & [= <-] & Hi);
        [|done].
      rewrite <- Hid. by apply list_elem_of_fmap_2.
    + by eapply first_loop_settles.
  - exists gids. split; [done|].
    by apply (for_each_retire_all net gids [] (synced_events stb) stb).
Qed.



End SyncFacts.

(** ** More on the filter *)

Module FilterProps.
Import PyStr Filter FilterKeys FilterFacts.

Lemma clause_absent (f : gmap string (list string)) key test :
  f !! key = None → clause f key test = false.
Proof. intros H. unfold clause. by rewrite H. Qed.

(** X1. A configuration that is not empty and has none of the seven keys
    that select events (it has exclusions only, or misspelt keys) makes
    no event eligible. *)
Theorem exclusions_alone_sync_nothing (f : gmap string (list string)) e :
  f ≠ ∅ →
  (∀ key, key ∈ inclusion_keys → f !! key = None) →
  should_sync_event (Some f) e = false.
Proof.
  intros Hne Hkeys. apply should_sync_event_no_inclusion; [done|].
  unfold matches_inclusion, title_contains, title_starts_with,
    title_ends_with, description_contains, location_contains,
    creator_email_is, attendee_email_in.
  rewrite !clause_absent; [done|..]; apply Hkeys; unfold inclusion_keys;
    set_solver.
Qed.

Lemma exclusions_alone_sync_nothing_witness :
  should_sync_event
    (Some {[ "exclude_title_contains" := ["private"] ]})
    Examples.standup = false.
Proof.
  apply exclusions_alone_sync_nothing.
  - apply map_non_empty_singleton.
  - intros key Hkey. unfold inclusion_keys in Hkey.
    repeat (apply elem_of_cons in Hkey as [->|Hkey]; [reflexivity|]).
    by apply elem_of_nil in Hkey.
Defined.

Lemma contains_empty s : contains "" s = true.
Proof. by destruct s. Qed.

Lemma startswith_empty s : startswith s "" = true.
Proof. by destruct s. Qed.

Lemma endswith_empty s : endswith s "" = true.
Proof. induction s as [|c s IH]; [done|]. simpl. by rewrite IH. Qed.

Lemma clause_present (f : gmap string (list string)) key test l x :
  f !! key = Some l → x ∈ l → test x = true → clause f key test = true.
Proof.
  intros H Hx Ht. unfold clause. rewrite H.
  apply existsb_exists. exists x. split; [|done].
  by apply list_elem_of_In.
Qed.

(** X2. An empty keyword under one of the keys that search a text makes
    every event eligible, an event without title, description or location
    included. *)
Theorem empty_keyword_matches_every_event
    (f : gmap string (list string)) key l e :
  key ∈ text_keys → f !! key = Some l → "" ∈ l →
  should_sync_event (Some f) e = true.
Proof.
  intros Hkey Hl Hin.
  rewrite should_sync_event_inclusion_only
    by (intros ->; by rewrite lookup_empty in Hl).
  unfold matches_inclusion. unfold text_keys in Hkey.
  repeat (apply elem_of_cons in Hkey as [->|Hkey]);
    [..|by apply elem_of_nil in Hkey].
  - unfold title_contains.
    rewrite (clause_present f "title_contains" _ l "" Hl Hin)
      by apply contains_empty.
    done.
  - unfold title_starts_with.
    rewrite (clause_present f "title_starts_with" _ l "" Hl Hin)
      by apply startswith_empty.
    by rewrite !orb_true_r.
  - unfold title_ends_with.
    rewrite (clause_present f "title_ends_with" _ l "" Hl Hin)
      by apply endswith_empty.
    by rewrite !orb_true_r.
  - unfold description_contains.
    rewrite (clause_present f "description_contains" _ l "" Hl Hin)
      by apply contains_empty.
    by rewrite !orb_true_r.
  - unfold location_contains.
    rewrite (clause_present f "location_contains" _ l "" Hl Hin)
      by apply contains_empty.
    by rewrite !orb_true_r.
Qed.

Lemma empty_keyword_matches_every_event_witness :
  should_sync_event (Some {[ "title_ends_with" := ["!"; ""] ]})
    Examples.bare_event = true.
Proof.
  apply (empty_keyword_matches_every_event _ "title_ends_with" ["!"; ""]).
  - unfold text_keys. set_solver.
  - reflexivity.
  - set_solver.
Defined.

Lemma lower_char_idem c : lower_char (lower_char c) = lower_char c.
Proof. destruct c as [[] [] [] [] [] [] [] []]; reflexivity. Qed.

Lemma lower_idem s : lower (lower s) = lower s.
Proof. induction s as [|c s IH]; [done|]. simpl. by rewrite lower_char_idem, IH. Qed.

Lemma get_str_lower o : lower (get_str (lower <$> o)) = lower (get_str o).
Proof. destruct o; simpl; [apply lower_idem|done]. Qed.

Lemma clause_lower (f : gmap string (list string)) key (test : string → bool) :
  clause (map lower <$> f) key (λ k, test (lower k))
  = clause f key (λ k, test (lower k)).
Proof.
  unfold clause. rewrite lookup_fmap.
  destruct (f !! key) as [l|]; simpl; [|done].
  induction l as [|x l IH]; [done|]. simpl. by rewrite lower_idem, IH.
Qed.

Lemma creator_email_lower e : creator_email (lower_event e) = creator_email e.
Proof.
  unfold creator_email. simpl.
  destruct (creator e) as [[m]|]; simpl; [|done]. apply get_str_lower.
Qed.

Lemma attendee_emails_lower e :
  attendee_emails (lower_event e) = attendee_emails e.
Proof.
  unfold attendee_emails. simpl.
  destruct (attendees e) as [l|]; simpl; [|done].
  induction l as [|[m] l IH]; [done|]. simpl. by rewrite get_str_lower, IH.
Qed.

(** X3. The decision does not depend on the case of the keywords nor on
    the case of the title, description, location and addresses of the
    event. *)
Theorem should_sync_event_ignores_case fs e :
  should_sync_event (lower_filters fs) (lower_event e)
  = should_sync_event fs e.
Proof.
  destruct fs as [f|]; [|done]. simpl.
  destruct (decide (f = ∅)) as [->|Hne]; [done|].
  rewrite (bool_decide_eq_false_2 (f = ∅)) by done.
  rewrite bool_decide_eq_false_2 by (by intros ?%fmap_empty_inv).
  unfold filtered_decision, title_contains, title_starts_with,
    title_ends_with, description_contains, location_contains,
    creator_email_is, attendee_email_in, exclude_title_contains,
    exclude_description_contains.
  rewrite creator_email_lower, attendee_emails_lower. simpl.
  rewrite !get_str_lower.
  rewrite (clause_lower f "title_contains"
             (λ k, contains k (lower (get_str (summary e))))).
  rewrite (clause_lower f "title_starts_with"
             (λ k, startswith (lower (get_str (summary e))) k)).
  rewrite (clause_lower f "title_ends_with"
             (λ k, endswith (lower (get_str (summary e))) k)).
  rewrite (clause_lower f "description_contains"
             (λ k, contains k (lower (get_str (description e))))).
  rewrite (clause_lower f "location_contains"
             (λ k, contains k (lower (get_str (location e))))).
  rewrite (clause_lower f "creator_email"
             (λ k, String.eqb k (creator_email e))).
  rewrite (clause_lower f "attendee_email"
             (λ k, mem k (attendee_emails e))).
  rewrite (clause_lower f "exclude_title_contains"
             (λ k, contains k (lower (get_str (summary e))))).
  rewrite (clause_lower f "exclude_description_contains"
             (λ k, contains k (lower (get_str (description e))))).
  reflexivity.
Qed.

End FilterProps.

(** ** More on hyperlink normalisation *)

Module HtmlProps.
Import PyStr Html HtmlSpec StrFacts HtmlFacts.

Lemma markup_length a :
  well_formed a = true →
  (String.length (url a) + String.length (text a) + 15
   <= String.length (markup a))%nat.
Proof.
  intros H. split_wf H. unfold markup. rewrite !length_app.
  rewrite <- (length_lower (tag a)), H.
  rewrite <- (length_lower (href a)), W5.
  rewrite <- (length_lower (close a)), W.
  destruct (space a); [done|].
  change (String.length (q "href='")) with 6%nat.
  change (String.length (q "'")) with 1%nat.
  simpl. lia.
Qed.

(** X4. Every anchor that is rewritten makes the text shorter by twelve
    characters at least: the result is never longer than the description,
    and when it differs from it, it is shorter by twelve or more. *)
Theorem parse_html_links_shortens s :
  (String.length (parse_html_links s) <= String.length s)%nat
  ∧ (parse_html_links s ≠ s →
     (String.length (parse_html_links s) + 12 <= String.length s)%nat).
Proof.
  remember (String.length s) as n eqn:Hn.
  revert s Hn. induction (lt_wf n) as [n _ IH]. intros s ->.
  destruct s as [|c s]; [by split|].
  destruct (match_link (String c s)) as [[[u t] rest]|] eqn:E.
  - rewrite (parse_html_links_link _ _ _ _ _ E).
    pose proof (match_link_shorter _ _ _ _ E) as Hlt.
    apply match_link_sound in E as (a & Ha & <- & <- & Hs).
    destruct (IH _ Hlt rest eq_refl) as [Hle _].
    pose proof (markup_length a Ha) as Hm.
    rewrite Hs, !length_app. simpl. split; [lia|]. intros _. lia.
  - rewrite (parse_html_links_char _ _ E).
    destruct (IH (String.length s) (Nat.lt_succ_diag_r _) s eq_refl)
      as [Hle Hne].
    simpl. split; [lia|]. intros H.
    assert (parse_html_links s ≠ s) as H' by congruence.
    specialize (Hne H'). lia.
Qed.

Lemma parse_html_links_shortens_witness :
  (String.length (parse_html_links (q "see <a href='u'>t</a>")) + 12
   <= String.length (q "see <a href='u'>t</a>"))%nat.
Proof.
  apply (proj2 (parse_html_links_shortens (q "see <a href='u'>t</a>"))).
  vm_compute. discriminate.
Defined.

End HtmlProps.

(** ** More on conversions and fingerprints *)

Module ConvertProps.
Import PyStr DateTime StrFacts DateTimeFacts Fingerprint.
Open Scope Z_scope.

(** The two calls that the program makes take the branch for texts
    without an offset, whatever the date text is. *)
Lemma convert_suffix zones ca1 ca2 var s :
  convert zones ca1 var (s ++ "T00:00:00")
  = convert zones ca2 var (s ++ "T00:00:00")
  ∧ convert zones ca1 var (s ++ "T23:59:59")
    = convert zones ca2 var (s ++ "T23:59:59").
Proof.
  unfold convert, convert_utc_to_timezone.
  by rewrite (proj1 (has_timezone_info_suffix s)),
    (proj2 (has_timezone_info_suffix s)).
Qed.

Lemma event_times_branch zones ca1 ca2 var e :
  event_times zones ca1 var e = event_times zones ca2 var e.
Proof.
  unfold event_times.
  destruct (subscript "start" (start e)) as [st|]; [|done].
  destruct (subscript "end" (end_ e)) as [en|]; [|done].
  destruct (date st) as [d|]; [|done].
  destruct (convert_suffix zones ca1 ca2 var (default d (dateTime st)))
    as [-> ->].
  done.
Qed.

(** X5. Every text that the program gives to [convert_utc_to_timezone]
    ends in T00:00:00 or T23:59:59 and so takes the branch for texts
    without an offset: the fingerprint, the comparison with a stored
    fingerprint and the payload are the same whatever the branch that
    converts from UTC would return. *)
Theorem offset_branch_never_taken zones ca1 ca2 var e stored :
  get_event_signature zones ca1 var e = get_event_signature zones ca2 var e
  ∧ events_are_different zones ca1 var e stored
    = events_are_different zones ca2 var e stored
  ∧ Sync.build_payload zones ca1 var e = Sync.build_payload zones ca2 var e.
Proof.
  unfold events_are_different, get_event_signature, Sync.build_payload.
  rewrite (event_times_branch zones ca1 ca2). done.
Qed.

(** X6. The times of an event whose start has no [date] are taken as the
    calendar delivers them: the fingerprint is the same under every
    configuration and zone database, its start is the [dateTime] of the
    start and its end the [dateTime], or else the [date], of the end. *)
Theorem timed_event_ignores_timezone zones1 zones2 ca1 ca2 var1 var2 e st :
  start e = Some st → date st = None →
  get_event_signature zones1 ca1 var1 e
  = get_event_signature zones2 ca2 var2 e
  ∧ ∀ sig, get_event_signature zones1 ca1 var1 e = Ok sig →
      Sig.start_time sig = dateTime st
      ∧ Sig.end_time sig = (end_ e ≫= time_of).
Proof.
  intros Hs Hd. unfold get_event_signature, event_times.
  rewrite Hs. simpl. destruct (end_ e) as [en|]; simpl; [|done].
  rewrite Hd. split; [done|]. intros sig [= <-]. simpl.
  unfold time_of. rewrite Hd. by destruct (dateTime st).
Qed.

Lemma timed_event_ignores_timezone_witness :
  get_event_signature iana Examples.no_aware Examples.new_york_config
    Examples.standup
  = get_event_signature (fun _ => None) Examples.no_aware
      {| TIMEZONE := "Europe/Paris"; DISCORD_CHANNEL_ID := "c2";
         EVENT_FILTERS := None |} Examples.standup.
Proof.
  apply (timed_event_ignores_timezone iana (fun _ => None) Examples.no_aware
           Examples.no_aware Examples.new_york_config _ Examples.standup
           (Examples.timed "2026-07-15T09:00:00-04:00"));
    reflexivity.
Defined.

Lemma format_offset_utc : format_offset 0 = "+00:00".
Proof. reflexivity. Qed.

(** X7. When the configured zone is not known, a whole-day event gets the
    offset of UTC at both ends. *)
Theorem unknown_zone_falls_back_to_utc zones ca var e st en y m d :
  zones (TIMEZONE var) = None →
  start e = Some st → end_ e = Some en →
  dateTime st = None → date st = Some (iso_date y m d) →
  1 <= y <= 9999 → 1 <= m <= 12 → 1 <= d <= days_in_month y m →
  ∃ sig, get_event_signature zones ca var e = Ok sig
    ∧ Sig.start_time sig = Some (iso_date y m d ++ "T00:00:00+00:00")
    ∧ Sig.end_time sig = Some (iso_date y m d ++ "T23:59:59+00:00").
Proof.
  intros Hz Hs He Hdt Hd Hy Hm Hday.
  unfold get_event_signature, event_times. rewrite Hs, He. simpl.
  rewrite Hd, Hdt. simpl. eexists. split; [reflexivity|]. simpl.
  unfold convert, convert_utc_to_timezone. rewrite Hz.
  rewrite (proj1 (has_timezone_info_suffix _)),
    (proj2 (has_timezone_info_suffix _)).
  change (iso_date y m d ++ "T00:00:00") with
    (format_naive {| year := y; month := m; day := d;
                     hour := 0; minute := 0; second := 0 |}).
  change (iso_date y m d ++ "T23:59:59") with
    (format_naive {| year := y; month := m; day := d;
                     hour := 23; minute := 59; second := 59 |}).
  rewrite !fromisoformat_format_naive by (unfold valid; simpl; lia).
  unfold isoformat, utc, format_naive. rewrite format_offset_utc. simpl.
  by rewrite !app_assoc.
Qed.

Lemma unknown_zone_falls_back_to_utc_witness :
  ∃ sig, get_event_signature (fun _ => None) Examples.no_aware
           Examples.new_york_config Examples.holiday = Ok sig
    ∧ Sig.start_time sig = Some (iso_date 2026 7 15 ++ "T00:00:00+00:00")
    ∧ Sig.end_time sig = Some (iso_date 2026 7 15 ++ "T23:59:59+00:00").
Proof.
  apply (unknown_zone_falls_back_to_utc (fun _ => None) Examples.no_aware
           Examples.new_york_config Examples.holiday
           (Examples.whole_day "2026-07-15")
           (Examples.whole_day "2026-07-16") 2026 7 15).
  - reflexivity.
  - reflexivity.
  - reflexivity.
  - reflexivity.
  - vm_compute. reflexivity.
  - lia.
  - lia.
  - vm_compute. intuition congruence.
Defined.

(** A date and time of the layout with a year, month or day that no
    calendar has is not read. *)
Lemma fromisoformat_impossible y m d hh mm ss :
  0 <= y <= 9999 → 0 <= m <= 99 → 0 <= d <= 99 →
  0 <= hh <= 23 → 0 <= mm <= 59 → 0 <= ss <= 59 →
  ¬ (1 <= y ∧ 1 <= m <= 12 ∧ 1 <= d <= days_in_month y m) →
  fromisoformat
    (format_naive {| year := y; month := m; day := d;
                     hour := hh; minute := mm; second := ss |}) = None.
Proof.
  intros Hy Hm Hd Hh Hmi Hs Hbad.
  unfold format_naive, iso_date, pad4, pad2. simpl.
  repeat (rewrite app_cons || rewrite app_empty_l).
  unfold fromisoformat.
  cbn -[digits digit_char days_in_month Z.leb].
  change (String (digit_char (y / 1000)) _) with (pad4 y).
  change (String (digit_char (m / 10)) _) with (pad2 m).
  change (String (digit_char (d / 10)) _) with (pad2 d).
  change (String (digit_char (hh / 10)) _) with (pad2 hh).
  change (String (digit_char (mm / 10)) _) with (pad2 mm).
  change (String (digit_char (ss / 10)) _) with (pad2 ss).
  rewrite digits_pad4, !digits_pad2 by lia.
  cbn -[days_in_month Z.leb].
  destruct ((1 <=? y) && (1 <=? m) && (m <=? 12) && (1 <=? d)
            && (d <=? days_in_month y m) && (hh <=? 23) && (mm <=? 59)
            && (ss <=? 59)) eqn:E; [|done].
  repeat (apply andb_prop in E as [E ?]). destruct Hbad. lia.
Qed.

(** X8. When the date of a whole-day event is of the layout but is no day
    of the calendar, the conversion fails and is swallowed: the times of
    the fingerprint are the date followed by T00:00:00 and T23:59:59, with
    no offset. *)
Theorem impossible_date_keeps_text zones ca var e st en y m d :
  start e = Some st → end_ e = Some en →
  dateTime st = None → date st = Some (iso_date y m d) →
  0 <= y <= 9999 → 0 <= m <= 99 → 0 <= d <= 99 →
  ¬ (1 <= y ∧ 1 <= m <= 12 ∧ 1 <= d <= days_in_month y m) →
  ∃ sig, get_event_signature zones ca var e = Ok sig
    ∧ Sig.start_time sig = Some (iso_date y m d ++ "T00:00:00")
    ∧ Sig.end_time sig = Some (iso_date y m d ++ "T23:59:59").
Proof.
  intros Hs He Hdt Hd Hy Hm Hday Hbad.
  unfold get_event_signature, event_times. rewrite Hs, He. simpl.
  rewrite Hd, Hdt. simpl. eexists. split; [reflexivity|]. simpl.
  unfold convert, convert_utc_to_timezone.
  rewrite (proj1 (has_timezone_info_suffix _)),
    (proj2 (has_timezone_info_suffix _)).
  change (iso_date y m d ++ "T00:00:00") with
    (format_naive {| year := y; month := m; day := d;
                     hour := 0; minute := 0; second := 0 |}).
  change (iso_date y m d ++ "T23:59:59") with
    (format_naive {| year := y; month := m; day := d;
                     hour := 23; minute := 59; second := 59 |}).
  by rewrite !fromisoformat_impossible by (done || lia).
Qed.

Lemma impossible_date_keeps_text_witness :
  ∃ sig, get_event_signature iana Examples.no_aware
           Examples.new_york_config Examples.impossible_day = Ok sig
    ∧ Sig.start_time sig = Some (iso_date 2026 2 30 ++ "T00:00:00")
    ∧ Sig.end_time sig = Some (iso_date 2026 2 30 ++ "T23:59:59").
Proof.
  apply (impossible_date_keeps_text iana Examples.no_aware
           Examples.new_york_config Examples.impossible_day
           (Examples.whole_day "2026-02-30")
           (Examples.whole_day "2026-02-31") 2026 2 30).
  - reflexivity.
  - reflexivity.
  - reflexivity.
  - vm_compute. reflexivity.
  - lia.
  - lia.
  - lia.
  - vm_compute. intuition congruence.
Defined.

End ConvertProps.

(** ** The payload *)

Module PayloadProps.
Import PyStr Fingerprint Sync.

(** X9. What is sent to the platform for an event agrees with its
    fingerprint: the name is the title of the event, the description and
    the two times are those of the fingerprint, and the event goes to the
    configured voice channel exactly when the fingerprint says it is a
    Discord event, otherwise to its location or to [External Event]. An
    event without a title has a fingerprint and no payload: building the
    payload raises the key error. *)
Theorem payload_agrees_with_fingerprint zones ca var e :
  (∀ p, build_payload zones ca var e = Ok p →
     ∃ sig, get_event_signature zones ca var e = Ok sig
       ∧ summary e = Some (name p)
       ∧ Sig.title sig = name p
       ∧ Sig.description sig = payload_description p
       ∧ Sig.start_time sig = scheduled_start_time p
       ∧ Sig.end_time sig = scheduled_end_time p
       ∧ entity_type p = (if Sig.is_discord_event sig then 2 else 3)%Z
       ∧ channel_id p
         = (if Sig.is_discord_event sig
            then Some (DISCORD_CHANNEL_ID var) else None)
       ∧ entity_metadata p
         = (if Sig.is_discord_event sig then None
            else Some (default "External Event" (location e))))
  ∧ (∀ sig, get_event_signature zones ca var e = Ok sig →
       summary e = None →
       build_payload zones ca var e = Raise (KeyError "summary")).
Proof.
  unfold build_payload, get_event_signature.
  destruct (event_times zones ca var e) as [[a b]|x]; [|by split].
  split.
  - intros p. destruct (summary e) as [t|]; simpl; [|done].
    intros [= <-]. eexists. split; [reflexivity|]. simpl. done.
  - intros sig _ ->. done.
Qed.

Lemma payload_agrees_with_fingerprint_witness :
  ∃ sig, get_event_signature DateTime.iana Examples.no_aware
           Examples.new_york_config Examples.standup = Ok sig
    ∧ summary Examples.standup = Some "Stand-up"
    ∧ Sig.title sig = "Stand-up"
    ∧ Sig.description sig = "notes"
    ∧ Sig.start_time sig = Some "2026-07-15T09:00:00-04:00"
    ∧ Sig.end_time sig = Some "2026-07-15T09:15:00-04:00"
    ∧ 2%Z = (if Sig.is_discord_event sig then 2 else 3)%Z
    ∧ Some "c1"
      = (if Sig.is_discord_event sig
         then Some (DISCORD_CHANNEL_ID Examples.new_york_config) else None)
    ∧ None
      = (if Sig.is_discord_event sig then None
         else Some (default "External Event" (location Examples.standup))).
Proof.
  apply (proj1 (payload_agrees_with_fingerprint DateTime.iana
                  Examples.no_aware Examples.new_york_config
                  Examples.standup)
           {| name := "Stand-up"; payload_description := "notes";
              scheduled_start_time := Some "2026-07-15T09:00:00-04:00";
              scheduled_end_time := Some "2026-07-15T09:15:00-04:00";
              privacy_level := 2; entity_type := 2;
              channel_id := Some "c1"; entity_metadata := None |}).
  reflexivity.
Defined.

End PayloadProps.

(** ** The executor under rate limits *)

Module RetryProps.
Import Sync Examples StoreSpec CycleSpec SyncFacts.
#[local] Open Scope list_scope.

Section WithWorld.
Variable zones : DateTime.zone_db.
Variable convert_aware : string -> DateTime.tzinfo -> string.
Variable var : config.
Variable net : nat -> response.

Lemma retry_stops r n resp st :
  n = 0%nat ∨ status_code resp ≠ 429%Z →
  retry net r n resp st = (Ok resp, st).
Proof.
  intros [->|H]; [done|]. destruct n; [done|]. simpl.
  by rewrite (proj2 (Z.eqb_neq _ _) H).
Qed.

Lemma retry_run r ws : ∀ n c st,
  calls st = S c → (length ws ≤ n)%nat →
  (∀ j w, ws !! j = Some w → rate_limits (net (c + j)) w) →
  length ws = n ∨ status_code (net (c + length ws)) ≠ 429%Z →
  retry net r n (net c) st
  = (Ok (net (c + length ws)),
     {| synced_events := synced_events st;
        calls := calls st + length ws;
        trace := trace st ++ retries r ws |}).
Proof.
  induction ws as [|w ws IH]; intros n c st Hc Hn Hws Hend.
  - simpl in *. rewrite Nat.add_0_r in *. rewrite retry_stops.
    + destruct st. simpl. by rewrite Nat.add_0_r, app_nil_r.
    + destruct Hend as [<-|?]; auto.
  - destruct n as [|n]; [simpl in Hn; lia|].
    destruct (Hws 0%nat w eq_refl) as (H429 & Hw & Hpos).
    rewrite Nat.add_0_r in H429, Hw.
    rewrite (retry_again net r n _ w st H429 Hw Hpos), Hc.
    rewrite (IH n (S c)).
    + simpl. f_equal; [f_equal; f_equal; lia|].
      f_equal; [lia|]. by rewrite <- app_assoc.
    + done.
    + simpl in Hn. lia.
    + intros j w' Hj. replace (S c + j)%nat with (c + S j)%nat by lia.
      by apply Hws.
    + simpl in Hend. replace (S c + length ws)%nat
        with (c + S (length ws))%nat by lia.
      destruct Hend as [?|?]; [left; lia|by right].
Qed.

(** A create or an update whose first answers are rate limits: the
    request is sent again after each wait, and the answer that ends the
    loop decides the result. *)
Lemma create_or_update_run e d data ws st :
  build_payload zones convert_aware var e = Ok data →
  (length ws ≤ 3)%nat →
  (∀ j w, ws !! j = Some w → rate_limits (net (calls st + j)) w) →
  let final := net (calls st + length ws) in
  length ws = 3%nat ∨ status_code final ≠ 429%Z →
  create_or_update_discord_event zones convert_aware var net e d st
  = (if (status_code final =? 200)%Z || (status_code final =? 201)%Z
     then match content final with
          | JsonObject _ id => mret id
          | NotJson => raise JSONDecodeError
          | JsonList _ => raise AttributeError
          end
     else mret None)
      {| synced_events := synced_events st;
         calls := calls st + length ws + 1;
         trace := trace st ++ Sent (upsert d data)
                    :: retries (upsert d data) ws ++ [Slept (2 # 1)] |}.
Proof.
  intros Hdata Hlen Hws final Hend. unfold create_or_update_discord_event.
  rewrite bind_run. unfold lift at 1. rewrite Hdata. cbv beta iota zeta.
  fold (upsert d data). rewrite bind_run. unfold send at 1.
  cbv beta iota. rewrite bind_run.
  rewrite (retry_run (upsert d data) ws max_retries (calls st));
    [|done|done|done|done].
  cbv beta iota. rewrite bind_run. unfold sleep. simpl.
  fold final.
  replace (S (calls st + length ws))%nat
    with (calls st + length ws + 1)%nat by lia.
  by rewrite <- !app_assoc.
Qed.

End WithWorld.

(** X10. A create or an update that is answered 429 at first: after each
    such answer the executor waits as the answer asks and sends the same
    request again, three times at most; then it waits two seconds. When
    the answer that ends the loop is 200 or 201 the result is the id it
    carries; when it is anything else, a fourth 429 included, the result
    is [None]. The store is not touched. *)
Theorem create_or_update_after_rate_limits
    zones convert_aware var net e d data ws st :
  build_payload zones convert_aware var e = Ok data →
  (length ws ≤ 3)%nat →
  (∀ j w, ws !! j = Some w → rate_limits (net (calls st + j)) w) →
  let final := net (calls st + length ws) in
  let st' := {| synced_events := synced_events st;
                calls := calls st + length ws + 1;
                trace := trace st ++ Sent (upsert d data)
                           :: retries (upsert d data) ws
                           ++ [Slept (2 # 1)] |} in
  (status_code final = 200%Z ∨ status_code final = 201%Z →
   ∀ hint id, content final = JsonObject hint id →
     create_or_update_discord_event zones convert_aware var net e d st
     = (Ok id, st'))
  ∧ (status_code final ≠ 200%Z → status_code final ≠ 201%Z →
     length ws = 3%nat ∨ status_code final ≠ 429%Z →
     create_or_update_discord_event zones convert_aware var net e d st
     = (Ok None, st')).
Proof.
  intros Hdata Hlen Hws final st'. split.
  - intros Hok hint id Hbody.
    rewrite (create_or_update_run zones convert_aware var net e d data ws st
               Hdata Hlen Hws).
    + fold final. rewrite Hbody. by destruct Hok as [-> | ->].
    + right. fold final. destruct Hok as [-> | ->]; done.
  - intros H200 H201 Hend.
    rewrite (create_or_update_run zones convert_aware var net e d data ws st
               Hdata Hlen Hws Hend).
    fold final.
    by rewrite (proj2 (Z.eqb_neq _ _) H200), (proj2 (Z.eqb_neq _ _) H201).
Qed.

Lemma create_or_update_after_rate_limits_witness :
  create_or_update_discord_event DateTime.iana no_aware new_york_config
    (recovering created) holiday None fresh
  = (Ok (Some "d7"),
     {| synced_events := []; calls := 0 + 2 + 1;
        trace := [] ++ Sent (upsert None holiday_payload)
                   :: retries (upsert None holiday_payload) [3 # 2; 3 # 2]
                   ++ [Slept (2 # 1)] |}).
Proof.
  apply (proj1 (create_or_update_after_rate_limits DateTime.iana no_aware
                  new_york_config (recovering created) holiday None
                  holiday_payload [3 # 2; 3 # 2] fresh
                  ltac:(vm_compute; reflexivity)
                  ltac:(simpl; lia)
                  ltac:(intros [|[|j]] w [= <-]; repeat split))
           (or_intror eq_refl) None (Some "d7") eq_refl).
Defined.

(** X11. A delete that is answered 429 at first is sent again after each
    wait, three times at most; after two more seconds the delete counts as
    done exactly when the answer that ends the loop is 204. *)
Theorem delete_after_rate_limits net did ws st :
  (length ws ≤ 3)%nat →
  (∀ j w, ws !! j = Some w → rate_limits (net (calls st + j)) w) →
  let final := net (calls st + length ws) in
  let r := {| method := DELETE; url_event_id := Some did; json := None |} in
  length ws = 3%nat ∨ status_code final ≠ 429%Z →
  delete_discord_event net did st
  = (Ok tt,
     {| synced_events := synced_events st;
        calls := calls st + length ws + 1;
        trace := trace st ++ Sent r :: retries r ws
                   ++ [Slept (2 # 1);
                       Outcome (status_code final =? 204)%Z] |}).
Proof.
  intros Hlen Hws final r Hend. unfold delete_discord_event.
  fold r. rewrite bind_run. unfold send at 1. cbv beta iota.
  rewrite bind_run.
  rewrite (retry_run net r ws max_retries (calls st)); [|done|done|done|done].
  cbv beta iota. rewrite bind_run. unfold sleep, tell. simpl.
  fold final.
  replace (S (calls st + length ws))%nat
    with (calls st + length ws + 1)%nat by lia.
  by rewrite <- !app_assoc.
Qed.

Lemma delete_after_rate_limits_witness :
  delete_discord_event (recovering deleted) "d9" fresh
  = (Ok tt,
     {| synced_events := []; calls := 0 + 2 + 1;
        trace :=
          [] ++ Sent {| method := DELETE; url_event_id := Some "d9";
                        json := None |}
             :: retries {| method := DELETE; url_event_id := Some "d9";
                           json := None |} [3 # 2; 3 # 2]
             ++ [Slept (2 # 1); Outcome true] |}).
Proof.
  apply (delete_after_rate_limits (recovering deleted) "d9" [3 # 2; 3 # 2]
           fresh).
  - simpl. lia.
  - intros [|[|j]] w [= <-]; repeat split.
  - right. vm_compute. discriminate.
Defined.

End RetryProps.

(** ** More on the cycle *)

Module CycleProps.
Import Sync Examples StoreSpec CycleSpec SyncFacts RetryProps.
#[local] Open Scope list_scope.

Lemma on_disk_app s0 t u : on_disk s0 (t ++ u) = on_disk (on_disk s0 t) u.
Proof. apply fold_left_app. Qed.

Section Disk.
Variable zones : DateTime.zone_db.
Variable convert_aware : string -> DateTime.tzinfo -> string.
Variable var : config.
Variable net : nat -> response.
Variable s0 : store.

#[local] Abbreviation in_step := (CycleSpec.in_step s0).
#[local] Abbreviation keeps := (CycleSpec.keeps s0).

Lemma keeps_bind {A B} (m : M A) (f : A → M B) :
  keeps m → (∀ a, keeps (f a)) → keeps (m ≫= f).
Proof. intros Hm Hf. exact (inv_bind in_step m f Hm Hf). Qed.

Lemma keeps_ret {A} (a : A) : keeps (mret a).
Proof. by intros st. Qed.

Lemma keeps_raise {A} x : keeps (@raise A x).
Proof. by intros st. Qed.

Lemma keeps_lift {A} (r : result A) : keeps (lift r).
Proof. by intros st. Qed.

Lemma keeps_get_store : keeps get_store.
Proof. by intros st. Qed.

Lemma keeps_tell i :
  (∀ s, i ≠ Saved s) → keeps (tell i).
Proof.
  intros Hi st Hst. unfold in_step in *. simpl.
  rewrite on_disk_app, Hst. destruct i; try done. by destruct (Hi doc).
Qed.

Lemma keeps_send r : keeps (send net r).
Proof.
  intros st Hst. unfold in_step in *. simpl. by rewrite on_disk_app, Hst.
Qed.

Lemma keeps_sleep d : keeps (sleep d).
Proof.
  unfold sleep. destruct (Qle_bool 0 d); [|apply keeps_raise].
  by apply keeps_tell.
Qed.

Lemma keeps_retry r n resp : keeps (retry net r n resp).
Proof.
  revert resp. induction n as [|n IH]; intros resp; simpl.
  - apply keeps_ret.
  - destruct (status_code resp =? 429)%Z; [|apply keeps_ret].
    destruct (content resp);
      repeat first [apply keeps_bind; [|intros ?] | apply keeps_sleep
                   | apply keeps_send | apply keeps_raise | apply IH].
Qed.

Lemma keeps_create_or_update e d :
  keeps (create_or_update_discord_event zones convert_aware var net e d).
Proof.
  unfold create_or_update_discord_event.
  repeat first [apply keeps_bind; [|intros ?] | apply keeps_sleep
               | apply keeps_send | apply keeps_lift | apply keeps_retry].
  destruct (_ || _); [|apply keeps_ret].
  destruct (content _); first [apply keeps_ret | apply keeps_raise].
Qed.

Lemma keeps_delete did : keeps (delete_discord_event net did).
Proof.
  unfold delete_discord_event.
  repeat first [apply keeps_bind; [|intros ?] | apply keeps_sleep
               | apply keeps_send | apply keeps_retry].
  by apply keeps_tell.
Qed.

Lemma keeps_get_discord_events : keeps (get_discord_events net).
Proof.
  unfold get_discord_events. apply keeps_bind; [apply keeps_send|].
  intros resp. destruct (status_code resp =? 200)%Z; [|apply keeps_ret].
  destruct (content resp); first [apply keeps_ret | apply keeps_raise].
Qed.

(** Writing the store and saving it at once brings the file in step,
    whatever it held. *)
Lemma put_and_save s st :
  in_step ((put_store s ≫= λ _, save_synced_events) st).2.
Proof.
  unfold in_step. cbv [mbind M_bind put_store save_synced_events get_store tell].
  simpl. by rewrite on_disk_app.
Qed.

Lemma keeps_put_and_save s : keeps (put_store s ≫= λ _, save_synced_events).
Proof. intros st _. apply put_and_save. Qed.

Lemma keeps_for_each {A} (f : A → M unit) l :
  (∀ x, keeps (f x)) → keeps (for_each l f).
Proof. intros Hf. exact (inv_for_each in_step f l Hf). Qed.

Lemma keeps_process_event ids e :
  keeps (process_event zones convert_aware var net ids e).
Proof.
  unfold process_event.
  do 4 (apply keeps_bind;
        [first [apply keeps_lift | apply keeps_get_store]|intros ?]).
  destruct (find_link _ _) as [[i l]|].
  - destruct (negb _).
    + apply keeps_bind; [by apply keeps_tell|intros _].
      apply keeps_bind; [apply keeps_create_or_update|intros new_id].
      apply keeps_bind; [by apply keeps_tell|intros _].
      apply keeps_bind; [|intros _; apply keeps_sleep].
      destruct (truthy new_id); [apply keeps_put_and_save|apply keeps_ret].
    + apply keeps_bind; [apply keeps_lift|intros changed].
      destruct changed; [|by apply keeps_tell].
      apply keeps_bind; [by apply keeps_tell|intros _].
      apply keeps_bind; [apply keeps_create_or_update|intros new_id].
      apply keeps_bind; [by apply keeps_tell|intros _].
      apply keeps_bind; [|intros _; apply keeps_sleep].
      destruct (truthy new_id); [apply keeps_put_and_save|apply keeps_ret].
  - apply keeps_bind; [by apply keeps_tell|intros _].
    apply keeps_bind; [apply keeps_create_or_update|intros new_id].
    apply keeps_bind; [by apply keeps_tell|intros _].
    destruct (truthy new_id); [apply keeps_put_and_save|apply keeps_ret].
Qed.

Lemma keeps_retire_link gids l : keeps (retire_link net gids l).
Proof.
  unfold retire_link. destruct (negb _); [|apply keeps_ret].
  apply keeps_bind; [by apply keeps_tell|intros _].
  apply keeps_bind; [apply keeps_delete|intros _].
  apply keeps_bind; [apply keeps_get_store|intros s].
  destruct (remove_first l s) as [s'|]; [|apply keeps_raise].
  intros st _. unfold CycleSpec.in_step.
  cbv [mbind M_bind put_store save_synced_events get_store tell sleep].
  simpl. by rewrite !on_disk_app.
Qed.

Lemma keeps_sync_events_body events :
  keeps (sync_events_body zones convert_aware var net events).
Proof.
  unfold sync_events_body.
  apply keeps_bind; [apply keeps_get_discord_events|intros discord_events].
  apply keeps_bind; [apply keeps_lift|intros ids].
  apply keeps_bind;
    [apply keeps_for_each; intros e; apply keeps_process_event|intros _].
  apply keeps_bind; [apply keeps_lift|intros gids].
  apply keeps_bind; [apply keeps_get_store|intros s].
  apply keeps_for_each. intros l. apply keeps_retire_link.
Qed.

End Disk.



(** *** Which links a cycle retires *)

Lemma id_set_spec l ids i :
  id_set l = Ok ids → i ∈ ids ↔ Some i ∈ l.
Proof.
  revert ids. induction l as [|o l IH]; intros ids; simpl.
  - intros [= <-]. split; [by intros ?%not_elem_of_empty|by intros ?%elem_of_nil].
  - destruct o as [j|]; simpl; [|done].
    destruct (id_set l) as [s|]; [|done]. intros [= <-].
    rewrite elem_of_union, elem_of_singleton, elem_of_cons, (IH s eq_refl).
    split; intros [?|?]; auto; [left; congruence|left; congruence].
Qed.

(** X13. After a cycle that ran to its end, every link of the store
    belongs to an event that passed the filter in that cycle: the links of
    the other events are gone, whether or not their deletion went
    through. *)
Theorem complete_cycle_keeps_filtered_links
    zones convert_aware var net events st st' :
  sync_events_body zones convert_aware var net events st = (Ok tt, st') →
  ∀ l, l ∈ synced_events st' →
    Some (Link.google_event_id l) ∈ event_id <$> filtered var events.
Proof.
  intros H l Hl. unfold sync_events_body in H.
  apply bind_ok in H as (listed & sta & Ea & H). cbv beta zeta in H.
  apply bind_ok in H as (ids & sta' & Eids & H).
  apply bind_ok in H as ([] & stb & Eb & H).
  apply bind_ok in H as (gids & stb' & Egids & H).
  injection Egids as Egids <-.
  apply bind_ok in H as (s & stb' & Es & H). injection Es as <- <-.
  pose proof (for_each_retire_all net gids [] (synced_events stb) stb st'
                eq_refl (Forall_nil_2 _) H) as Hall.
  apply (id_set_spec _ _ _ Egids).
  by apply (proj1 (Forall_forall _ _) Hall).
Qed.

Lemma complete_cycle_keeps_filtered_links_witness :
  Some (Link.google_event_id holiday_created)
  ∈ event_id <$> filtered new_york_config [holiday; standup].
Proof.
  apply (complete_cycle_keeps_filtered_links DateTime.iana no_aware
           new_york_config (obliging ["d9"]) [holiday; standup]
           (with_store [stale_link])
           (cycle (obliging ["d9"]) [holiday; standup]
              (with_store [stale_link]))).
  - vm_compute. reflexivity.
  - vm_compute. repeat constructor.
Defined.

Lemma deleted_sources_app a b :
  deleted_sources (a ++ b) = deleted_sources a ++ deleted_sources b.
Proof. unfold deleted_sources, planned. by rewrite !omap_app. Qed.

Lemma deleted_sources_silent new : silent new → deleted_sources new = [].
Proof. intros (H & _). unfold deleted_sources. by rewrite H. Qed.

Section Deletions.
Variable zones : DateTime.zone_db.
Variable convert_aware : string -> DateTime.tzinfo -> string.
Variable var : config.
Variable net : nat -> response.

Lemma process_event_deletes_nothing ids e st r st' :
  process_event zones convert_aware var net ids e st = (r, st') →
  ∃ new, trace st' = trace st ++ new ∧ deleted_sources new = [].
Proof.
  intros H. pose proof H as
    [[-> _]|(gid & sig & t & _ & _ & _ & [(Ht & _)|
       (a & rest & Ht & Hb & Hp & _)])]%process_event_run.
  - exists []. by rewrite app_nil_r.
  - by exists [Unchanged e].
  - exists (Planned a :: rest). split; [done|].
    unfold deleted_sources. simpl. fold (planned rest). rewrite Hp.
    unfold branch in Hb. destruct (find_link gid (synced_events st))
      as [[i l]|]; [|by subst].
    destruct (bool_decide _); [by destruct Hb as [-> _]|by subst].
Qed.

Lemma first_loop_deletes_nothing ids l : ∀ st r st',
  for_each l (process_event zones convert_aware var net ids) st = (r, st') →
  ∃ new, trace st' = trace st ++ new ∧ deleted_sources new = [].
Proof.
  induction l as [|e l IH]; intros st r st'; simpl.
  - intros [= <- <-]. exists []. by rewrite app_nil_r.
  - rewrite bind_run.
    destruct (process_event zones convert_aware var net ids e st)
      as [[[]|x] st1] eqn:E;
      apply process_event_deletes_nothing in E as (n1 & H1 & D1).
    + intros (n2 & H2 & D2)%IH. exists (n1 ++ n2).
      split; [by rewrite H2, H1, app_assoc|].
      by rewrite deleted_sources_app, D1, D2.
    + intros [= <- <-]. by exists n1.
Qed.

Lemma retire_link_deletes gids l st r st' :
  retire_link net gids l st = (r, st') →
  ∃ new, trace st' = trace st ++ new
         ∧ Forall (λ g, g ∉ gids) (deleted_sources new).
Proof.
  intros [(_ & -> & _)|(Hl & rest & Ht & Hp & _)]%retire_link_run.
  - exists []. by rewrite app_nil_r.
  - exists (Planned (Delete (Link.discord_event_id l)
                       (Link.google_event_id l)) :: rest).
    split; [done|]. unfold deleted_sources. simpl. fold (planned rest).
    rewrite Hp. simpl. by apply Forall_singleton.
Qed.

Lemma second_loop_deletes gids l : ∀ st r st',
  for_each l (retire_link net gids) st = (r, st') →
  ∃ new, trace st' = trace st ++ new
         ∧ Forall (λ g, g ∉ gids) (deleted_sources new).
Proof.
  induction l as [|x l IH]; intros st r st'; simpl.
  - intros [= <- <-]. exists []. by rewrite app_nil_r.
  - rewrite bind_run.
    destruct (retire_link net gids x st) as [[[]|y] st1] eqn:E;
      apply retire_link_deletes in E as (n1 & H1 & D1).
    + intros (n2 & H2 & D2)%IH. exists (n1 ++ n2).
      split; [by rewrite H2, H1, app_assoc|].
      rewrite deleted_sources_app. by apply Forall_app.
    + intros [= <- <-]. by exists n1.
Qed.

Lemma sync_events_body_deletes events st r st' :
  sync_events_body zones convert_aware var net events st = (r, st') →
  ∃ new, trace st' = trace st ++ new
    ∧ Forall (λ g, Some g ∉ event_id <$> filtered var events)
        (deleted_sources new).
Proof.
  unfold sync_events_body. rewrite bind_run.
  destruct (get_discord_events_quietly net st) as (na & [_ Ha] & Sa).
  apply deleted_sources_silent in Sa.
  destruct (get_discord_events net st) as [[listed|x] sta]; simpl in Ha;
    [|intros [= <- <-]; exists na; by rewrite Sa].
  cbv beta iota zeta. rewrite bind_run. unfold lift at 1.
  destruct (id_set listed) as [ids|x]; cbv beta iota;
    [|intros [= <- <-]; exists na; by rewrite Sa].
  rewrite bind_run.
  destruct (for_each _ _ sta) as [[[]|x] stb] eqn:Eb;
    apply first_loop_deletes_nothing in Eb as (nb & Hb & Db);
    [|intros [= <- <-]; exists (na ++ nb);
      split; [by rewrite Hb, Ha, app_assoc|];
      by rewrite deleted_sources_app, Sa, Db].
  rewrite bind_run. unfold lift at 1.
  destruct (id_set (event_id <$> filtered var events)) as [gids|x] eqn:Eg;
    cbv beta iota;
    [|intros [= <- <-]; exists (na ++ nb);
      split; [by rewrite Hb, Ha, app_assoc|];
      by rewrite deleted_sources_app, Sa, Db].
  rewrite bind_run. unfold get_store at 1. cbv beta iota.
  intros (nc & Hc & Dc)%second_loop_deletes.
  exists (na ++ nb ++ nc). split; [by rewrite Hc, Hb, Ha, !app_assoc|].
  rewrite !deleted_sources_app, Sa, Db. simpl.
  eapply Forall_impl; [exact Dc|]. intros g Hg Hin. apply Hg.
  by apply (id_set_spec _ _ _ Eg).
Qed.

End Deletions.



(** *** An event that cannot be read *)

Section Malformed.
Variable zones : DateTime.zone_db.
Variable convert_aware : string -> DateTime.tzinfo -> string.
Variable var : config.
Variable net : nat -> response.

Lemma for_each_app {A} (f : A → M unit) l1 l2 st :
  for_each (l1 ++ l2) f st
  = match for_each l1 f st with
    | (Ok _, st1) => for_each l2 f st1
    | (Raise x, st1) => (Raise x, st1)
    end.
Proof.
  revert st. induction l1 as [|x l1 IH]; intros st; simpl; [done|].
  rewrite !bind_run. destruct (f x st) as [[[]|y] st1]; [apply IH|done].
Qed.

Lemma process_event_malformed ids e st :
  event_id e = None ∨ start e = None ∨ end_ e = None ∨ summary e = None →
  ∃ key, process_event zones convert_aware var net ids e st
         = (Raise (KeyError key), st).
Proof.
  intros H. unfold process_event.
  cbv [mbind M_bind lift]. unfold Fingerprint.get_event_signature,
    Fingerprint.event_times.
  destruct (event_id e) as [gid|]; simpl; [|by eexists].
  destruct (start e) as [s|]; simpl; [|by eexists].
  destruct (end_ e) as [en|]; simpl; [|by eexists].
  destruct (summary e) as [t|]; [|destruct (date s); simpl; by eexists].
  by destruct H as [?|[?|[?|?]]].
Qed.

End Malformed.

(** X15. A filtered event that lacks its id, its start, its end or its
    title ends the cycle with a key error when its turn comes: the state
    is the one left by the events before it, nothing is sent for it or for
    the events after it, and no link is retired in that cycle. *)
Theorem malformed_event_stops_cycle
    zones convert_aware var net events pre e post st listed ids st0 st1 :
  filtered var events = pre ++ e :: post →
  get_discord_events net st = (Ok listed, st0) →
  id_set listed = Ok ids →
  for_each pre (process_event zones convert_aware var net ids) st0
  = (Ok tt, st1) →
  event_id e = None ∨ start e = None ∨ end_ e = None ∨ summary e = None →
  ∃ key,
    sync_events_loop zones convert_aware var net events st
    = {| synced_events := synced_events st1; calls := calls st1;
         trace := trace st1 ++ [Failed (KeyError key)] |}.
Proof.
  intros Hf Hget Hids Hpre He.
  destruct (process_event_malformed zones convert_aware var net ids e st1 He)
    as [key Hkey].
  exists key. unfold sync_events_loop, sync_events_body.
  rewrite bind_run, Hget. cbv beta iota zeta.
  rewrite bind_run. unfold lift at 1. rewrite Hids. cbv beta iota.
  rewrite bind_run, Hf, for_each_app, Hpre. simpl for_each.
  rewrite bind_run, Hkey. reflexivity.
Qed.

Lemma malformed_event_stops_cycle_witness :
  ∃ key,
    cycle (obliging []) [standup; untitled; holiday] fresh
    = {| synced_events :=
           synced_events (cycle (obliging []) [standup] fresh);
         calls := 2;
         trace := trace (cycle (obliging []) [standup] fresh)
                    ++ [Failed (KeyError key)] |}.
Proof.
  apply (malformed_event_stops_cycle DateTime.iana no_aware new_york_config
           (obliging []) [standup; untitled; holiday] [standup] untitled
           [holiday] fresh []
           ∅ {| synced_events := []; calls := 1;
                trace := [Sent {| method := GET; url_event_id := None;
                                  json := None |}] |}
           (cycle (obliging []) [standup] fresh)).
  - reflexivity.
  - reflexivity.
  - reflexivity.
  - vm_compute. reflexivity.
  - right; right; right. reflexivity.
Defined.

(** *** A new event *)

Lemma build_payload_name zones convert_aware var e data :
  build_payload zones convert_aware var e = Ok data →
  summary e = Some (name data).
Proof.
  unfold build_payload.
  destruct (Fingerprint.event_times _ _ _ e) as [[a b]|]; [|done].
  destruct (summary e); simpl; [|done]. by intros [= <-].
Qed.

(** X16. A new event whose creation is answered 200 or 201 with an id:
    one request is sent, and a link is appended to the store and saved; it
    holds the id of the event, the id that the platform gave, the
    fingerprint and the cached fields. *)
Theorem created_event_is_linked
    zones convert_aware var net ids e gid sig data hint d st :
  event_id e = Some gid →
  Fingerprint.get_event_signature zones convert_aware var e = Ok sig →
  build_payload zones convert_aware var e = Ok data →
  find_link gid (synced_events st) = None →
  status_code (net (calls st)) = 200%Z
  ∨ status_code (net (calls st)) = 201%Z →
  content (net (calls st)) = JsonObject hint (Some d) →
  d ≠ "" →
  let link := {| Link.google_event_id := gid;
                 Link.discord_event_id := d;
                 Link.date := from_option Fingerprint.time_of None (start e);
                 Link.title := Some (name data);
                 Link.channel := Some (DISCORD_CHANNEL_ID var);
                 Link.notes := Some (default "" (description e));
                 Link.signature := Some sig |} in
  process_event zones convert_aware var net ids e st
  = (Ok tt,
     {| synced_events := synced_events st ++ [link];
        calls := calls st + 1;
        trace := trace st
          ++ [Planned (Create e); Sent (upsert None data); Slept (2 # 1);
              Outcome true; Saved (synced_events st ++ [link])] |}).
Proof.
  intros Hid Hsig Hdata Hfind Hstatus Hbody Hd link.
  pose proof (build_payload_name _ _ _ _ _ Hdata) as Ht.
  unfold process_event.
  cbv [mbind M_bind get_store lift tell put_store save_synced_events
       mret M_ret].
  rewrite Hid, Hsig, Ht. simpl. rewrite Hfind.
  rewrite (create_or_update_run zones convert_aware var net e None data []
             _ Hdata); simpl; rewrite ?Nat.add_0_r.
  - rewrite Hbody.
    assert ((status_code (net (calls st)) =? 200)%Z
            || (status_code (net (calls st)) =? 201)%Z = true) as ->.
    { destruct Hstatus as [-> | ->]; done. }
    simpl. assert (Html.nonempty d = true) as -> by (by destruct d).
    simpl. rewrite <- !app_assoc. reflexivity.
  - lia.
  - intros j w Hj. by rewrite lookup_nil in Hj.
  - right. destruct Hstatus as [-> | ->]; done.
Qed.

Lemma created_event_is_linked_witness :
  process_event DateTime.iana no_aware new_york_config (obliging []) ∅
    holiday {| synced_events := []; calls := 1; trace := [] |}
  = (Ok tt,
     {| synced_events := [] ++ [holiday_created];
        calls := 1 + 1;
        trace := [] ++ [Planned (Create holiday);
                        Sent (upsert None holiday_payload); Slept (2 # 1);
                        Outcome true; Saved ([] ++ [holiday_created])] |}).
Proof.
  apply (created_event_is_linked DateTime.iana no_aware new_york_config
           (obliging []) ∅ holiday "g2" holiday_signature
           holiday_payload None "d7"
           {| synced_events := []; calls := 1; trace := [] |}).
  - reflexivity.
  - vm_compute. reflexivity.
  - vm_compute. reflexivity.
  - reflexivity.
  - by right.
  - reflexivity.
  - discriminate.
Defined.

(** X17. An event whose link is listed by the platform and whose
    fingerprint differs from the stored one (or has none stored): one
    update is sent to the target of the link and, when it is answered 200
    or 201 with an id, the link takes the new fingerprint and cached
    fields in place and keeps its two ids; the store is saved. *)
Theorem changed_event_is_updated
    zones convert_aware var net ids e gid sig data i l hint d st :
  event_id e = Some gid →
  Fingerprint.get_event_signature zones convert_aware var e = Ok sig →
  build_payload zones convert_aware var e = Ok data →
  find_link gid (synced_events st) = Some (i, l) →
  Link.discord_event_id l ∈ ids →
  Link.signature l ≠ Some sig →
  status_code (net (calls st)) = 200%Z
  ∨ status_code (net (calls st)) = 201%Z →
  content (net (calls st)) = JsonObject hint (Some d) →
  d ≠ "" →
  let link := {| Link.google_event_id := Link.google_event_id l;
                 Link.discord_event_id := Link.discord_event_id l;
                 Link.date := from_option Fingerprint.time_of None (start e);
                 Link.title := Some (name data);
                 Link.channel := Some (DISCORD_CHANNEL_ID var);
                 Link.notes := Some (default "" (description e));
                 Link.signature := Some sig |} in
  process_event zones convert_aware var net ids e st
  = (Ok tt,
     {| synced_events := <[i := link]> (synced_events st);
        calls := calls st + 1;
        trace := trace st
          ++ [Planned (Update e (Link.discord_event_id l));
              Sent (upsert (Some (Link.discord_event_id l)) data);
              Slept (2 # 1); Outcome true;
              Saved (<[i := link]> (synced_events st)); Slept (3 # 1)] |}).
Proof.
  intros Hid Hsig Hdata Hfind Hin Hne Hstatus Hbody Hd link.
  pose proof (build_payload_name _ _ _ _ _ Hdata) as Ht.
  unfold process_event.
  cbv [mbind M_bind get_store lift tell put_store save_synced_events
       mret M_ret].
  rewrite Hid, Hsig, Ht. simpl. rewrite Hfind.
  rewrite (bool_decide_eq_true_2 _ Hin). cbn [negb]. cbv beta iota.
  assert (Fingerprint.events_are_different zones convert_aware var e
            (Link.signature l) = Ok true) as ->.
  { unfold Fingerprint.events_are_different.
    destruct (Link.signature l) as [stored|]; [|done]. rewrite Hsig.
    rewrite bool_decide_eq_false_2; [done|]. congruence. }
  cbv beta iota.
  rewrite (create_or_update_run zones convert_aware var net e
             (Some (Link.discord_event_id l)) data [] _ Hdata);
    simpl; rewrite ?Nat.add_0_r.
  - rewrite Hbody.
    assert ((status_code (net (calls st)) =? 200)%Z
            || (status_code (net (calls st)) =? 201)%Z = true) as ->.
    { destruct Hstatus as [-> | ->]; done. }
    simpl. assert (Html.nonempty d = true) as -> by (by destruct d).
    simpl. unfold sleep, tell. simpl. rewrite <- !app_assoc. reflexivity.
  - lia.
  - intros j w Hj. by rewrite lookup_nil in Hj.
  - right. destruct Hstatus as [-> | ->]; done.
Qed.

Lemma changed_event_is_updated_witness :
  process_event DateTime.iana no_aware new_york_config (obliging ["d2"])
    {[ "d2" ]} holiday
    {| synced_events := [outdated_link]; calls := 1; trace := [] |}
  = (Ok tt,
     {| synced_events := <[0%nat := holiday_updated]> [outdated_link];
        calls := 1 + 1;
        trace := [] ++ [Planned (Update holiday "d2");
                        Sent (upsert (Some "d2") holiday_payload);
                        Slept (2 # 1); Outcome true;
                        Saved (<[0%nat := holiday_updated]> [outdated_link]);
                        Slept (3 # 1)] |}).
Proof.
  apply (changed_event_is_updated DateTime.iana no_aware new_york_config
           (obliging ["d2"]) {[ "d2" ]} holiday "g2" holiday_signature
           holiday_payload 0%nat outdated_link None "d7"
           {| synced_events := [outdated_link]; calls := 1; trace := [] |}).
  - reflexivity.
  - vm_compute. reflexivity.
  - vm_compute. reflexivity.
  - reflexivity.
  - by apply elem_of_singleton.
  - vm_compute. congruence.
  - by right.
  - reflexivity.
  - discriminate.
Defined.

End CycleProps.

(** ** The pages of the calendar *)

Module CalendarProps.
Import Calendar Examples.
#[local] Open Scope list_scope.

Section WithService.
Variable var : source.
Variable service : nat -> option page.
Variables now horizon : DateTime.datetime.

Lemma fetch_pages_chain ps : ∀ turns last acc token asked,
  (∀ i p, ps !! i = Some p →
     service (length asked + i) = Some p ∧ truthy (nextPageToken p) = true) →
  service (length asked + length ps) = Some last →
  truthy (nextPageToken last) = false →
  (pageToken (page_request var now horizon token)
   = if truthy token then token else None) →
  (length ps < turns)%nat →
  fetch_pages var service turns (stamp now) (stamp horizon) acc token asked
  = (Returned (acc ++ events_of ps ++ default [] (items last)),
     asked ++ (page_request var now horizon
                 <$> token :: (nextPageToken <$> ps))).
Proof.
  induction ps as [|p ps IH]; intros turns last acc token asked Hps Hlast
    Hend Htok Hturns.
  - destruct turns as [|n]; [simpl in Hturns; lia|]. simpl in *.
    rewrite Nat.add_0_r in Hlast. rewrite Hlast, Hend.
    unfold page_request. simpl in Htok. by rewrite <- Htok.
  - destruct turns as [|n]; [simpl in Hturns; lia|].
    destruct (Hps 0%nat p eq_refl) as [Hp Htp]. rewrite Nat.add_0_r in Hp.
    simpl fetch_pages. rewrite Hp, Htp.
    rewrite (IH n last).
    + simpl in Htok. rewrite <- Htok. unfold events_of. simpl.
      rewrite <- !app_assoc. reflexivity.
    + intros i p' Hi. rewrite length_app. simpl.
      replace (length asked + 1 + i)%nat with (length asked + S i)%nat by lia.
      by apply Hps.
    + rewrite length_app. simpl. simpl in Hlast.
      by replace (length asked + 1 + length ps)%nat
        with (length asked + S (length ps))%nat by lia.
    + done.
    + simpl. by rewrite Htp.
    + simpl in Hturns. lia.
Qed.

Lemma fetch_pages_endless turns : ∀ acc token asked,
  (∀ i, ∃ p, service i = Some p ∧ truthy (nextPageToken p) = true) →
  (fetch_pages var service turns (stamp now) (stamp horizon) acc token
     asked).1 = Unfinished.
Proof.
  induction turns as [|n IH]; intros acc token asked H; [done|].
  simpl. destruct (H (length asked)) as (p & -> & ->). by apply IH.
Qed.

End WithService.

(** X18. When the calendar answers with pages that each announce a next
    one and then with a page that does not (no token, or an empty one),
    [get_upcoming_events] returns the events of all these pages in order,
    an absent [items] counting for none. It sends one request per page:
    the first without a page token, each later one with the token of the
    page before, all for the same calendar, window and query. *)
Theorem get_upcoming_events_concatenates
    var service now horizon ps last turns asked :
  (∀ i p, ps !! i = Some p →
     service (length asked + i) = Some p ∧ truthy (nextPageToken p) = true) →
  service (length asked + length ps) = Some last →
  truthy (nextPageToken last) = false →
  (length ps < turns)%nat →
  get_upcoming_events var service turns now horizon asked
  = (Returned (events_of ps ++ default [] (items last)),
     asked ++ (page_request var now horizon
                 <$> None :: (nextPageToken <$> ps))).
Proof.
  intros Hps Hlast Hend Hturns. unfold get_upcoming_events.
  by rewrite (fetch_pages_chain var service now horizon ps turns last []
                None asked).
Qed.

Lemma get_upcoming_events_concatenates_witness :
  get_upcoming_events team_calendar two_pages 5 noon a_week_later []
  = (Returned
       (events_of [ {| items := Some [holiday]; nextPageToken := Some "p2" |};
                    {| items := Some [standup]; nextPageToken := Some "p3" |} ]
        ++ default [] None),
     [] ++ (page_request team_calendar noon a_week_later
              <$> None :: (nextPageToken
                             <$> [ {| items := Some [holiday];
                                      nextPageToken := Some "p2" |};
                                   {| items := Some [standup];
                                      nextPageToken := Some "p3" |} ]))).
Proof.
  apply (get_upcoming_events_concatenates team_calendar two_pages noon
           a_week_later
           [ {| items := Some [holiday]; nextPageToken := Some "p2" |};
             {| items := Some [standup]; nextPageToken := Some "p3" |} ]
           {| items := None; nextPageToken := None |} 5 []).
  - intros [|[|i]] p [= <-]; by split.
  - reflexivity.
  - reflexivity.
  - simpl. lia.
Defined.

(** X19. The loop has no bound of its own: when every page announces a
    next one, [get_upcoming_events] has not returned after any number of
    pages. *)
Theorem get_upcoming_events_needs_a_last_page
    var service now horizon turns asked :
  (∀ i, ∃ p, service i = Some p ∧ truthy (nextPageToken p) = true) →
  (get_upcoming_events var service turns now horizon asked).1 = Unfinished.
Proof. apply fetch_pages_endless. Qed.

Lemma get_upcoming_events_needs_a_last_page_witness :
  (get_upcoming_events team_calendar endless 1000 noon a_week_later []).1
  = Unfinished.
Proof.
  apply (get_upcoming_events_needs_a_last_page team_calendar endless noon
           a_week_later 1000 []).
  intros i. eexists. split; reflexivity.
Defined.

End CalendarProps.

(** ** The event log *)

Module LogProps.
Import DateTime Log StrFacts.

Lemma length_pad2 n : String.length (pad2 n) = 2%nat.
Proof. reflexivity. Qed.

Lemma length_pad4 n : String.length (pad4 n) = 4%nat.
Proof. reflexivity. Qed.

Lemma length_line_notice dt dt' :
  String.length (line dt (notice dt')) = 76%nat.
Proof.
  unfold line, notice, archive_name, log_stamp, file_stamp, iso_date.
  rewrite !length_app, !length_pad2, !length_pad4. reflexivity.
Qed.

Section WithClock.
Variable clock : nat -> datetime.

Lemma log_event_run turns message fs :
  let r := readings fs in
  let text := default "" (event_log fs) ++ line (clock r) message in
  log_event clock (S (S turns)) message fs
  = Some (if (LOG_SIZE_LIMIT <? getsize text)%N
          then {| event_log :=
                    Some (line (clock (S (S r))) (notice (clock (S r))));
                  archives :=
                    <[archive_name (clock (S r)) := text]> (archives fs);
                  readings := S (S (S r)) |}
          else {| event_log := Some text; archives := archives fs;
                  readings := S r |}).
Proof.
  intros r text. subst r text. unfold line, notice, archive_name.
  simpl log_event. unfold check_log_size at 1. simpl.
  destruct (LOG_SIZE_LIMIT <? _)%N; [|done].
  unfold check_log_size. simpl event_log. cbv beta iota zeta.
  rewrite app_empty_l.
  pose proof (length_line_notice (clock (S (S (readings fs))))
                (clock (S (readings fs)))) as H.
  unfold line, notice, archive_name in H. unfold getsize. simpl readings.
  rewrite H. reflexivity.
Qed.

End WithClock.

(** X20. [log_event] returns after two nested calls at most. It appends one
    line, the time and the message; when the file is then larger than the
    limit, the whole text, the new line included, goes to an archive named
    after the next reading of the clock, and the log is left with the one
    line that reports it. *)
Theorem log_event_appends_or_rotates clock turns message fs :
  (2 ≤ turns)%nat →
  let r := readings fs in
  let text := default "" (event_log fs) ++ line (clock r) message in
  ∃ fs', log_event clock turns message fs = Some fs'
    ∧ ((getsize text ≤ LOG_SIZE_LIMIT)%N
       ∧ event_log fs' = Some text ∧ archives fs' = archives fs
       ∨ (LOG_SIZE_LIMIT < getsize text)%N
         ∧ event_log fs'
           = Some (line (clock (S (S r))) (notice (clock (S r))))
         ∧ archives fs'
           = <[archive_name (clock (S r)) := text]> (archives fs)).
Proof.
  intros Hturns r text.
  destruct turns as [|[|turns]]; [lia|lia|].
  rewrite log_event_run. fold r text. eexists. split; [reflexivity|].
  destruct (LOG_SIZE_LIMIT <? getsize text)%N eqn:E.
  - right. apply N.ltb_lt in E. done.
  - left. apply N.ltb_ge in E. done.
Qed.

Lemma log_event_appends_or_rotates_witness :
  ∃ fs', log_event (fun _ => Examples.noon) 2 "Bot logged in and ready."
           Examples.no_log = Some fs'
    ∧ ((getsize
          (default "" (event_log Examples.no_log)
           ++ line Examples.noon "Bot logged in and ready.")
        ≤ LOG_SIZE_LIMIT)%N
       ∧ event_log fs'
         = Some (default "" (event_log Examples.no_log)
                 ++ line Examples.noon "Bot logged in and ready.")
       ∧ archives fs' = archives Examples.no_log
       ∨ (LOG_SIZE_LIMIT
          < getsize
              (default "" (event_log Examples.no_log)
               ++ line Examples.noon "Bot logged in and ready."))%N
         ∧ event_log fs'
           = Some (line Examples.noon (notice Examples.noon))
         ∧ archives fs'
           = <[archive_name Examples.noon
               := default "" (event_log Examples.no_log)
                  ++ line Examples.noon "Bot logged in and ready."]>
               (archives Examples.no_log)).
Proof.
  apply (log_event_appends_or_rotates (fun _ => Examples.noon) 2
           "Bot logged in and ready." Examples.no_log).
  lia.
Defined.

(** X21. Whatever the log held before, after a call of [log_event] that
    has returned the log is not larger than the limit. *)
Theorem log_event_bounds_log clock turns message fs fs' text :
  log_event clock turns message fs = Some fs' →
  event_log fs' = Some text →
  (getsize text ≤ LOG_SIZE_LIMIT)%N.
Proof.
  destruct turns as [|[|turns]].
  - done.
  - simpl. unfold check_log_size. simpl.
    destruct (LOG_SIZE_LIMIT <? _)%N eqn:E; [done|].
    intros [= <-] [= <-]. by apply N.ltb_ge in E.
  - rewrite log_event_run.
    destruct (LOG_SIZE_LIMIT <? _)%N eqn:E; intros [= <-] [= <-].
    + unfold getsize. rewrite length_line_notice. done.
    + by apply N.ltb_ge in E.
Qed.

Lemma log_event_bounds_log_witness :
  (getsize (line Examples.noon "Bot logged in and ready.")
   ≤ LOG_SIZE_LIMIT)%N.
Proof.
  apply (log_event_bounds_log (fun _ => Examples.noon) 2
           "Bot logged in and ready." Examples.no_log
           {| event_log := Some (line Examples.noon "Bot logged in and ready.");
              archives := ∅; readings := 1 |}).
  - vm_compute. reflexivity.
  - reflexivity.
Defined.

End LogProps.

(** ** The mapping document on disk *)

Module DocumentProps.
Import Json Document StrFacts.

(** Induction on a document, with the property at hand for every item of
    a list and every value of a dict. *)
Lemma document_induction (P : document → Prop) :
  P DNone → (∀ b, P (DBool b)) → (∀ t, P (DNumber t)) → (∀ s, P (DStr s)) →
  (∀ l, Forall P l → P (DList l)) →
  (∀ ms, Forall (λ kv, P kv.2) ms → P (DDict ms)) →
  ∀ v, P v.
Proof.
  intros HN HB HNum HS HL HD. fix IH 1.
  intros [|b|t|s|l|ms]; [exact HN|apply HB|apply HNum|apply HS| |].
  - apply HL. induction l as [|x l IHl]; constructor; [apply IH|apply IHl].
  - apply HD. induction ms as [|[k x] ms IHms]; constructor;
      [apply IH|apply IHms].
Qed.

(** *** Strings *)

Ltac char_cases c :=
  destruct c as [[] [] [] [] [] [] [] []].

Lemma scan_escape_char acc c t :
  scan (InStr acc) (escape_char c ++ t)
  = scan (InStr (acc ++ escape_char c)) t.
Proof.
  char_cases c;
    match goal with
    | |- context [escape_char ?x] =>
        let e := eval vm_compute in (escape_char x) in
        change (escape_char x) with e
    end;
    rewrite ?app_cons, ?app_empty_l; simpl; unfold snoc;
    rewrite ?app_assoc, ?app_cons, ?app_empty_l; reflexivity.
Qed.

Lemma scan_escape s : ∀ acc rest,
  scan (InStr acc) (escape s ++ String Html.dquote rest)
  = cons (TStr (acc ++ escape s)) <$> scan Idle rest.
Proof.
  induction s as [|c s IH]; intros acc rest.
  - simpl escape. rewrite app_empty_l, app_empty_r. simpl.
    by destruct (scan Idle rest).
  - simpl escape. rewrite app_assoc, scan_escape_char, IH.
    by rewrite app_assoc.
Qed.

Lemma unescape_escape_char c t :
  unescape_from UPlain (escape_char c ++ t)
  = String c <$> unescape_from UPlain t.
Proof.
  char_cases c;
    match goal with
    | |- context [escape_char ?x] =>
        let e := eval vm_compute in (escape_char x) in
        change (escape_char x) with e
    end;
    rewrite ?app_cons, ?app_empty_l; simpl;
    by destruct (unescape_from UPlain t).
Qed.

Lemma unescape_escape s : unescape (escape s) = Some s.
Proof.
  unfold unescape. induction s as [|c s IH]; [done|].
  simpl escape. by rewrite unescape_escape_char, IH.
Qed.

(** *** The scanner on the text of a document *)

Lemma fmap_app_app (a b : list token) (o : option (list token)) :
  app a <$> (app b <$> o) = app (a ++ b)%list <$> o.
Proof. destruct o; simpl; [|done]. by rewrite <- (assoc app). Qed.

Lemma fmap_cons_app (x : token) (b : list token)
    (o : option (list token)) :
  cons x <$> (app b <$> o) = app (x :: b) <$> o.
Proof. by destruct o. Qed.

Lemma fmap_app_nil (o : option (list token)) : app [] <$> o = o.
Proof. by destruct o. Qed.

Lemma scan_idle_step c s m out :
  idle_step c = Some (m, out) →
  scan Idle (String c s) = app out <$> scan m s.
Proof. intros H. simpl. rewrite H. simpl. by destruct (scan m s). Qed.

Lemma scan_ws c s : is_ws c = true → scan Idle (String c s) = scan Idle s.
Proof.
  intros H. rewrite (scan_idle_step c s Idle []).
  - apply fmap_app_nil.
  - unfold idle_step. by rewrite H.
Qed.

Lemma scan_spaces n s : scan Idle (spaces n ++ s) = scan Idle s.
Proof.
  induction n as [|n IH]; [done|]. simpl spaces. rewrite app_cons.
  by rewrite scan_ws.
Qed.

Lemma scan_newline_indent level s :
  scan Idle (newline_indent level ++ s) = scan Idle s.
Proof.
  unfold newline_indent. rewrite app_cons, scan_ws by done.
  apply scan_spaces.
Qed.

Lemma scan_punct c tok s :
  idle_step c = Some (Idle, [tok]) →
  scan Idle (String c s) = cons tok <$> scan Idle s.
Proof. intros H. rewrite (scan_idle_step c s Idle [tok] H). by destruct (scan Idle s). Qed.

Lemma scan_atom_end acc rest :
  ends_atom rest →
  scan (InAtom acc) rest = cons (TAtom acc) <$> scan Idle rest.
Proof.
  destruct rest as [|c t]; [done|]. simpl. intros ->.
  destruct (idle_step c) as [[m out]|]; simpl; [|done].
  by destruct (scan m t).
Qed.

Lemma scan_atom_chars t : ∀ acc rest,
  HtmlSpec.all is_atom_char t = true →
  scan (InAtom acc) (t ++ rest) = scan (InAtom (acc ++ t)) rest.
Proof.
  induction t as [|c t IH]; intros acc rest H.
  - by rewrite app_empty_l, app_empty_r.
  - simpl in H. apply andb_prop in H as [Hc Ht].
    rewrite app_cons. simpl. rewrite Hc, IH by done.
    unfold snoc. by rewrite app_assoc.
Qed.

Lemma idle_step_atom c :
  is_atom_char c = true →
  idle_step c = Some (InAtom (String c ""), []).
Proof. char_cases c; vm_compute; congruence. Qed.

Lemma scan_atom t rest :
  Html.nonempty t = true → HtmlSpec.all is_atom_char t = true →
  ends_atom rest →
  scan Idle (t ++ rest) = cons (TAtom t) <$> scan Idle rest.
Proof.
  destruct t as [|c t]; [done|]. intros _ H Hrest. simpl in H.
  apply andb_prop in H as [Hc Ht]. rewrite app_cons.
  rewrite (scan_idle_step c _ _ _ (idle_step_atom c Hc)), fmap_app_nil.
  rewrite scan_atom_chars by done. by apply scan_atom_end.
Qed.

Lemma scan_string s rest :
  scan Idle (encode_basestring s ++ rest)
  = cons (TStr (escape s)) <$> scan Idle rest.
Proof.
  unfold encode_basestring. rewrite app_cons, app_assoc, app_cons, app_empty_l.
  rewrite (scan_idle_step _ _ (InStr "") []) by done.
  by rewrite fmap_app_nil, scan_escape, app_empty_l.
Qed.

Lemma is_number_text_spec t :
  is_number_text t = true →
  Html.nonempty t = true ∧ HtmlSpec.all is_atom_char t = true
  ∧ atom t = Some (Number t).
Proof.
  unfold is_number_text. intros [Ha Hn]%andb_prop.
  destruct (atom t) as [[| |t'| | |]|] eqn:E; try done.
  apply String.eqb_eq in Hn as ->. by destruct t.
Qed.

Lemma scan_join level pieces rest :
  Forall scans pieces → ends_atom rest →
  scan Idle (join (item_separator level) (map fst pieces) ++ rest)
  = app (separated (map snd pieces)) <$> scan Idle rest.
Proof.
  intros H Hrest. induction H as [|[text ts] pieces Hp _ IH].
  - simpl. by rewrite fmap_app_nil.
  - destruct pieces as [|p' pieces].
    + simpl. rewrite app_nil_r. by apply Hp.
    + change (join _ (map fst ((text, ts) :: p' :: pieces)))
        with (text ++ item_separator level
              ++ join (item_separator level) (map fst (p' :: pieces))).
      rewrite !app_assoc. rewrite (Hp _); [|done]. simpl fst. simpl snd.
      unfold item_separator at 1. rewrite app_assoc, app_cons, app_empty_l.
      rewrite (scan_punct _ TComma) by done.
      rewrite scan_newline_indent, IH.
      rewrite fmap_cons_app, fmap_app_app. simpl. reflexivity.
Qed.

Lemma is_object_list l : is_object (DList l) = forallb is_object l.
Proof. reflexivity. Qed.

Lemma is_object_dict ms :
  is_object (DDict ms)
  = bool_decide (NoDup (map fst ms))
    && forallb (λ kv : string * document, let '(_, x) := kv in is_object x) ms.
Proof. reflexivity. Qed.

Lemma is_object_item l x :
  is_object (DList l) = true → x ∈ l → is_object x = true.
Proof.
  rewrite is_object_list. intros H Hx.
  apply (proj1 (forallb_forall _ _) H). by apply list_elem_of_In.
Qed.

Lemma is_object_value ms k x :
  is_object (DDict ms) = true → (k, x) ∈ ms → is_object x = true.
Proof.
  rewrite is_object_dict. intros [_ H]%andb_prop Hx.
  apply (proj1 (forallb_forall _ _) H (k, x)). by apply list_elem_of_In.
Qed.

Lemma scan_dumps v :
  is_object v = true →
  ∀ level rest, ends_atom rest →
    scan Idle (dumps level v ++ rest) = app (tokens v) <$> scan Idle rest.
Proof.
  induction v as [|b|t|s|l IH|ms IH] using document_induction;
    intros Hv level rest Hrest.
  - rewrite (scan_atom "null") by done. by destruct (scan Idle rest).
  - destruct b; simpl dumps.
    + rewrite (scan_atom "true") by done. by destruct (scan Idle rest).
    + rewrite (scan_atom "false") by done. by destruct (scan Idle rest).
  - simpl in Hv. apply is_number_text_spec in Hv as (Hn & Ha & _).
    simpl dumps. rewrite scan_atom by done. by destruct (scan Idle rest).
  - simpl dumps. rewrite scan_string. by destruct (scan Idle rest).
  - destruct l as [|x l].
    { simpl dumps. rewrite !app_cons, app_empty_l.
      rewrite (scan_punct _ TLBracket), (scan_punct _ TRBracket) by done.
      by destruct (scan Idle rest). }
    change (dumps level (DList (x :: l)))
      with ("[" ++ newline_indent (S level)
            ++ join (item_separator (S level))
                 (map (dumps (S level)) (x :: l))
            ++ newline_indent level ++ "]").
    rewrite !app_assoc, app_cons, app_empty_l.
    rewrite (scan_punct _ TLBracket) by done.
    rewrite scan_newline_indent.
    replace (map (dumps (S level)) (x :: l))
      with (map fst (map (λ y, (dumps (S level) y, tokens y)) (x :: l)))
      by (by rewrite map_map).
    rewrite scan_join.
    + rewrite scan_newline_indent, app_cons, app_empty_l.
      rewrite (scan_punct _ TRBracket) by done.
      rewrite map_map. simpl snd.
      destruct (scan Idle rest); simpl; [|done].
      by rewrite <- !(assoc app).
    + apply Forall_map, Forall_forall. intros y Hy r Hr. simpl.
      apply (proj1 (Forall_forall _ _) IH y Hy); [|done].
      by eapply is_object_item.
    + done.
  - destruct ms as [|[k x] ms].
    { simpl dumps. rewrite !app_cons, app_empty_l.
      rewrite (scan_punct _ TLBrace), (scan_punct _ TRBrace) by done.
      by destruct (scan Idle rest). }
    set (piece := λ kv : string * document,
                    let '(k, x) := kv in
                    (encode_basestring k ++ ": " ++ dumps (S level) x,
                     TStr (escape k) :: TColon :: tokens x)).
    change (dumps level (DDict ((k, x) :: ms)))
      with ("{" ++ newline_indent (S level)
            ++ join (item_separator (S level))
                 (map (λ kv : string * document,
                         let '(k, x) := kv in
                         encode_basestring k ++ ": " ++ dumps (S level) x)
                    ((k, x) :: ms))
            ++ newline_indent level ++ "}").
    rewrite !app_assoc, app_cons, app_empty_l.
    rewrite (scan_punct _ TLBrace) by done.
    rewrite scan_newline_indent.
    replace (map _ ((k, x) :: ms))
      with (map fst (map piece ((k, x) :: ms))).
    2:{ rewrite map_map. apply map_ext. by intros [? ?]. }
    rewrite scan_join.
    + rewrite scan_newline_indent, app_cons, app_empty_l.
      rewrite (scan_punct _ TRBrace) by done.
      rewrite map_map.
      replace (map (λ y, (piece y).2) ((k, x) :: ms))
        with (map (λ kv : string * document,
                     let '(k, x) := kv in
                     TStr (escape k) :: TColon :: tokens x) ((k, x) :: ms))
        by (apply map_ext; by intros [? ?]).
      destruct (scan Idle rest); simpl; [|done].
      by rewrite <- !(assoc app).
    + apply Forall_map, Forall_forall. intros [k' y] Hy r Hr.
      unfold piece. cbn [fst snd].
      rewrite !app_assoc, scan_string.
      rewrite !app_cons, app_empty_l.
      rewrite (scan_punct _ TColon) by done.
      rewrite scan_ws by done.
      rewrite (proj1 (Forall_forall _ _) IH (k', y) Hy); [|..|done].
      * by destruct (scan Idle r).
      * by eapply is_object_value.
    + done.
Qed.

Lemma parse_app st ts1 ts2 st' :
  (∀ ts, parse st (ts1 ++ ts)%list = parse st' ts) →
  parse st (ts1 ++ ts2)%list = parse st' ts2.
Proof. intros H. apply H. Qed.

Lemma parse_atom stack e a v ts :
  starts_value e → atom a = Some v →
  parse (stack, e) (TAtom a :: ts) = parse (put v stack) ts.
Proof. intros [-> | ->] H; simpl; by rewrite H. Qed.

Lemma parse_items stack ts l : ∀ items,
  Forall (λ x, ∀ stack e ts, starts_value e →
            parse (stack, e) (tokens x ++ ts)%list
            = parse (put (quoted x) stack) ts) l →
  parse (FArray items :: stack, ENext)
    (concat (map (cons TComma) (map tokens l)) ++ TRBracket :: ts)%list
  = parse (put (Array (items ++ map quoted l)%list) stack) ts.
Proof.
  induction l as [|x l IH]; intros items H.
  - simpl. by rewrite app_nil_r.
  - apply Forall_cons in H as [Hx Hl]. simpl.
    rewrite <- (assoc app). rewrite Hx by (by left). simpl put.
    rewrite IH by done. by rewrite <- (assoc app).
Qed.

Lemma parse_members stack ts ms : ∀ acc k0,
  Forall (λ kv : string * document,
            ∀ stack e ts, starts_value e →
              parse (stack, e) (tokens kv.2 ++ ts)%list
              = parse (put (quoted kv.2) stack) ts) ms →
  parse (FObject acc k0 :: stack, ENext)
    (concat (map (cons TComma)
               (map (λ kv : string * document,
                       let '(k, x) := kv in
                       TStr (escape k) :: TColon :: tokens x) ms))
     ++ TRBrace :: ts)%list
  = parse (put (Object
                  (acc ++ map (λ kv : string * document,
                                 let '(k, x) := kv in (escape k, quoted x))
                            ms)%list) stack) ts.
Proof.
  induction ms as [|[k x] ms IH]; intros acc k0 H.
  - simpl. by rewrite app_nil_r.
  - apply Forall_cons in H as [Hx Hms]. simpl in Hx. simpl.
    rewrite <- (assoc app). rewrite Hx by (by left). simpl put.
    rewrite IH by done. by rewrite <- (assoc app).
Qed.

Lemma parse_tokens v :
  is_object v = true →
  ∀ stack e ts, starts_value e →
    parse (stack, e) (tokens v ++ ts)%list = parse (put (quoted v) stack) ts.
Proof.
  induction v as [|b|t|s|l IH|ms IH] using document_induction;
    intros Hv stack e ts He.
  - by apply parse_atom.
  - destruct b; by apply parse_atom.
  - apply is_number_text_spec in Hv as (_ & _ & Ha). by apply parse_atom.
  - by destruct He as [-> | ->].
  - assert (Forall (λ x, ∀ stack e ts, starts_value e →
              parse (stack, e) (tokens x ++ ts)%list
              = parse (put (quoted x) stack) ts) l) as IH'.
    { apply Forall_forall. intros x Hx.
      apply (proj1 (Forall_forall _ _) IH x Hx). by eapply is_object_item. }
    destruct l as [|x l].
    { by destruct He as [-> | ->]. }
    apply Forall_cons in IH' as [Hx Hl].
    assert (parse (stack, e) (tokens (DList (x :: l)) ++ ts)%list
            = parse (FArray [] :: stack, EValueOrClose)
                (tokens x ++ concat (map (cons TComma) (map tokens l))
                 ++ TRBracket :: ts)%list) as ->.
    { destruct He as [-> | ->]; simpl; by rewrite <- !(assoc app). }
    rewrite Hx by (by right). simpl put. by rewrite parse_items.
  - assert (Forall (λ kv : string * document,
              ∀ stack e ts, starts_value e →
                parse (stack, e) (tokens kv.2 ++ ts)%list
                = parse (put (quoted kv.2) stack) ts) ms) as IH'.
    { apply Forall_forall. intros [k x] Hx.
      apply (proj1 (Forall_forall _ _) IH (k, x) Hx).
      by eapply is_object_value. }
    destruct ms as [|[k x] ms].
    { by destruct He as [-> | ->]. }
    apply Forall_cons in IH' as [Hx Hms]. simpl in Hx.
    assert (parse (stack, e) (tokens (DDict ((k, x) :: ms)) ++ ts)%list
            = parse (FObject [] (escape k) :: stack, EValue)
                (tokens x
                 ++ concat (map (cons TComma)
                              (map (λ kv : string * document,
                                      let '(k, x) := kv in
                                      TStr (escape k) :: TColon :: tokens x)
                                 ms))
                 ++ TRBrace :: ts)%list) as ->.
    { destruct He as [-> | ->]; simpl; by rewrite <- !(assoc app). }
    rewrite Hx by (by left). simpl put. by rewrite parse_members.
Qed.

(** *** From the decoded text back to the object *)

Lemma set_item_new {A} k (x : A) d :
  k ∉ map fst d → set_item k x d = (d ++ [(k, x)])%list.
Proof.
  induction d as [|[k' y] d IH]; [done|]. simpl.
  intros [Hne Hd]%not_elem_of_cons.
  destruct (String.eqb k' k) eqn:E.
  - apply String.eqb_eq in E. congruence.
  - by rewrite IH.
Qed.

Lemma dict_of_distinct {A} (pairs : list (string * A)) :
  NoDup (map fst pairs) → dict_of pairs = pairs.
Proof.
  unfold dict_of.
  assert (∀ d, NoDup (map fst (d ++ pairs)%list) →
               fold_left (λ d kv, set_item kv.1 kv.2 d) pairs d
               = (d ++ pairs)%list) as H.
  { induction pairs as [|[k x] pairs IH]; intros d Hd; simpl.
    - by rewrite app_nil_r.
    - rewrite set_item_new.
      + rewrite IH; rewrite <- (assoc app); done.
      + rewrite map_app in Hd. simpl in Hd.
        apply NoDup_app in Hd as (_ & Hd & _). intros Hk.
        apply (Hd k Hk). by left. }
  intros Hnd. by apply (H []).
Qed.

Lemma decode_quoted v : is_object v = true → decode (quoted v) = Some v.
Proof.
  induction v as [|b|t|s|l IH|ms IH] using document_induction; intros Hv.
  - done.
  - done.
  - done.
  - simpl. by rewrite unescape_escape.
  - simpl.
    assert ((fix go (l : list value) : option (list document) :=
               match l with
               | [] => Some []
               | x :: l' => y ← decode x; ys ← go l'; Some (y :: ys)
               end) (map quoted l) = Some l) as ->; [|done].
    rewrite is_object_list in Hv.
    induction IH as [|x l Hx _ IHl]; [done|]. simpl in Hv.
    apply andb_prop in Hv as [Hvx Hvl]. simpl.
    rewrite (Hx Hvx). simpl. by rewrite (IHl Hvl).
  - simpl.
    assert ((fix go (ms : list (string * value))
               : option (list (string * document)) :=
               match ms with
               | [] => Some []
               | (k, x) :: ms' =>
                   k' ← unescape k; y ← decode x; ys ← go ms';
                   Some ((k', y) :: ys)
               end)
              (map (λ kv : string * document,
                      let '(k, x) := kv in (escape k, quoted x)) ms)
            = Some ms) as ->.
    { rewrite is_object_dict in Hv. apply andb_prop in Hv as [_ Hv].
      induction IH as [|[k x] ms Hx _ IHms]; [done|]. simpl in Hv.
      apply andb_prop in Hv as [Hvx Hvms]. simpl in Hx. simpl.
      rewrite unescape_escape. simpl. rewrite (Hx Hvx). simpl.
      by rewrite (IHms Hvms). }
    simpl. rewrite dict_of_distinct; [done|].
    rewrite is_object_dict in Hv. apply andb_prop in Hv as [Hnd _].
    by apply bool_decide_eq_true in Hnd.
Qed.

Lemma loads_dumps v level :
  is_object v = true → loads (dumps level v) = Some (quoted v).
Proof.
  intros Hv. unfold loads.
  rewrite <- (app_empty_r (dumps level v)), (scan_dumps v Hv level "") by done.
  change (scan Idle "") with (Some (@nil token)).
  cbn [fmap option_fmap option_map mbind option_bind].
  by rewrite (parse_tokens v Hv [] EValue []) by (by left).
Qed.



End DocumentProps.
